(** * vccgallery: the gallery server, embedded and checked against its specification

    The development follows [server.js]: the string and path helpers of the
    JavaScript runtime it calls, the caption resolver
    ([processMediaFileForModal]), the directory scanner
    ([getMediaFilesFromDirectory]), the cover selector ([findFolderCover]),
    the two routes, the recursive walk that fills the modal list, and the
    script of the page (the modal and the theme).

    Strings are byte strings in UTF-8, as [readdir] delivers file names. *)

From Stdlib Require Import String Ascii List ZArith Lia Bool DecimalString.
From Stdlib Require Import Permutation Sorted OrderedTypeEx.
Import ListNotations.
Local Open Scope string_scope.
Local Open Scope list_scope.

(* ================================================================== *)
(** * Part I: definitions *)
(* ================================================================== *)

(** ** JavaScript strings *)

Module Js.

Definition chars (s : string) : list ascii := list_ascii_of_string s.
Definition str (l : list ascii) : string := string_of_list_ascii l.
Definition code (c : ascii) : nat := nat_of_ascii c.

(** [String.prototype.toLowerCase]. Only A-Z change; no code point
    outside ASCII lowers to an ASCII letter that occurs in a media
    extension or in the word "cover". *)
Definition lowerChar (c : ascii) : ascii :=
  if (65 <=? code c)%nat && (code c <=? 90)%nat
  then ascii_of_nat (code c + 32) else c.

Fixpoint toLowerCase (s : string) : string :=
  match s with
  | EmptyString => EmptyString
  | String c r => String (lowerChar c) (toLowerCase r)
  end.

(** JavaScript truthiness of a string-valued property that may be
    missing: [undefined] and the empty string are falsy. [whenTruthy]
    gives the string a test [if (v)] lets through. *)
Definition whenTruthy (v : option string) : option string :=
  match v with
  | Some s => if s =? "" then None else Some s
  | None => None
  end.

Definition truthy (v : option string) : bool :=
  match whenTruthy v with
  | Some _ => true
  | None => false
  end.

(** [!caption] for a string. *)
Definition isEmpty (s : string) : bool := s =? "".

(** White space as [trim] understands it (WhiteSpace and LineTerminator
    of ECMAScript), by UTF-8 length. *)
Definition ws1 (a : ascii) : bool :=
  ((9 <=? code a)%nat && (code a <=? 13)%nat) || (code a =? 32)%nat.

(* U+00A0 *)
Definition ws2 (a b : ascii) : bool :=
  (code a =? 194)%nat && (code b =? 160)%nat.

(* U+1680, U+2000..U+200A, U+2028, U+2029, U+202F, U+205F, U+3000, U+FEFF *)
Definition ws3 (a b c : ascii) : bool :=
  let x := code a in let y := code b in let z := code c in
  ((x =? 225) && (y =? 154) && (z =? 128))%nat
  || ((x =? 226) && (y =? 128) && (128 <=? z) && (z <=? 138))%nat
  || ((x =? 226) && (y =? 128) && ((z =? 168) || (z =? 169) || (z =? 175)))%nat
  || ((x =? 226) && (y =? 129) && (z =? 159))%nat
  || ((x =? 227) && (y =? 128) && (z =? 128))%nat
  || ((x =? 239) && (y =? 187) && (z =? 191))%nat.

(** Drops the white space at the head of [l]; with [back] the list is a
    reversed string and the multi-byte code points are read backwards. *)
Fixpoint dropWs (back : bool) (l : list ascii) : list ascii :=
  match l with
  | [] => []
  | a :: r1 =>
    if ws1 a then dropWs back r1 else
    match r1 with
    | [] => l
    | b :: r2 =>
      if (if back then ws2 b a else ws2 a b) then dropWs back r2 else
      match r2 with
      | [] => l
      | c :: r3 =>
        if (if back then ws3 c b a else ws3 a b c) then dropWs back r3
        else l
      end
    end
  end.

(** [String.prototype.trim]. *)
Definition trim (s : string) : string :=
  str (rev (dropWs true (rev (dropWs false (chars s))))).

(** The separator class of the regular expression [/[-_]+/]. *)
Definition isHyphenUnderscore (c : ascii) : bool :=
  (code c =? 45)%nat || (code c =? 95)%nat.

(** [s.split(/[-_]+/)] on the characters of [s]: every maximal run of
    separators ends one piece and starts the next; [inRun] tells that
    the previous character was a separator. *)
Fixpoint splitRuns (inRun : bool) (l : list ascii) : list (list ascii) :=
  match l with
  | [] => [[]]
  | c :: r =>
    if isHyphenUnderscore c then
      if inRun then splitRuns true r else [] :: splitRuns true r
    else
      match splitRuns false r with
      | [] => [[c]]
      | p :: ps => (c :: p) :: ps
      end
  end.

Definition splitHyphenUnderscore (s : string) : list string :=
  map str (splitRuns false (chars s)).

(** [Array.prototype.join]. *)
Definition join (sep : string) (parts : list string) : string :=
  String.concat sep parts.

(** [String.prototype.startsWith]. *)
Definition startsWith (s p : string) : bool := prefix p s.

(** [s.split(/[-_]+/).join(" ").trim()], the idiom the server uses to
    turn a file or folder name into a caption. *)
Definition humanize (s : string) : string :=
  trim (join " " (splitHyphenUnderscore s)).

(** [Array.prototype.includes] on strings. *)
Definition includes (l : list string) (s : string) : bool :=
  existsb (String.eqb s) l.

(** Decimal digits of a natural number, as [String(n)] prints them. *)
Definition decimal (n : N) : string := NilZero.string_of_uint (N.to_uint n).

End Js.

(** ** The [path] module of Node.js (POSIX flavour) *)

Module Path.

Definition isSlash (c : ascii) : bool := (Js.code c =? 47)%nat.
Definition isDot (c : ascii) : bool := (Js.code c =? 46)%nat.

Fixpoint takeWhile {A} (p : A -> bool) (l : list A) : list A :=
  match l with
  | [] => []
  | x :: r => if p x then x :: takeWhile p r else []
  end.

Fixpoint dropWhile {A} (p : A -> bool) (l : list A) : list A :=
  match l with
  | [] => []
  | x :: r => if p x then dropWhile p r else l
  end.

(** The last component of a path, trailing separators ignored, with its
    characters reversed: [extname] and [parse] scan from the end. *)
Definition baseRev (p : string) : list ascii :=
  takeWhile (fun c => negb (isSlash c))
            (dropWhile isSlash (rev (Js.chars p))).

(** Splits a reversed base name into (name, extension), both reversed.
    There is no extension when the base name has no dot, when its only
    dot is its first character, or when it is "..". *)
Definition splitExtRev (rb : list ascii) : list ascii * list ascii :=
  let suf := takeWhile (fun c => negb (isDot c)) rb in
  match dropWhile (fun c => negb (isDot c)) rb with
  | [] => (rb, [])
  | dot :: pre =>
    match pre, suf with
    | [], _ => (rb, [])
    | [d], [] => if isDot d then (rb, []) else (pre, suf ++ [dot])
    | _, _ => (pre, suf ++ [dot])
    end
  end.

(** [path.extname]. *)
Definition extname (p : string) : string :=
  Js.str (rev (snd (splitExtRev (baseRev p)))).

(** [path.parse(p).name]. *)
Definition parseName (p : string) : string :=
  Js.str (rev (fst (splitExtRev (baseRev p)))).

(** [s.split("/")] ([path.sep] is "/"). *)
Fixpoint splitSlashChars (l : list ascii) : list (list ascii) :=
  match l with
  | [] => [[]]
  | c :: r =>
    if isSlash c then [] :: splitSlashChars r
    else match splitSlashChars r with
         | [] => [[c]]
         | p :: ps => (c :: p) :: ps
         end
  end.

Definition splitSep (s : string) : list string :=
  map Js.str (splitSlashChars (Js.chars s)).

(** [normalizeString]: resolves "." and ".." segments; [acc] is the
    stack of segments kept so far, innermost first. *)
Fixpoint normalizeString (allowAboveRoot : bool) (segs acc : list string)
  : list string :=
  match segs with
  | [] => rev acc
  | s :: rest =>
    if (s =? "") || (s =? ".") then normalizeString allowAboveRoot rest acc
    else if s =? ".." then
      match acc with
      | top :: acc' =>
        if top =? ".." then
          normalizeString allowAboveRoot rest
                          (if allowAboveRoot then ".." :: acc else acc)
        else normalizeString allowAboveRoot rest acc'
      | [] =>
        normalizeString allowAboveRoot rest
                        (if allowAboveRoot then [".."] else [])
      end
    else normalizeString allowAboveRoot rest (s :: acc)
  end.

Definition endsWithSlash (p : string) : bool :=
  match rev (Js.chars p) with
  | c :: _ => isSlash c
  | [] => false
  end.

(** [path.normalize]. *)
Definition normalize (p : string) : string :=
  if p =? "" then "." else
  let isAbsolute := Js.startsWith p "/" in
  let trailingSeparator := endsWithSlash p in
  let q := Js.join "/" (normalizeString (negb isAbsolute) (splitSep p) []) in
  if q =? "" then
    if isAbsolute then "/" else if trailingSeparator then "./" else "."
  else
    let q' := if trailingSeparator then (q ++ "/")%string else q in
    if isAbsolute then ("/" ++ q')%string else q'.

(** [path.join(...args)]. *)
Definition join (args : list string) : string :=
  match filter (fun a => negb (a =? "")) args with
  | [] => "."
  | l => normalize (Js.join "/" l)
  end.

End Path.

(** ** EXIF tags and dates *)

Module Exif.

(** The tags of a file's EXIF data, restricted to the properties the
    server reads. A missing property is [None]; description tags and the
    camera model are strings, [DateTimeOriginal] is a number of seconds
    since the epoch. *)
Record Tags : Type := mkTags {
  ImageDescription : option string;
  Title : option string;
  ObjectName : option string;
  DateTimeOriginal : option Z;
  Model : option string
}.

(** [exifData[tag]] for the tags of [captionTags]. *)
Definition get (t : Tags) (tag : string) : option string :=
  if tag =? "ImageDescription" then ImageDescription t
  else if tag =? "Title" then Title t
  else if tag =? "ObjectName" then ObjectName t
  else if tag =? "Model" then Model t
  else None.

(** Truthiness of a numeric property: missing and zero are falsy. *)
Definition whenTruthyNumber (v : option Z) : option Z :=
  match v with
  | Some n => if (n =? 0)%Z then None else Some n
  | None => None
  end.

(** The parser object of the exif-parser package. [create] wraps the
    buffer and reads nothing; the tags are in the result of [parse]. The
    object itself has no property [tags]: reading it gives [undefined]
    ([None]). [embedded] are the tags the buffer holds, if any. *)
Record Parser : Type := mkParser {
  embedded : option Tags;
  tags : option Tags
}.

(** [exif.create(buffer)] *)
Definition create (buffer : option Tags) : Parser := mkParser buffer None.

(** [parser.parse().tags]; the server never calls it. *)
Definition parse (parser : Parser) : option Tags := embedded parser.

End Exif.

Module JsDate.
Local Open Scope Z_scope.

Definition monthNames : list string :=
  ["January"; "February"; "March"; "April"; "May"; "June"; "July";
   "August"; "September"; "October"; "November"; "December"]%string.

(** Year, month (1..12) and day of the proleptic Gregorian calendar for a
    number of days since 1970-01-01. *)
Definition civilFromDays (days : Z) : Z * Z * Z :=
  let z := days + 719468 in
  let era := z / 146097 in
  let doe := z mod 146097 in
  let yoe := (doe - doe / 1460 + doe / 36524 - doe / 146096) / 365 in
  let doy := doe - (365 * yoe + yoe / 4 - yoe / 100) in
  let mp := (5 * doy + 2) / 153 in
  let d := doy - (153 * mp + 2) / 5 + 1 in
  let m := if mp <? 10 then mp + 3 else mp - 9 in
  let y := yoe + era * 400 + (if m <=? 2 then 1 else 0) in
  (y, m, d).

(** [new Date(seconds * 1000).toLocaleDateString("en-US",
    { year: "numeric", month: "long", day: "numeric" })].
    [localOffset] gives the host time zone: the seconds to add to a UTC
    instant to read the local clock. A time value beyond 8.64e15 ms is
    an invalid date; a year before 1 prints as its year of the era. *)
Definition toLocaleDateString (localOffset : Z -> Z) (seconds : Z) : string :=
  if 8640000000000000 <? Z.abs (seconds * 1000) then "Invalid Date"%string
  else
    let '(y, m, d) := civilFromDays ((seconds + localOffset seconds) / 86400) in
    let y' := if y <=? 0 then 1 - y else y in
    (nth (Z.to_nat (m - 1)) monthNames ""%string ++ " "
       ++ Js.decimal (Z.to_N d) ++ ", " ++ Js.decimal (Z.to_N y'))%string.

End JsDate.

(** ** The file system *)

(** An entry of a directory, as [readdir] with file types reports it: a
    regular file with the EXIF tags its content holds ([None] for a file
    without any), a directory with its entries in enumeration order, or
    anything else (socket, FIFO, device). The file systems described have
    no symbolic links: [stat] and [readdir] follow a link, which a tree
    of entries does not express. [readable] tells whether the
    process has the permissions of the directory: to list it and to look
    names up in it (the two are taken together; a directory of mode 000
    or of another user has neither). The file system is one of Linux:
    names are compared byte by byte and are at most 255 bytes long. *)
#[warnings="-register-all"]
Inductive node : Type :=
| File (name : string) (exif : option Exif.Tags)
| Dir (name : string) (readable : bool) (entries : list node)
| Other (name : string).

Definition nodeName (n : node) : string :=
  match n with
  | File name _ => name
  | Dir name _ _ => name
  | Other name => name
  end.

Definition isDirectory (n : node) : bool :=
  match n with Dir _ _ _ => true | _ => false end.

Definition isFile (n : node) : bool :=
  match n with File _ _ => true | _ => false end.

(** [fs.promises.readdir(dir, { withFileTypes: true })]; [None] when it
    rejects. *)
Definition readdir (at_path : option node) : option (list node) :=
  match at_path with
  | Some (Dir _ true entries) => Some entries
  | _ => None
  end.

(** The entry called [name] in a listing. *)
Fixpoint findEntry (name : string) (entries : list node) : option node :=
  match entries with
  | [] => None
  | e :: r => if nodeName e =? name then Some e else findEntry name r
  end.

(** What the file system has at [path.join(dir, name)], [dir] being what
    it has at the directory's path. *)
Definition entryAt (dir : option node) (name : string) : option node :=
  match dir with
  | Some (Dir _ _ entries) => findEntry name entries
  | _ => None
  end.

(** What [fs.promises.stat] finds at a path, or the error it rejects
    with. *)
Inductive Lookup : Type :=
| Found (n : node)
| ENOENT
| ENOTDIR
| EINVAL
| EACCES
| ENAMETOOLONG.

(** The resolution of a path, name by name, from a directory. *)
Fixpoint walk (n : node) (segs : list string) : Lookup :=
  match segs with
  | [] => Found n
  | s :: rest =>
    match n with
    | Dir _ _ entries =>
      match findEntry s entries with
      | Some c => walk c rest
      | None => ENOENT
      end
    | _ => ENOTDIR
    end
  end.

(** The resolution as the kernel does it for [stat]: a name is looked up
    only in a directory the process may search, and a name of more than
    255 bytes is refused there. *)
Fixpoint pathWalk (n : node) (segs : list string) : Lookup :=
  match segs with
  | [] => Found n
  | s :: rest =>
    match n with
    | Dir _ readable entries =>
      if negb readable then EACCES
      else if (255 <? String.length s)%nat then ENAMETOOLONG
      else
        match findEntry s entries with
        | Some c => pathWalk c rest
        | None => ENOENT
        end
    | _ => ENOTDIR
    end
  end.

Definition hasNul (p : string) : bool :=
  existsb (fun c => (Js.code c =? 0)%nat) (Js.chars p).

(** The names a path goes through. *)
Definition segments (p : string) : list string :=
  filter (fun s => negb (s =? "")) (Path.splitSep p).

(** [fs.promises.stat(p)] from the root directory [fs], for an absolute
    path the [path] module has normalized. Node refuses a path with a NUL
    in it, the kernel one of 4096 bytes or more. The tree has no symbolic
    links, so that none is followed and no resolution loops. *)
Definition lookup (fs : node) (p : string) : Lookup :=
  if hasNul p then EINVAL
  else if (4096 <=? String.length p)%nat then ENAMETOOLONG
  else
    match pathWalk fs (segments p) with
    | Found n =>
      if Path.endsWithSlash p && negb (isDirectory n) then ENOTDIR else Found n
    | e => e
    end.

Definition found (l : Lookup) : option node :=
  match l with Found n => Some n | _ => None end.

(** [getExifData]: the property [tags] of the parser that [exif.create]
    makes for the content of the file at the path, which is [undefined]
    ([parse] is not called); [null] when there is no file to read there.
    Both are [None]. *)
Definition getExifData (at_path : option node) : option Exif.Tags :=
  match at_path with
  | Some (File _ exif) => Exif.tags (Exif.create exif)
  | _ => None
  end.


(** ** What Express does before a handler runs

    Express matches the path of a route against the path of the request
    as it was sent, and hands the handler every parameter decoded with
    [decodeURIComponent] ([req.params]). *)

Module Express.

Definition hexDigit (c : ascii) : option nat :=
  let n := Js.code c in
  if (48 <=? n)%nat && (n <=? 57)%nat then Some (n - 48)
  else if (65 <=? n)%nat && (n <=? 70)%nat then Some (n - 55)
  else if (97 <=? n)%nat && (n <=? 102)%nat then Some (n - 87)
  else None.

(** A character of the request path after unescaping: its byte, and
    whether it was written as a percent escape. *)
Fixpoint unescape (l : list ascii) : option (list (bool * nat)) :=
  match l with
  | [] => Some []
  | c :: r =>
    if (Js.code c =? 37)%nat then
      match r with
      | h :: l' :: r' =>
        match hexDigit h, hexDigit l', unescape r' with
        | Some x, Some y, Some t => Some ((true, 16 * x + y) :: t)
        | _, _, _ => None
        end
      | _ => None
      end
    else
      match unescape r with
      | Some t => Some ((false, Js.code c) :: t)
      | None => None
      end
  end.

Definition cont (lo hi : nat) (t : bool * nat) : bool :=
  fst t && (lo <=? snd t)%nat && (snd t <=? hi)%nat.

Definition bytes (l : list nat) : list ascii := map ascii_of_nat l.

(** The escaped octets have to be the UTF-8 encoding of code points; a
    character that was not escaped stands for itself (one of Latin-1,
    as the HTTP parser delivers the request line). *)
Fixpoint utf8 (l : list (bool * nat)) : option (list ascii) :=
  match l with
  | [] => Some []
  | (false, b) :: r =>
    match utf8 r with
    | Some t =>
      Some ((if (b <? 128)%nat then bytes [b]
             else bytes [192 + b / 64; 128 + b mod 64]) ++ t)
    | None => None
    end
  | (true, b) :: r =>
    if (b <? 128)%nat then
      match utf8 r with Some t => Some (bytes [b] ++ t) | None => None end
    else
      match r with
      | c1 :: r1 =>
        if (194 <=? b)%nat && (b <=? 223)%nat then
          if cont 128 191 c1 then
            match utf8 r1 with
            | Some t => Some (bytes [b; snd c1] ++ t)
            | None => None
            end
          else None
        else
          match r1 with
          | c2 :: r2 =>
            if (224 <=? b)%nat && (b <=? 239)%nat then
              if cont (if (b =? 224)%nat then 160 else 128)
                      (if (b =? 237)%nat then 159 else 191) c1
                 && cont 128 191 c2 then
                match utf8 r2 with
                | Some t => Some (bytes [b; snd c1; snd c2] ++ t)
                | None => None
                end
              else None
            else
              match r2 with
              | c3 :: r3 =>
                if (240 <=? b)%nat && (b <=? 244)%nat
                   && cont (if (b =? 240)%nat then 144 else 128)
                           (if (b =? 244)%nat then 143 else 191) c1
                   && cont 128 191 c2 && cont 128 191 c3 then
                  match utf8 r3 with
                  | Some t => Some (bytes [b; snd c1; snd c2; snd c3] ++ t)
                  | None => None
                  end
                else None
              | [] => None
              end
          | [] => None
          end
      | [] => None
      end
  end.

(** [decodeURIComponent]; [None] when it throws [URIError]. *)
Definition decodeURIComponent (s : string) : option string :=
  match unescape (Js.chars s) with
  | Some l => match utf8 l with
              | Some b => Some (Js.str b)
              | None => None
              end
  | None => None
  end.

(** The match of the route path "/:potentialFolderName" against the path
    of the request: one segment, not empty, and an optional slash behind
    it. The result is the segment as the request has it. *)
Definition matchSegment (pathname : string) : option string :=
  match Js.chars pathname with
  | c :: r =>
    if Path.isSlash c then
      let seg := match rev r with
                 | d :: r' => if Path.isSlash d then rev r' else r
                 | [] => r
                 end in
      match seg with
      | [] => None
      | _ => if existsb Path.isSlash seg then None else Some (Js.str seg)
      end
    else None
  | [] => None
  end.

End Express.

(** ** The server *)

Record MediaEntry : Type := mkEntry {
  file : string;
  caption : string;
  ext : string
}.

Record Cover : Type := mkCover {
  coverUrl : string;
  coverCaption : string;
  coverExt : string
}.

Inductive GalleryItem : Type :=
| FolderItem (name caption thumbnailUrl link : string)
| FileItem (data : MediaEntry) (thumbnailUrl : string).

(** The element of a file's tile. *)
Inductive MediaElement : Type :=
| Video (src : string)
| Img (src alt : string).

(** A tile of the page: the anchor of a folder, or the container of a file
    with its [data-index]. *)
Inductive Tile : Type :=
| FolderTile (href src caption : string)
| FileTile (dataIndex : Z) (element : MediaElement) (caption : string).

(** What a route does with a request: it sends a page (title, tiles, the
    media list of the modal, the view type and the current folder), a
    status with a message, or it calls [next()]. *)
Inductive Response : Type :=
| Page (title : string) (tiles : list Tile) (mediaFilesForModal : list MediaEntry)
       (viewType currentFolder : string)
| Status (status : Z) (message : string)
| Next.

(** The outcome of an asynchronous computation: its promise is fulfilled,
    rejected, or not settled yet. *)
Inductive Outcome (A : Type) : Type :=
| Fulfilled (a : A)
| Rejected
| Pending.
Arguments Fulfilled {A} a.
Arguments Rejected {A}.
Arguments Pending {A}.

Definition mediaExtensions : list string :=
  [".jpg"; ".jpeg"; ".png"; ".gif"; ".mp4"; ".mov"; ".webm"; ".webp"]%string.
Definition jpegExtensions : list string := [".jpg"; ".jpeg"]%string.
Definition videoExtensions : list string := [".mp4"; ".mov"; ".webm"]%string.
Definition captionTags : list string :=
  ["ImageDescription"; "Title"; "ObjectName"]%string.
Definition projectTitle : string := "VCC Gallery".

(** The test on a file name that the scanner, the top-level route and the
    walk all make. *)
Definition isMediaName (name : string) : bool :=
  Js.includes mediaExtensions (Js.toLowerCase (Path.extname name)).

Definition isJpegName (name : string) : bool :=
  Js.includes jpegExtensions (Js.toLowerCase (Path.extname name)).

(** [getMediaFilesFromDirectory]: the names of the listing that pass the
    extension test; a listing that cannot be read is logged and gives the
    empty list. The listing is taken without file types, so every name
    counts, whatever it names. *)
Definition getMediaFilesFromDirectory (at_path : option node) : list string :=
  match readdir at_path with
  | Some files => filter isMediaName (map nodeName files)
  | None => []
  end.

(** The loop over [captionTags]: the first truthy tag, trimmed; the loop
    breaks there. *)
Fixpoint firstCaptionTag (exifData : Exif.Tags) (tags : list string) : string :=
  match tags with
  | [] => ""
  | tag :: rest =>
    match Js.whenTruthy (Exif.get exifData tag) with
    | Some v => Js.trim v
    | None => firstCaptionTag exifData rest
    end
  end.

(** [array.findIndex], -1 when nothing matches. *)
Fixpoint findIndexFrom {A} (p : A -> bool) (l : list A) (i : Z) : Z :=
  match l with
  | [] => (-1)%Z
  | x :: r => if p x then i else findIndexFrom p r (i + 1)%Z
  end.

Definition findIndex {A} (p : A -> bool) (l : list A) : Z := findIndexFrom p l 0.

(** [Array.prototype.sort] with a comparator: the sort is stable, and for
    a consistent comparator its result is the one of stable insertion. *)
Fixpoint insertSorted {A} (cmp : A -> A -> Z) (x : A) (l : list A) : list A :=
  match l with
  | [] => [x]
  | y :: r => if (cmp x y <=? 0)%Z then x :: l else y :: insertSorted cmp x r
  end.

Fixpoint sortBy {A} (cmp : A -> A -> Z) (l : list A) : list A :=
  match l with
  | [] => []
  | x :: r => insertSorted cmp x (sortBy cmp r)
  end.

Fixpoint removeNth {A} (i : nat) (l : list A) : list A :=
  match l, i with
  | [], _ => []
  | _ :: r, O => r
  | x :: r, S j => x :: removeNth j r
  end.

(** ** The script of the page

    The script that [renderHtmlPage] writes into every page. Its
    [mediaFiles] is the list the route hands to [renderHtmlPage], and the
    [data-index] of a tile reads back as the integer the route wrote. *)

Module Client.

(** A number of the script: an integer, or NaN. (Every index the script
    computes is an integer; a negative zero compares and indexes as
    zero.) *)
Inductive Num : Type :=
| Int (z : Z)
| NaN.

(** [a + k] *)
Definition add (a : Num) (k : Z) : Num :=
  match a with
  | Int x => Int (x + k)
  | NaN => NaN
  end.

(** [a % n]: the remainder has the sign of the dividend; a remainder by
    zero is NaN. *)
Definition rem (a : Num) (n : Z) : Num :=
  match a with
  | Int x => if (n =? 0)%Z then NaN else Int (Z.rem x n)
  | NaN => NaN
  end.

(** [a < k] and [a >= k]; both are false of NaN. *)
Definition lt (a : Num) (k : Z) : bool :=
  match a with
  | Int x => (x <? k)%Z
  | NaN => false
  end.

Definition ge (a : Num) (k : Z) : bool :=
  match a with
  | Int x => (k <=? x)%Z
  | NaN => false
  end.

(** [String.prototype.includes]. *)
Fixpoint includes (s p : string) : bool :=
  prefix p s
  || match s with
     | EmptyString => false
     | String _ r => includes r p
     end.

Inductive TagName : Type :=
| VIDEO
| IMG.

(** The element [showModal] creates, with the properties it sets;
    [controls], [preload], [autoplay] and [loop] are set on a video
    only. *)
Record Element : Type := mkElement {
  tagName : TagName;
  src : string;
  alt : string;
  controls : bool;
  preload : string;
  autoplay : bool;
  loop : bool;
  classList : list string
}.

(** What the script keeps and reads back: [currentIndex], the [display]
    style of the modal, the elements in the media wrapper, and the text
    given to the caption. *)
Record Modal : Type := mkModal {
  currentIndex : Num;
  display : string;
  wrapper : list Element;
  captionHtml : string
}.

(** The page as it is loaded: [let currentIndex = 0], the modal without a
    [display] of its own, an empty wrapper and caption. *)
Definition initial : Modal := mkModal (Int 0) "" [] "".

(** A handler returns, or it throws and leaves the state as it is then. *)
Inductive Completion : Type :=
| Normal (s : Modal)
| Throws (s : Modal).

Definition state (c : Completion) : Modal :=
  match c with
  | Normal s => s
  | Throws s => s
  end.

(** [mediaFiles[i]], [None] for [undefined]. *)
Definition at_index (mediaFiles : list MediaEntry) (i : Num) : option MediaEntry :=
  match i with
  | Int z => if (z <? 0)%Z then None else nth_error mediaFiles (Z.to_nat z)
  | NaN => None
  end.

Definition elementFor (f : MediaEntry) : Element :=
  if includes (ext f) "mp4" || includes (ext f) "mov" || includes (ext f) "webm"
  then mkElement VIDEO ("/" ++ file f) (caption f) true "metadata" true true
                 ["modal-content"]%string
  else mkElement IMG ("/" ++ file f) (caption f) false "" false false
                 ["modal-content"]%string.

(** [showModal(index)]. Reading [file.ext] of an [undefined] file throws,
    after the wrapper has been cleared. *)
Definition showModal (mediaFiles : list MediaEntry) (index : Num) (s : Modal)
  : Completion :=
  let s := mkModal index (display s) (wrapper s) (captionHtml s) in
  if lt index 0 || ge index (Z.of_nat (length mediaFiles)) then Normal s
  else
    match at_index mediaFiles index with
    | None => Throws (mkModal index (display s) [] (captionHtml s))
    | Some f => Normal (mkModal index "block" [elementFor f] (caption f))
    end.

Definition showNext (mediaFiles : list MediaEntry) (s : Modal) : Completion :=
  let n := Z.of_nat (length mediaFiles) in
  showModal mediaFiles (rem (add (currentIndex s) 1) n) s.

Definition showPrev (mediaFiles : list MediaEntry) (s : Modal) : Completion :=
  let n := Z.of_nat (length mediaFiles) in
  showModal mediaFiles (rem (add (add (currentIndex s) (-1)) n) n) s.

(** The listener of the close button. (Pausing the video changes nothing
    the script reads.) *)
Definition close (s : Modal) : Modal :=
  mkModal (currentIndex s) "none" (wrapper s) (captionHtml s).

(** The [keydown] listener of the document. *)
Definition keydown (key : string) (s : Modal) : Modal :=
  if (key =? "Escape") && (display s =? "block") then close s else s.

(** What a visitor does: a click on the file tile with the given
    [data-index], on the close, next or previous button, or a key. *)
Inductive Event : Type :=
| ClickTile (dataIndex : Z)
| ClickClose
| ClickNext
| ClickPrev
| KeyDown (key : string).

Definition handle (mediaFiles : list MediaEntry) (e : Event) (s : Modal) : Modal :=
  match e with
  | ClickTile dataIndex => state (showModal mediaFiles (Int dataIndex) s)
  | ClickClose => close s
  | ClickNext => state (showNext mediaFiles s)
  | ClickPrev => state (showPrev mediaFiles s)
  | KeyDown key => keydown key s
  end.

Definition run (mediaFiles : list MediaEntry) (events : list Event) (s : Modal)
  : Modal :=
  fold_left (fun s e => handle mediaFiles e s) events s.

(** *** The theme *)

(** Whether the body has the class [dark-mode], the item [theme] of the
    local storage, and the value of the select. *)
Record Theme : Type := mkTheme {
  darkMode : bool;
  storedTheme : option string;
  selectValue : string
}.

Definition themeOptions : list string := ["system"; "light"; "dark"]%string.

(** [themeSelect.value = v]: a value that is no option of the select
    leaves it without a selected option, and its value empty. *)
Definition setSelect (v : string) (t : Theme) : Theme :=
  mkTheme (darkMode t) (storedTheme t)
          (if Js.includes themeOptions v then v else "").

(** [applyTheme(theme)]; [prefersDark] is what the media query
    [(prefers-color-scheme: dark)] answers. *)
Definition applyTheme (prefersDark : bool) (theme : string) (t : Theme) : Theme :=
  if theme =? "dark" then mkTheme true (Some "dark") (selectValue t)
  else if theme =? "light" then mkTheme false (Some "light") (selectValue t)
  else mkTheme prefersDark None (selectValue t).

Definition setInitialTheme (prefersDark : bool) (t : Theme) : Theme :=
  match Js.whenTruthy (storedTheme t) with
  | Some savedTheme => applyTheme prefersDark savedTheme (setSelect savedTheme t)
  | None => applyTheme prefersDark "system" (setSelect "system" t)
  end.

(** The [change] listener of the select, the visitor having picked the
    option [picked]. *)
Definition change (prefersDark : bool) (picked : string) (t : Theme) : Theme :=
  applyTheme prefersDark picked (setSelect picked t).

(** The page once its script has run: the body comes without a class,
    the select on its first option, the storage as earlier visits left
    it. *)
Definition loaded (prefersDark : bool) (storage : option string) : Theme :=
  setInitialTheme prefersDark (mkTheme false storage "system").

End Client.

(** ** A gallery to try the server on *)

(** The host: the server lives in /srv/gallery, keeps its media in
    photos, runs in UTC, compares strings byte by byte, and is handed its
    listings in the order it asked for them. *)
Definition utc : Z -> Z := fun _ => 0%Z.

Definition byteCompare (a b : string) : Z :=
  match String.compare a b with
  | Lt => (-1)%Z
  | Eq => 0%Z
  | Gt => 1%Z
  end.

Definition inOrder : nat -> nat := fun _ => O.

Definition diskWith (photos : list node) : node :=
  Dir "" true [Dir "srv" true [Dir "gallery" true [Dir "photos" true photos]]].

(** The tags of a JPEG with a description and a date of 2024-03-15. *)
Definition described : Exif.Tags :=
  Exif.mkTags (Some " Harbour at dawn ") None None (Some 1710460800%Z) None.

(** The tags of a JPEG with nothing but that date. *)
Definition dated : Exif.Tags :=
  Exif.mkTags None None None (Some 1710460800%Z) None.

(** The tags of a JPEG with nothing but the camera model. *)
Definition cameraOnly : Exif.Tags :=
  Exif.mkTags None None None None (Some "Canon EOS 5D").

(** A folder with a subdirectory and a socket whose names end like those
    of pictures, a text file and a picture with an upper-case extension. *)
Definition atticListing : list node :=
  [File "b.jpg" None; Dir "raw.jpg" true [File "r.jpg" None];
   Other "sock.png"; File "notes-from-trip.txt" None; File "A.JPG" None].

Definition attic : node := Dir "attic" true atticListing.

(** A folder whose first entry by the cover rule is a directory. *)
Definition album : node :=
  Dir "album" true
      [File "b.jpg" None; Dir "cover.jpg" true []; File "a.png" None].

(** A folder whose cover is a JPEG with a description. *)
Definition trip : node :=
  Dir "trip" true [File "b.png" None; File "cover.jpg" (Some described)].

(** Names of hyphens, underscores and white space only. *)
Definition blankNames : list node :=
  [File "_.png" None; Dir "__" true []; File "-_ .mp4" None; File "a.png" None].

(** A root with a file after a subfolder, and one with a folder two levels
    down. *)
Definition nestedFirst : list node :=
  [Dir "sub" true [File "x.png" None]; File "z.png" None].

Definition twoLevels : list node :=
  [Dir "a" true [Dir "b" true [File "x.png" None]; File "top.gif" None]].

Definition lockedFolder : list node :=
  [File "z.png" None; Dir "private" false [File "x.png" None]].

Definition summer : node :=
  Dir "summer" true
      [File "b.jpg" None; File "notes.txt" None; File "Cover-2.PNG" None;
       File "cover.png" None; File "c.gif" None; Dir "raw" true [File "r.jpg" None]].

Definition mixed : list node :=
  [File "b.jpg" None; Dir "a" true []; File "a.jpg" None].

(** A root with files on both sides of a folder, one of them a dated
    JPEG, and a video in the folder. *)
Definition holiday : list node :=
  [File "b.jpg" (Some dated);
   Dir "trip" true [File "x.png" None; File "clip.mp4" None];
   File "a.png" None].

(** A modal list of three files, and the select of a page that was never
    visited before. *)
Definition threeFiles : list MediaEntry :=
  [mkEntry "a.png" "a" ".png"; mkEntry "clip.mp4" "Video" ".mp4";
   mkEntry "trip/x.png" "x" ".png"].

Definition firstVisit : Client.Theme := Client.mkTheme false None "system".

Section Server.

Set Default Proof Using "Type".

(** [__dirname] and [photosDirectory]. *)
Variable dirname : string.
Variable photosDirectory : string.
(** The time zone of the host, see [JsDate.toLocaleDateString]. *)
Variable localOffset : Z -> Z.
(** [a.localeCompare(b)]: negative, zero or positive. *)
Variable localeCompare : string -> string -> Z.

(** [processMediaFileForModal(fullPath, relativePath)]; [at_path] is what
    the file system has at [fullPath]. *)
Definition processMediaFileForModal (at_path : option node)
           (fullPath relativePath : string) : MediaEntry :=
  let ext := Js.toLowerCase (Path.extname fullPath) in
  let caption :=
    if Js.includes jpegExtensions ext then
      match getExifData at_path with
      | Some exifData =>
        let caption := firstCaptionTag exifData captionTags in
        if Js.isEmpty caption then
          match Exif.whenTruthyNumber (Exif.DateTimeOriginal exifData) with
          | Some seconds => JsDate.toLocaleDateString localOffset seconds
          | None =>
            match Js.whenTruthy (Exif.Model exifData) with
            | Some model => model
            | None => caption
            end
          end
        else caption
      | None => ""
      end
    else "" in
  let caption :=
    if Js.isEmpty caption then
      if Js.includes videoExtensions ext then "Video"
      else Js.humanize (Path.parseName relativePath)
    else caption in
  mkEntry relativePath caption ext.

(** [folderRelativePath.split(path.sep).pop().split(/[-_]+/).join(" ").trim()] *)
Definition folderCaption (folderRelativePath : string) : string :=
  Js.humanize (last (Path.splitSep folderRelativePath) "").

(** [findFolderCover(folderFullPath, folderRelativePath)]; [folder] is
    what the file system has at [folderFullPath], so that the file at
    [coverFilePath] is its entry called [coverFileName]. *)
Definition findFolderCover (folder : option node)
           (folderFullPath folderRelativePath : string) : option Cover :=
  let mediaFiles := getMediaFilesFromDirectory folder in
  let potentialCovers :=
    filter (fun file =>
              Js.startsWith (Js.toLowerCase (Path.parseName file)) "cover")
           mediaFiles in
  let coverFileName :=
    match potentialCovers with
    | c :: _ => Some c
    | [] => match mediaFiles with
            | m :: _ => Some m
            | [] => None
            end
    end in
  match coverFileName with
  | Some coverFileName' =>
    if Js.truthy coverFileName then
      let coverFilePath := Path.join [folderFullPath; coverFileName'] in
      let coverFileRelativePath :=
        Path.join [folderRelativePath; coverFileName'] in
      let caption := folderCaption folderRelativePath in
      let caption :=
        if isJpegName coverFileName' then
          match getExifData (entryAt folder coverFileName') with
          | Some exifData =>
            match Js.whenTruthy (Exif.ImageDescription exifData) with
            | Some d => Js.trim d
            | None => caption
            end
          | None => caption
          end
        else caption in
      Some (mkCover ("/" ++ coverFileRelativePath) caption
                    (Js.toLowerCase (Path.extname coverFileName')))
    else None
  | None => None
  end.

(** The callback of [entries.map] in the top-level route. *)
Definition galleryItemOf (entry : node) : option GalleryItem :=
  let entryRelativePath := nodeName entry in
  let entryFullPath := Path.join [dirname; photosDirectory; nodeName entry] in
  if isDirectory entry then
    let coverData :=
      findFolderCover (Some entry) entryFullPath entryRelativePath in
    Some (FolderItem
            (nodeName entry)
            (match coverData with
             | Some c => coverCaption c
             | None => folderCaption entryRelativePath
             end)
            (match coverData with
             | Some c => coverUrl c
             | None => "/folder_icon.png"
             end)
            ("/" ++ nodeName entry))
  else if isFile entry then
    if isMediaName (nodeName entry) then
      Some (FileItem
              (processMediaFileForModal (Some entry) entryFullPath
                                        entryRelativePath)
              ("/" ++ entryRelativePath))
    else None
  else None.

Fixpoint filterMap {A B} (f : A -> option B) (l : list A) : list B :=
  match l with
  | [] => []
  | x :: r => match f x with
              | Some y => y :: filterMap f r
              | None => filterMap f r
              end
  end.

Definition isFolderItem (i : GalleryItem) : bool :=
  match i with FolderItem _ _ _ _ => true | FileItem _ _ => false end.

(** [a.name || a.caption]: a file item has no [name]. *)
Definition nameOrCaption (i : GalleryItem) : string :=
  match i with
  | FolderItem name caption _ _ => if Js.isEmpty name then caption else name
  | FileItem data _ => caption data
  end.

(** The comparator given to [galleryItems.sort]. *)
Definition compareItems (a b : GalleryItem) : Z :=
  if isFolderItem a && negb (isFolderItem b) then (-1)%Z
  else if negb (isFolderItem a) && isFolderItem b then 1%Z
  else localeCompare (nameOrCaption a) (nameOrCaption b).

Definition galleryItems (entries : list node) : list GalleryItem :=
  sortBy compareItems (filterMap galleryItemOf entries).

(** *** The caption rules in the words of the specification *)

(** The values of the description tags that are there, in the order of
    the specification: ImageDescription, Title, ObjectName. *)
Definition descriptionValues (t : Exif.Tags) : list string :=
  flat_map (fun v => match v with Some s => [s] | None => [] end)
           [Exif.ImageDescription t; Exif.Title t; Exif.ObjectName t].

(** "The first non-empty, trimmed value": the first of the trimmed
    values that is not empty. *)
Definition firstNonEmptyTrimmed (t : Exif.Tags) : option string :=
  find (fun v => negb (Js.isEmpty v)) (map Js.trim (descriptionValues t)).

(** The last two steps of the chain: "Video" for a video, the file name
    made readable for anything else. *)
Definition defaultCaption (fullPath relativePath : string) : string :=
  if Js.includes videoExtensions (Js.toLowerCase (Path.extname fullPath))
  then "Video"
  else Js.humanize (Path.parseName relativePath).

(** The first two steps of the chain as the specification states them,
    for the tags a file holds, and the last two. *)
Definition fallbackAsStated (meta : option Exif.Tags)
           (fullPath relativePath : string) : string :=
  match meta with
  | Some {| Exif.DateTimeOriginal := Some seconds |} =>
    JsDate.toLocaleDateString localOffset seconds
  | Some {| Exif.Model := Some model |} => model
  | _ => defaultCaption fullPath relativePath
  end.

(** A name made of hyphens, underscores and white space only, the white
    space of [Js.trim]. *)
Fixpoint isBlank (l : list ascii) : bool :=
  match l with
  | [] => true
  | a :: r1 =>
    if Js.ws1 a || Js.isHyphenUnderscore a then isBlank r1 else
    match r1 with
    | [] => false
    | b :: r2 =>
      if Js.ws2 a b then isBlank r2 else
      match r2 with
      | [] => false
      | c :: r3 => if Js.ws3 a b c then isBlank r3 else false
      end
    end
  end.

Definition blankName (s : string) : bool := isBlank (Js.chars s).

(** *** The walk of [collectAllMediaFiles]

    Every call reads its directory and then starts, at once and in
    enumeration order, one asynchronous callback per entry, which it
    awaits together ([Promise.all]). The callback of a file pushes its
    entry when [processMediaFileForModal] has resolved: in the next
    microtask for a file that is not a JPEG, one microtask later for a
    JPEG, whose processing awaits [getExifData] first. The callback of a
    directory calls [collectAllMediaFiles] on it, whose [readdir] is
    answered by the event loop only after the microtasks have run. So
    the pushes happen listing by listing, in the order in which the
    listings arrive, which the program does not determine: [sched] picks
    the pending listing that arrives next. *)

(** A call [collectAllMediaFiles(currentDir, relativePathSegments)] whose
    [readdir] has not been answered yet; [taskNode] is what the file
    system has at [currentDir]. *)
Record WalkTask : Type := mkTask {
  taskNode : option node;
  currentDir : string;
  relativePathSegments : list string
}.

Definition awaitsExif (fullPath : string) : bool :=
  Js.includes jpegExtensions (Js.toLowerCase (Path.extname fullPath)).

Definition entryFullPath (t : WalkTask) (entry : node) : string :=
  Path.join [currentDir t; nodeName entry].

Definition entryRelativePath (t : WalkTask) (entry : node) : string :=
  Path.join (relativePathSegments t ++ [nodeName entry]).

Definition pushedEntry (t : WalkTask) (entry : node) : MediaEntry :=
  processMediaFileForModal (Some entry) (entryFullPath t entry)
                           (entryRelativePath t entry).

Definition isMediaFile (entry : node) : bool :=
  isFile entry && isMediaName (nodeName entry).

(** The entries pushed once the listing of the task has arrived. *)
Definition pushesOf (t : WalkTask) (dirEntries : list node) : list MediaEntry :=
  let files := filter isMediaFile dirEntries in
  map (pushedEntry t)
      (filter (fun e => negb (awaitsExif (entryFullPath t e))) files)
  ++ map (pushedEntry t)
         (filter (fun e => awaitsExif (entryFullPath t e)) files).

(** The recursive call for a subdirectory:
    [collectAllMediaFiles(fullPath, [...relativePathSegments, entry.name])]. *)
Definition subTaskOf (t : WalkTask) (e : node) : WalkTask :=
  mkTask (Some e) (entryFullPath t e) (relativePathSegments t ++ [nodeName e]).

(** The recursive calls started once the listing has arrived. *)
Definition subTasks (t : WalkTask) (dirEntries : list node) : list WalkTask :=
  map (subTaskOf t) (filter isDirectory dirEntries).

(** The order in which the listings arrive: at the step-th arrival, of the
    pending calls the one at index [sched step], modulo their number. *)
Variable sched : nat -> nat.

(** The walk from a list of pending calls, each waiting for its listing,
    and the entries pushed so far. A listing that cannot be read rejects
    the call and with it, through [Promise.all], the first call and the
    route. [fuel] bounds the number of listings; the walk of a tree never
    runs out of it ([Pending]), see [runWalk_settles]. *)
Fixpoint runWalk (fuel step : nat) (pending : list WalkTask)
         (allMediaFilesForModal : list MediaEntry)
  : Outcome (list MediaEntry) :=
  match pending with
  | [] => Fulfilled allMediaFilesForModal
  | _ :: _ =>
    match fuel with
    | O => Pending
    | S fuel' =>
      let i := (sched step mod length pending)%nat in
      match nth_error pending i with
      | None => Pending
      | Some t =>
        match readdir (taskNode t) with
        | None => Rejected
        | Some dirEntries =>
          runWalk fuel' (S step)
                  (removeNth i pending ++ subTasks t dirEntries)
                  (allMediaFilesForModal ++ pushesOf t dirEntries)
        end
      end
    end
  end.

(** The number of directories below (and with) a node: the number of
    listings the walk can ask for. *)
Fixpoint countDirs (n : node) : nat :=
  match n with
  | Dir _ _ entries => S (fold_right (fun e k => (countDirs e + k)%nat) O entries)
  | _ => O
  end.

(** [collectAllMediaFiles(currentDir)] from the route, with the list it
    has filled when its promise settles. *)
Definition collectAllMediaFiles (at_path : option node) (dir : string)
  : Outcome (list MediaEntry) :=
  runWalk (S (match at_path with Some n => countDirs n | None => O end)) O
          [mkTask at_path dir []] [].

Definition mediaElementOf (data : MediaEntry) (src : string) : MediaElement :=
  if Js.includes videoExtensions (ext data) then Video src
  else Img src (caption data).

(** The tile of an item of the top-level page. *)
Definition tileOf (allMediaFilesForModal : list MediaEntry) (item : GalleryItem)
  : Tile :=
  match item with
  | FolderItem _ caption thumbnailUrl link => FolderTile link thumbnailUrl caption
  | FileItem data thumbnailUrl =>
    let modalIndex :=
      findIndex (fun f => file f =? file data) allMediaFilesForModal in
    FileTile modalIndex (mediaElementOf data thumbnailUrl) (caption data)
  end.

Definition mainError : string := "An error occurred while building the gallery.".
Definition folderError : string :=
  "An error occurred while building the folder gallery.".

(** The handler of [app.get("/")]; [fs] is the root directory of the
    file system. *)
Definition mainRoute (fs : node) : Response :=
  let root := Path.join [dirname; photosDirectory] in
  match readdir (found (lookup fs root)) with
  | None => Status 500 mainError
  | Some entries =>
    let items := galleryItems entries in
    match collectAllMediaFiles (found (lookup fs root)) root with
    | Fulfilled allMediaFilesForModal =>
      Page projectTitle (map (tileOf allMediaFilesForModal) items)
           allMediaFilesForModal "main" ""
    | _ => Status 500 mainError
    end
  end.

Fixpoint mapIndexed {A B} (f : A -> Z -> B) (l : list A) (i : Z) : list B :=
  match l with
  | [] => []
  | x :: r => f x i :: mapIndexed f r (i + 1)%Z
  end.

(** The media list of a folder page. *)
Definition folderMediaFilesForModal (folder : node)
           (folderFullPath folderRelativePath : string) : list MediaEntry :=
  map (fun file =>
         processMediaFileForModal
           (entryAt (Some folder) file)
           (Path.join [folderFullPath; file])
           (Path.join [folderRelativePath; file]))
      (getMediaFilesFromDirectory (Some folder)).

Definition folderTile (data : MediaEntry) (index : Z) : Tile :=
  FileTile index (mediaElementOf data ("/" ++ file data)) (caption data).

(** The handler of [app.get("/:potentialFolderName")] for the decoded
    parameter. *)
Definition folderRoute (fs : node) (folderName : string) : Response :=
  let folderFullPath := Path.join [dirname; photosDirectory; folderName] in
  match lookup fs folderFullPath with
  | Found n =>
    if isDirectory n then
      let modal := folderMediaFilesForModal n folderFullPath folderName in
      Page (projectTitle ++ " - " ++ folderName)
           (mapIndexed folderTile modal 0) modal "folder" folderName
    else Next
  | ENOENT => Next
  | _ => Status 500 folderError
  end.

(** The router with the two routes, for the path of a GET request that
    has reached it. The middleware [express.static] is mounted before the
    router and is not part of [route]: it answers a request for a file
    under the media root itself, redirects one for a directory named
    without a slash at the end to the same path with the slash, and
    fails by itself on a path it may not read; only what it hands on
    with [next()] reaches the router (a request for "/" or for a
    directory with the slash, when the directory has no index.html, and
    any path that names nothing under the media root). A parameter that
    does not decode is answered with status 400 by Express. *)
Definition route (fs : node) (pathname : string) : Response :=
  if pathname =? "/" then mainRoute fs
  else
    match Express.matchSegment pathname with
    | None => Next
    | Some raw =>
      match Express.decodeURIComponent raw with
      | Some folderName => folderRoute fs folderName
      | None => Status 400 ("Failed to decode param '" ++ raw ++ "'")
      end
    end.


(** *** The walk in the words of the specification *)

(** Every directory below (and with) the node can be listed. *)
Fixpoint readableBelow (n : node) : bool :=
  match n with
  | Dir _ readable entries => readable && forallb readableBelow entries
  | _ => true
  end.

Definition readableTask (t : WalkTask) : bool :=
  match taskNode t with
  | Some (Dir _ readable entries) => readable && forallb readableBelow entries
  | _ => false
  end.

(** "One flattened, depth-first, directory-enumeration-order list of every
    media file": the entries of a directory in the order of its listing,
    a subdirectory standing for its own list. *)
Fixpoint depthFirst (n : node) (dir : string) (segs : list string) {struct n}
  : list MediaEntry :=
  match n with
  | Dir _ true entries =>
    flat_map
      (fun e =>
         if isDirectory e then
           depthFirst e (Path.join [dir; nodeName e]) (segs ++ [nodeName e])
         else if isMediaFile e then
           [processMediaFileForModal (Some e) (Path.join [dir; nodeName e])
                                     (Path.join (segs ++ [nodeName e]))]
         else [])
      entries
  | _ => []
  end.

Definition depthFirstTask (t : WalkTask) : list MediaEntry :=
  match taskNode t with
  | Some n => depthFirst n (currentDir t) (relativePathSegments t)
  | None => []
  end.

Definition sumDirs (entries : list node) : nat :=
  fold_right (fun e k => (countDirs e + k)%nat) O entries.

(** The listings a pending call can still ask for. *)
Definition weight (t : WalkTask) : nat :=
  match taskNode t with
  | Some (Dir _ _ entries) => S (sumDirs entries)
  | _ => 1%nat
  end.

Definition totalWeight (pending : list WalkTask) : nat :=
  fold_right (fun t k => (weight t + k)%nat) O pending.

(** A file name as a directory listing has it: no separator in it. *)
Definition noSlash (name : string) : bool :=
  negb (existsb Path.isSlash (Js.chars name)).

(** *** The cover and the order of the items in the words of the
    specification *)

Definition startsWithCover (file : string) : bool :=
  Js.startsWith (Js.toLowerCase (Path.parseName file)) "cover".

(** The first media file whose name starts with "cover", else the first
    media file. *)
Definition chosenCover (mediaFiles : list string) : option string :=
  match find startsWithCover mediaFiles with
  | Some c => Some c
  | None => hd_error mediaFiles
  end.

(** The description that replaces the caption of a folder: the
    ImageDescription of the file called [file] in the folder, when the
    file is a JPEG, [getExifData] hands its tags over and the tag is not
    empty. *)
Definition coverDescription (folder : option node) (file : string) : option string :=
  if isJpegName file then
    match getExifData (entryAt folder file) with
    | Some {| Exif.ImageDescription := Some d |} =>
      if Js.isEmpty d then None else Some d
    | _ => None
    end
  else None.

(** The name an item is ordered by: the name of a folder, the caption of
    a file. *)
Definition itemName (i : GalleryItem) : string :=
  match i with
  | FolderItem name _ _ _ => name
  | FileItem data _ => caption data
  end.

Definition byName (a b : GalleryItem) : Z :=
  localeCompare (itemName a) (itemName b).

Definition isFileItem (i : GalleryItem) : bool := negb (isFolderItem i).


(** A name as a directory entry has it: not empty, no separator, neither
    "." nor "..". *)
Definition plainName (s : string) : Prop :=
  noSlash s = true /\ s <> "" /\ s <> "." /\ s <> "..".

(** The media root and the first call of the walk. *)
Definition rootPath : string := Path.join [dirname; photosDirectory].

Definition rootTask (n : node) : WalkTask := mkTask (Some n) rootPath [].


(** The order the specification asks for within a kind of item. *)
Definition nameLe (a b : GalleryItem) : Prop := (byName a b <= 0)%Z.

(** A folder item with a name, or a file item. *)
Definition named (i : GalleryItem) : Prop :=
  match i with
  | FolderItem name _ _ _ => name <> ""
  | FileItem _ _ => True
  end.


(** The caption of an entry is empty exactly when its file is no video
    and the file name in its relative path, without the extension, is
    blank. *)
Definition captionRule (m : MediaEntry) : Prop :=
  caption m = ""
  <-> Js.includes videoExtensions (ext m) = false
      /\ blankName (Path.parseName (file m)) = true.

(** The same for an item of the top-level page; the caption of a folder
    is empty exactly when its name is blank. *)
Definition itemRule (i : GalleryItem) : Prop :=
  match i with
  | FolderItem name caption _ _ => caption = "" <-> blankName name = true
  | FileItem data _ => captionRule data
  end.

(** *** The tree of a file system, and the files of the modal list in
    terms of it *)

Definition isPlainName (s : string) : bool :=
  noSlash s && negb (s =? "") && negb (s =? ".") && negb (s =? "..").

Fixpoint distinct (l : list string) : bool :=
  match l with
  | [] => true
  | x :: r => negb (Js.includes r x) && distinct r
  end.

(** Every listing below (and with) the node is one a file system gives:
    plain names, no two of them the same. *)
Fixpoint wellFormed (n : node) : bool :=
  match n with
  | Dir _ _ entries =>
    forallb (fun e => isPlainName (nodeName e)) entries
    && distinct (map nodeName entries)
    && forallb wellFormed entries
  | _ => true
  end.

(** The media files below a directory in the order of [depthFirst], each
    with the names that lead to it from the directory. *)
Fixpoint relFiles (n : node) : list (list string * node) :=
  match n with
  | Dir _ true entries =>
    flat_map
      (fun e =>
         if isDirectory e then
           map (fun pf => (nodeName e :: fst pf, snd pf)) (relFiles e)
         else if isMediaFile e then [([nodeName e], e)]
         else [])
      entries
  | _ => []
  end.

(** The entry of a media file reached by the names [segs] and then
    [fst pf]: its path is the names joined by the separator, its caption
    and extension are those of the file under its own name. *)
Definition entryOf (segs : list string) (pf : list string * node) : MediaEntry :=
  mkEntry (String.concat "/" (segs ++ fst pf))
          (caption (processMediaFileForModal (Some (snd pf)) (nodeName (snd pf))
                                             (nodeName (snd pf))))
          (Js.toLowerCase (Path.extname (nodeName (snd pf)))).

(** *** A tile and the modal *)




(** The modal is open on the file at index [i] of the list: that is its
    current index, and its element and caption are made from that file. *)
Definition opensOn (mediaFiles : list MediaEntry) (i : nat) (s : Client.Modal)
  : Prop :=
  exists f,
    nth_error mediaFiles i = Some f
    /\ s = Client.mkModal (Client.Int (Z.of_nat i)) "block"
                          [Client.elementFor f] (caption f).

(** A click on a tile whose [data-index] is an index of the list, or any
    other event. *)
Definition onTheList (mediaFiles : list MediaEntry) (e : Client.Event) : bool :=
  match e with
  | Client.ClickTile dataIndex =>
    (0 <=? dataIndex)%Z && (dataIndex <? Z.of_nat (length mediaFiles))%Z
  | _ => true
  end.

(** What the script keeps true of the modal: with a list that is not
    empty the current index is an index of the list, and a modal that is
    displayed is open on the file at the current index. *)
Definition consistent (mediaFiles : list MediaEntry) (s : Client.Modal) : Prop :=
  (mediaFiles <> [] ->
   exists i, Client.currentIndex s = Client.Int (Z.of_nat i)
             /\ (i < length mediaFiles)%nat)
  /\ (Client.display s = "block" ->
      exists i, Client.currentIndex s = Client.Int (Z.of_nat i)
                /\ opensOn mediaFiles i s).





(* ================================================================ *)
(** * Part II: properties *)
(* ================================================================ *)

(** ** The caption resolver *)

Lemma isEmpty_true (s : string) : Js.isEmpty s = true <-> s = "".
Proof. unfold Js.isEmpty. apply String.eqb_eq. Qed.

Lemma isEmpty_false (s : string) : Js.isEmpty s = false <-> s <> "".
Proof. unfold Js.isEmpty. apply String.eqb_neq. Qed.

Lemma whenTruthy_some (v : string) :
  Js.whenTruthy (Some v) = if Js.isEmpty v then None else Some v.
Proof. reflexivity. Qed.

Lemma append_nonempty (a b : string) : b <> "" -> (a ++ b)%string <> "".
Proof. destruct a; cbn; [auto | discriminate]. Qed.

(** [getExifData] hands no tags over, whatever the file holds. *)
Lemma getExifData_none (at_path : option node) : getExifData at_path = None.
Proof. destruct at_path as [[nm ex|nm rd es|nm]|]; reflexivity. Qed.

(** So the resolver makes every caption from the extension and the file
    name alone. *)
Lemma entry_from_the_name (at_path : option node) (fullPath relativePath : string) :
  processMediaFileForModal at_path fullPath relativePath
  = mkEntry relativePath (defaultCaption fullPath relativePath)
            (Js.toLowerCase (Path.extname fullPath)).
Proof.
  unfold processMediaFileForModal, defaultCaption. rewrite getExifData_none.
  destruct (Js.includes jpegExtensions _); reflexivity.
Qed.

(** ** Strings *)

Ltac boolnat :=
  repeat match goal with
         | H : _ && _ = true |- _ => apply andb_true_iff in H; destruct H
         | H : _ || _ = true |- _ => apply orb_true_iff in H; destruct H
         | H : _ || _ = false |- _ => apply orb_false_iff in H; destruct H
         | H : negb _ = true |- _ => apply negb_true_iff in H
         | H : negb _ = false |- _ => apply negb_false_iff in H
         | H : (_ =? _)%nat = true |- _ => apply Nat.eqb_eq in H
         | H : (_ =? _)%nat = false |- _ => apply Nat.eqb_neq in H
         | H : (_ <=? _)%nat = true |- _ => apply Nat.leb_le in H
         | H : (_ <=? _)%nat = false |- _ => apply Nat.leb_gt in H
         end.

Lemma chars_str (l : list ascii) : Js.chars (Js.str l) = l.
Proof. apply list_ascii_of_string_of_list_ascii. Qed.

Lemma str_chars (s : string) : Js.str (Js.chars s) = s.
Proof. apply string_of_list_ascii_of_string. Qed.

Lemma chars_append (a b : string) :
  Js.chars (a ++ b)%string = Js.chars a ++ Js.chars b.
Proof.
  unfold Js.chars. induction a as [|c a IH]; cbn; [reflexivity | now rewrite IH].
Qed.

Lemma ws1_bounds (a : ascii) : Js.ws1 a = true -> (Js.code a <= 32)%nat.
Proof. unfold Js.ws1. intros H. boolnat; lia. Qed.

Lemma ws2_bounds (a b : ascii) :
  Js.ws2 a b = true -> (128 <= Js.code a)%nat /\ (128 <= Js.code b)%nat.
Proof. unfold Js.ws2. intros H. boolnat; lia. Qed.

Lemma ws3_bounds (a b c : ascii) :
  Js.ws3 a b c = true ->
  (128 <= Js.code a)%nat /\ (128 <= Js.code b)%nat /\ (128 <= Js.code c)%nat.
Proof. unfold Js.ws3. cbv zeta. intros H. boolnat; lia. Qed.

(** ** Lists *)

Lemma filterMap_In {A B} (f : A -> option B) (l : list A) (y : B) :
  In y (filterMap f l) <-> exists x, In x l /\ f x = Some y.
Proof.
  induction l as [|a l IH]; cbn.
  - split; [contradiction | intros (x & [] & _)].
  - destruct (f a) as [b|] eqn:E; cbn; rewrite IH; split.
    + intros [<-|(x & Hx & Hf)]; [exists a | exists x]; auto.
    + intros (x & [<-|Hx] & Hf); [left; congruence | right; exists x; auto].
    + intros (x & Hx & Hf). exists x; auto.
    + intros (x & [<-|Hx] & Hf); [congruence | exists x; auto].
Qed.

Lemma insertSorted_perm {A} (cmp : A -> A -> Z) (x : A) (l : list A) :
  Permutation (insertSorted cmp x l) (x :: l).
Proof.
  induction l as [|y l IH]; cbn; [reflexivity|].
  destruct (cmp x y <=? 0)%Z; [reflexivity|].
  rewrite IH. apply perm_swap.
Qed.

Lemma sortBy_perm {A} (cmp : A -> A -> Z) (l : list A) :
  Permutation (sortBy cmp l) l.
Proof.
  induction l as [|x l IH]; cbn; [reflexivity|].
  rewrite insertSorted_perm. now apply perm_skip.
Qed.

Lemma nth_error_split_remove {A} (l : list A) (i : nat) (t : A) :
  nth_error l i = Some t ->
  exists l1 l2, l = l1 ++ t :: l2 /\ removeNth i l = l1 ++ l2.
Proof.
  revert i. induction l as [|x l IH]; intros [|i] H; try discriminate.
  - injection H as ->. exists [], l. auto.
  - destruct (IH i H) as (l1 & l2 & -> & E).
    exists (x :: l1), l2. cbn. rewrite E. auto.
Qed.

Lemma findIndexFrom_spec {A} (p : A -> bool) (l : list A) (i : Z) (x : A) :
  In x l -> p x = true ->
  exists (k : nat) (y : A),
    findIndexFrom p l i = (i + Z.of_nat k)%Z
    /\ nth_error l k = Some y /\ p y = true
    /\ forall (j : nat) (z : A), (j < k)%nat -> nth_error l j = Some z -> p z = false.
Proof.
  revert i. induction l as [|a l IH]; intros i Hin Hp; [contradiction|].
  cbn [findIndexFrom]. destruct (p a) eqn:Ea.
  - exists O, a. repeat split; [lia | assumption | intros; lia].
  - destruct Hin as [->|Hin]; [congruence|].
    destruct (IH (i + 1)%Z Hin Hp) as (k & y & E & Hn & Hy & Hfirst).
    exists (S k), y. repeat split; [lia | assumption | assumption |].
    intros [|j] z Hj Hz.
    + injection Hz as <-. exact Ea.
    + apply (Hfirst j); [lia | exact Hz].
Qed.

(** ** The walk *)

Lemma subTasks_cons (t : WalkTask) (e : node) (r : list node) :
  subTasks t (e :: r) =
  if isDirectory e then subTaskOf t e :: subTasks t r else subTasks t r.
Proof. unfold subTasks. cbn. destruct (isDirectory e); reflexivity. Qed.

Lemma isMediaFile_not_directory (e : node) :
  isDirectory e = true -> isMediaFile e = false.
Proof. destruct e; cbn; congruence. Qed.

(** What a listing contributes: its own files first, those that are not
    JPEGs before the JPEGs, then whatever its subdirectories contribute;
    as a multiset this is the depth-first list. *)
Lemma pushes_and_subtasks (t : WalkTask) (entries : list node) :
  Permutation
    (flat_map
       (fun e =>
          if isDirectory e then depthFirstTask (subTaskOf t e)
          else if isMediaFile e then [pushedEntry t e] else [])
       entries)
    (pushesOf t entries ++ flat_map depthFirstTask (subTasks t entries)).
Proof.
  unfold pushesOf.
  induction entries as [|e r IH]; [reflexivity|].
  rewrite subTasks_cons. cbn [flat_map filter].
  destruct (isDirectory e) eqn:Ed.
  - rewrite (isMediaFile_not_directory e Ed). cbn [flat_map].
    rewrite IH. apply Permutation_app_swap_app.
  - destruct (isMediaFile e) eqn:Em; [|exact IH].
    cbn [filter]. destruct (awaitsExif (entryFullPath t e)); cbn [negb map app].
    + rewrite <- app_assoc. cbn [app].
      apply Permutation_cons_app. rewrite app_assoc. exact IH.
    + apply perm_skip. exact IH.
Qed.

Lemma depthFirstTask_readdir (t : WalkTask) (entries : list node) :
  readdir (taskNode t) = Some entries ->
  depthFirstTask t =
  flat_map
    (fun e =>
       if isDirectory e then depthFirstTask (subTaskOf t e)
       else if isMediaFile e then [pushedEntry t e] else [])
    entries.
Proof.
  unfold depthFirstTask, readdir.
  destruct (taskNode t) as [[| nm [|] es |]|] eqn:E; try discriminate.
  intros [= ->]. reflexivity.
Qed.

Lemma readableTask_readdir_none (t : WalkTask) :
  readdir (taskNode t) = None -> readableTask t = false.
Proof.
  unfold readableTask, readdir.
  destruct (taskNode t) as [[| nm [|] es |]|]; try reflexivity. discriminate.
Qed.

Lemma readableTask_subTasks (t : WalkTask) (entries : list node) :
  forallb readableTask (subTasks t entries) = forallb readableBelow entries.
Proof.
  induction entries as [|e r IH]; [reflexivity|].
  rewrite subTasks_cons. cbn [forallb].
  destruct e as [nm ex|nm rd es|nm]; cbn [isDirectory forallb]; rewrite IH; reflexivity.
Qed.

Lemma readableTask_readdir_some (t : WalkTask) (entries : list node) :
  readdir (taskNode t) = Some entries ->
  readableTask t = forallb readableTask (subTasks t entries).
Proof.
  rewrite readableTask_subTasks. unfold readableTask, readdir.
  destruct (taskNode t) as [[| nm [|] es |]|]; try discriminate.
  intros [= ->]. reflexivity.
Qed.

Lemma totalWeight_cons (t : WalkTask) (l : list WalkTask) :
  totalWeight (t :: l) = (weight t + totalWeight l)%nat.
Proof. reflexivity. Qed.

Lemma sumDirs_cons (e : node) (r : list node) :
  sumDirs (e :: r) = (countDirs e + sumDirs r)%nat.
Proof. reflexivity. Qed.

Lemma weight_subTasks (t : WalkTask) (entries : list node) :
  totalWeight (subTasks t entries) = sumDirs entries.
Proof.
  induction entries as [|e r IH]; [reflexivity|].
  rewrite subTasks_cons, sumDirs_cons.
  destruct e as [nm ex|nm rd es|nm]; cbn [isDirectory];
    rewrite ?totalWeight_cons, IH; reflexivity.
Qed.

Lemma weight_readdir_some (t : WalkTask) (entries : list node) :
  readdir (taskNode t) = Some entries ->
  weight t = S (totalWeight (subTasks t entries)).
Proof.
  rewrite weight_subTasks. unfold weight, readdir.
  destruct (taskNode t) as [[| nm [|] es |]|]; try discriminate.
  intros [= ->]. reflexivity.
Qed.

Lemma weight_positive (t : WalkTask) : (1 <= weight t)%nat.
Proof. unfold weight. destruct (taskNode t) as [[| | ]|]; lia. Qed.

Lemma totalWeight_app (a b : list WalkTask) :
  totalWeight (a ++ b) = (totalWeight a + totalWeight b)%nat.
Proof.
  induction a as [|x a IH]; [reflexivity|].
  cbn [app]. rewrite !totalWeight_cons, IH. lia.
Qed.

(** The walk settles whatever the order in which the listings arrive:
    with every directory readable it is fulfilled with the entries of the
    depth-first list, in some order; with a directory that cannot be
    listed it is rejected. *)
Lemma runWalk_settles (fuel : nat) :
  forall (step : nat) (pending : list WalkTask) (acc : list MediaEntry),
    (totalWeight pending <= fuel)%nat ->
    if forallb readableTask pending
    then exists l, runWalk fuel step pending acc = Fulfilled l
                   /\ Permutation l (acc ++ flat_map depthFirstTask pending)
    else runWalk fuel step pending acc = Rejected.
Proof.
  induction fuel as [|fuel IH]; intros step pending acc Hw.
  - destruct pending as [|t0 rest].
    + cbn. exists acc. rewrite app_nil_r. auto.
    + pose proof (weight_positive t0). rewrite totalWeight_cons in Hw. lia.
  - destruct pending as [|t0 rest].
    + cbn. exists acc. rewrite app_nil_r. auto.
    + cbn [runWalk]. set (pending := t0 :: rest) in *.
      assert (Hlen : length pending <> O) by discriminate.
      pose proof (Nat.mod_upper_bound (sched step) (length pending) Hlen) as Hi.
      destruct (nth_error pending (sched step mod length pending)) as [t|] eqn:En;
        [|apply nth_error_None in En; lia].
      destruct (nth_error_split_remove _ _ _ En) as (l1 & l2 & El & Er).
      rewrite Er. rewrite El in Hw |- *. clear En Er El Hi Hlen pending.
      rewrite totalWeight_app, totalWeight_cons in Hw.
      rewrite forallb_app. cbn [forallb].
      destruct (readdir (taskNode t)) as [entries|] eqn:Erd.
      * specialize (IH (S step) ((l1 ++ l2) ++ subTasks t entries)
                       (acc ++ pushesOf t entries)).
        rewrite (weight_readdir_some t entries Erd) in Hw.
        rewrite !totalWeight_app in IH.
        specialize (IH ltac:(lia)).
        rewrite !forallb_app in IH.
        rewrite (readableTask_readdir_some t entries Erd).
        replace (forallb readableTask l1
                 && (forallb readableTask (subTasks t entries)
                     && forallb readableTask l2))
          with (forallb readableTask l1 && forallb readableTask l2
                && forallb readableTask (subTasks t entries))
          by (destruct (forallb readableTask l1), (forallb readableTask l2),
              (forallb readableTask (subTasks t entries)); reflexivity).
        destruct (forallb readableTask l1 && forallb readableTask l2
                  && forallb readableTask (subTasks t entries)); [|exact IH].
        destruct IH as (l & Hl & Hperm). exists l. split; [exact Hl|].
        rewrite Hperm. rewrite !flat_map_app. cbn [flat_map].
        rewrite (depthFirstTask_readdir t entries Erd).
        rewrite (pushes_and_subtasks t entries).
        rewrite <- !app_assoc. apply Permutation_app_head.
        set (P := pushesOf t entries).
        set (S1 := flat_map depthFirstTask (subTasks t entries)).
        set (A := flat_map depthFirstTask l1).
        set (B := flat_map depthFirstTask l2).
        transitivity (P ++ S1 ++ A ++ B).
        { apply Permutation_app_head.
          rewrite (app_assoc A B S1). apply Permutation_app_comm. }
        rewrite (app_assoc P S1 (A ++ B)), (app_assoc P S1 B).
        apply Permutation_app_swap_app.
      * rewrite (readableTask_readdir_none t Erd).
        destruct (forallb readableTask l1); reflexivity.
Qed.

(** ** Paths *)


Lemma splitSlashChars_nonempty (l : list ascii) : Path.splitSlashChars l <> [].
Proof.
  destruct l as [|c r]; cbn; [discriminate|].
  destruct (Path.isSlash c); [discriminate|].
  destruct (Path.splitSlashChars r); discriminate.
Qed.

Lemma splitSlashChars_app (a b : list ascii) (c : ascii) :
  Path.isSlash c = true ->
  Path.splitSlashChars (a ++ c :: b)
  = Path.splitSlashChars a ++ Path.splitSlashChars b.
Proof.
  intros Hc. induction a as [|x a IH]; cbn [app Path.splitSlashChars].
  - rewrite Hc. reflexivity.
  - destruct (Path.isSlash x); rewrite IH; [reflexivity|].
    pose proof (splitSlashChars_nonempty a).
    destruct (Path.splitSlashChars a); [congruence | reflexivity].
Qed.

Lemma splitSlashChars_noSlash (l : list ascii) :
  existsb Path.isSlash l = false -> Path.splitSlashChars l = [l].
Proof.
  induction l as [|x l IH]; cbn; [reflexivity|].
  intros H. apply orb_false_iff in H as [Hx Hl].
  rewrite Hx, (IH Hl). reflexivity.
Qed.

Lemma splitSlashChars_elems (l x : list ascii) :
  In x (Path.splitSlashChars l) -> existsb Path.isSlash x = false.
Proof.
  revert x. induction l as [|c r IH]; cbn; intros x Hx.
  - destruct Hx as [<-|[]]. reflexivity.
  - destruct (Path.isSlash c) eqn:Ec.
    + destruct Hx as [<-|Hx]; [reflexivity | auto].
    + destruct (Path.splitSlashChars r) as [|p ps].
      * destruct Hx as [<-|[]]. cbn. rewrite Ec. reflexivity.
      * destruct Hx as [<-|Hx].
        -- cbn. rewrite Ec. apply IH. left; reflexivity.
        -- apply IH. right; exact Hx.
Qed.

Lemma noSlash_chars (s : string) :
  noSlash s = true <-> existsb Path.isSlash (Js.chars s) = false.
Proof. unfold noSlash. apply negb_true_iff. Qed.

Lemma splitSep_noSlash (s : string) : noSlash s = true -> Path.splitSep s = [s].
Proof.
  intros H. apply noSlash_chars in H. unfold Path.splitSep.
  rewrite (splitSlashChars_noSlash _ H). cbn. rewrite str_chars. reflexivity.
Qed.

Lemma splitSep_app (a b : string) :
  Path.splitSep (a ++ "/" ++ b)%string = Path.splitSep a ++ Path.splitSep b.
Proof.
  unfold Path.splitSep. rewrite !chars_append. cbn [Js.chars list_ascii_of_string app].
  rewrite splitSlashChars_app by reflexivity. apply map_app.
Qed.

Lemma splitSep_elems (p x : string) : In x (Path.splitSep p) -> noSlash x = true.
Proof.
  unfold Path.splitSep. intros H. apply in_map_iff in H as (l & <- & Hl).
  apply noSlash_chars. rewrite chars_str. eapply splitSlashChars_elems, Hl.
Qed.

Lemma normalizeString_plain (b : bool) (s : string) :
  plainName s ->
  forall (segs acc : list string),
    Path.normalizeString b (segs ++ [s]) acc
    = Path.normalizeString b segs acc ++ [s].
Proof.
  intros (_ & H0 & H1 & H2).
  apply String.eqb_neq in H0, H1, H2.
  induction segs as [|x segs IH]; intros acc.
  - cbn. rewrite H0, H1, H2. reflexivity.
  - cbn [app Path.normalizeString].
    destruct ((x =? "") || (x =? "."))%string; [apply IH|].
    destruct (x =? "..")%string; [|apply IH].
    destruct acc as [|top acc']; [apply IH|].
    destruct (top =? "..")%string; apply IH.
Qed.

(** Without [allowAboveRoot] the segments kept are segments of the input,
    none of them empty. *)
Lemma normalizeString_elems (segs : list string) :
  forall (acc : list string) (x : string),
    In x (Path.normalizeString false segs acc) ->
    In x acc \/ (In x segs /\ x <> "").
Proof.
  induction segs as [|s segs IH]; intros acc x Hx.
  - cbn in Hx. left. apply in_rev. exact Hx.
  - cbn [Path.normalizeString] in Hx.
    destruct ((s =? "") || (s =? "."))%string eqn:E1.
    { destruct (IH _ _ Hx) as [H|[H H']]; [left | right; split; [right|]]; auto. }
    destruct (s =? "..")%string.
    { destruct acc as [|top acc'].
      - destruct (IH _ _ Hx) as [[]|[H H']]. right; split; [right|]; auto.
      - destruct (top =? "..")%string;
          destruct (IH _ _ Hx) as [H|[H H']];
          try (right; split; [right|]; auto; fail);
          left; auto. right; exact H. }
    destruct (IH _ _ Hx) as [[<-|H]|[H H']].
    + right. split; [left; reflexivity|].
      apply orb_false_iff in E1 as [E1 _]. apply String.eqb_neq in E1. exact E1.
    + left; exact H.
    + right; split; [right|]; auto.
Qed.

Lemma append_assoc (a b c : string) :
  ((a ++ b) ++ c)%string = (a ++ b ++ c)%string.
Proof. induction a as [|x a IH]; cbn; [reflexivity | now rewrite IH]. Qed.

Lemma concat_cons (sep x : string) (y : string) (l : list string) :
  String.concat sep (x :: y :: l) = (x ++ sep ++ String.concat sep (y :: l))%string.
Proof. reflexivity. Qed.

Lemma concat_snoc (sep s : string) (l : list string) :
  l <> [] ->
  String.concat sep (l ++ [s]) = (String.concat sep l ++ sep ++ s)%string.
Proof.
  induction l as [|x l IH]; [congruence|]. intros _.
  destruct l as [|y l]; [reflexivity|].
  cbn [app]. rewrite !concat_cons. cbn [app] in IH. rewrite IH by discriminate.
  rewrite !append_assoc. reflexivity.
Qed.

(** The segments of a joined list of clean segments are the list. *)
Lemma segments_concat (l : list string) :
  Forall (fun x => noSlash x = true /\ x <> "") l ->
  segments (String.concat "/" l) = l.
Proof.
  induction l as [|x l IH]; intros H.
  - reflexivity.
  - inversion H as [|? ? [Hx Hne] Hl]; subst.
    apply String.eqb_neq in Hne.
    destruct l as [|y l].
    + unfold segments. cbn [String.concat].
      rewrite (splitSep_noSlash x Hx). cbn. now rewrite Hne.
    + unfold segments in *.
      rewrite concat_cons, splitSep_app, (splitSep_noSlash x Hx).
      cbn [app filter]. rewrite Hne. cbn [negb]. f_equal. apply IH, Hl.
Qed.

Lemma existsb_false_In {A} (p : A -> bool) (l : list A) (x : A) :
  existsb p l = false -> In x l -> p x = false.
Proof.
  intros H Hin. destruct (p x) eqn:E; [|reflexivity].
  rewrite <- H. symmetry. apply existsb_exists. exists x; auto.
Qed.

Lemma startsWith_slash_noSlash (s : string) :
  noSlash s = true -> Js.startsWith s "/" = false.
Proof.
  intros H. apply noSlash_chars in H. destruct s as [|c r]; [reflexivity|].
  cbn in H. apply orb_false_iff in H as [Hc _].
  unfold Js.startsWith. cbn [prefix].
  destruct (ascii_dec "/" c) as [<-|]; [discriminate|reflexivity].
Qed.

Lemma endsWithSlash_app (a b : string) :
  b <> "" -> noSlash b = true -> Path.endsWithSlash (a ++ b)%string = false.
Proof.
  intros Hne H. apply noSlash_chars in H. unfold Path.endsWithSlash.
  rewrite chars_append, rev_app_distr.
  destruct (rev (Js.chars b)) as [|d r] eqn:E.
  - apply (f_equal (@rev ascii)) in E. rewrite rev_involutive in E. cbn in E.
    destruct b; [congruence | discriminate].
  - cbn. apply (existsb_false_In _ _ d H). apply in_rev. rewrite E. left; reflexivity.
Qed.

Lemma endsWithSlash_noSlash (s : string) :
  noSlash s = true -> Path.endsWithSlash s = false.
Proof.
  intros H. destruct s as [|c r] eqn:E; [reflexivity|]. rewrite <- E in *.
  apply (endsWithSlash_app "" s); [subst; discriminate | exact H].
Qed.

Lemma concat_nonempty (sep : string) (l : list string) :
  l <> [] -> Forall (fun x => x <> "") l -> String.concat sep l <> "".
Proof.
  destruct l as [|x l]; [congruence|]. intros _ H.
  inversion H as [|? ? Hx _]; subst.
  destruct x as [|c x]; [exfalso; apply Hx; reflexivity|].
  destruct l; cbn; discriminate.
Qed.

(** [path.join] of one plain name is the name. *)
Lemma join_single (name : string) : plainName name -> Path.join [name] = name.
Proof.
  intros Hp. pose proof Hp as (Hs & H0 & H1 & H2).
  pose proof H0 as E0. apply String.eqb_neq in E0.
  unfold Path.join. cbn [filter]. rewrite E0. cbn [negb].
  unfold Js.join at 1. cbn [String.concat]. unfold Path.normalize.
  rewrite E0, (startsWith_slash_noSlash _ Hs), (endsWithSlash_noSlash _ Hs),
    (splitSep_noSlash _ Hs).
  cbn [negb]. pose proof (normalizeString_plain true name Hp [] []) as Hn.
  cbn [app] in Hn. rewrite Hn. cbn [Path.normalizeString rev app].
  unfold Js.join. cbn [String.concat]. rewrite E0. reflexivity.
Qed.

Lemma isMediaName_plain (name : string) :
  noSlash name = true -> isMediaName name = true -> plainName name.
Proof.
  intros Hs Hm. split; [exact Hs|].
  repeat split; intros ->; discriminate.
Qed.

(** ** The top-level route *)


Lemma collectAllMediaFiles_settles (n : node) :
  if readableTask (rootTask n)
  then exists l, collectAllMediaFiles (Some n) rootPath = Fulfilled l
                 /\ Permutation l (depthFirst n rootPath [])
  else collectAllMediaFiles (Some n) rootPath = Rejected.
Proof.
  unfold collectAllMediaFiles.
  pose proof (runWalk_settles (S (countDirs n)) O [rootTask n] []) as H.
  assert (Hw : (totalWeight [rootTask n] <= S (countDirs n))%nat).
  { rewrite totalWeight_cons. change (totalWeight []) with O.
    unfold weight, rootTask; cbn [taskNode].
    destruct n as [nm ex|nm rd es|nm]; cbn [countDirs];
      [lia | fold (sumDirs es); lia | lia]. }
  specialize (H Hw). cbn [forallb] in H. rewrite andb_true_r in H.
  destruct (readableTask (rootTask n)); [|exact H].
  destruct H as (l & Hl & Hp). exists l. split; [exact Hl|].
  rewrite Hp. cbn [app flat_map]. rewrite app_nil_r. reflexivity.
Qed.

Lemma galleryItems_In (entries : list node) (item : GalleryItem) :
  In item (galleryItems entries) <->
  exists entry, In entry entries /\ galleryItemOf entry = Some item.
Proof.
  unfold galleryItems. rewrite <- filterMap_In. split; intros H.
  - eapply Permutation_in; [apply sortBy_perm | exact H].
  - eapply Permutation_in; [symmetry; apply sortBy_perm | exact H].
Qed.

Lemma galleryItemOf_file (entry : node) (data : MediaEntry) (url : string) :
  galleryItemOf entry = Some (FileItem data url) ->
  isMediaFile entry = true
  /\ data = processMediaFileForModal
              (Some entry) (Path.join [dirname; photosDirectory; nodeName entry])
              (nodeName entry)
  /\ url = ("/" ++ nodeName entry)%string.
Proof.
  unfold galleryItemOf, isMediaFile.
  destruct entry as [nm ex|nm rd es|nm]; cbn [isDirectory isFile nodeName];
    try discriminate.
  destruct (isMediaName nm); [|discriminate].
  intros [= <- <-]. auto.
Qed.

Lemma depthFirst_root_file (name : string) (entries : list node) (entry : node) :
  In entry entries -> isMediaFile entry = true ->
  In (processMediaFileForModal (Some entry) (Path.join [rootPath; nodeName entry])
                               (Path.join [nodeName entry]))
     (depthFirst (Dir name true entries) rootPath []).
Proof.
  intros Hin Hm. cbn [depthFirst]. apply in_flat_map. exists entry. split; [exact Hin|].
  destruct (isDirectory entry) eqn:Ed.
  - rewrite (isMediaFile_not_directory entry Ed) in Hm. discriminate.
  - rewrite Hm. left. reflexivity.
Qed.

(** C3 (as amended). When the media root and every directory below it
    can be listed, the top-level page is sent with a flattened list that
    has every supported media file of the whole tree, those of nested
    subfolders included, each as often as the depth-first enumeration has
    it: the list is a rearrangement of the depth-first list, in the order
    in which the concurrent walk pushed the entries. Every root-level file
    item carries as navigation index the position in that list of the
    first entry whose relative path is the file's. *)
Theorem flattened_list_and_navigation_index :
  forall (fs : node) (name : string) (entries : list node),
    lookup fs rootPath = Found (Dir name true entries) ->
    forallb readableBelow entries = true ->
    Forall (fun e => noSlash (nodeName e) = true) entries ->
    exists all : list MediaEntry,
      mainRoute fs
      = Page projectTitle (map (tileOf all) (galleryItems entries)) all "main" ""
      /\ Permutation all (depthFirst (Dir name true entries) rootPath [])
      /\ Forall
           (fun item =>
              match item with
              | FolderItem _ _ _ _ => True
              | FileItem data url =>
                exists (i : nat) (e : MediaEntry),
                  tileOf all item
                  = FileTile (Z.of_nat i) (mediaElementOf data url) (caption data)
                  /\ nth_error all i = Some e
                  /\ file e = file data
                  /\ forall (j : nat) (e' : MediaEntry),
                      (j < i)%nat -> nth_error all j = Some e' ->
                      file e' <> file data
              end)
           (galleryItems entries).
Proof.
  intros fs name entries Hroot Hread Hnames.
  pose proof (collectAllMediaFiles_settles (Dir name true entries)) as Hwalk.
  unfold readableTask, rootTask in Hwalk; cbn [taskNode] in Hwalk.
  rewrite Hread in Hwalk. cbn [andb] in Hwalk.
  destruct Hwalk as (all & Hall & Hperm).
  exists all. split; [|split; [exact Hperm|]].
  - unfold mainRoute. fold rootPath. rewrite Hroot. cbn [found readdir].
    rewrite Hall. reflexivity.
  - apply Forall_forall. intros [nm cap thumb link|data url] Hitem; [exact I|].
    apply galleryItems_In in Hitem as (entry & Hin & Hof).
    apply galleryItemOf_file in Hof as (Hm & Hdata & Hurl).
    assert (Hplain : plainName (nodeName entry)).
    { apply isMediaName_plain.
      - rewrite Forall_forall in Hnames. apply Hnames, Hin.
      - unfold isMediaFile in Hm. apply andb_true_iff in Hm. apply Hm. }
    assert (Hfile : file data = nodeName entry) by (subst data; reflexivity).
    pose proof (depthFirst_root_file name entries entry Hin Hm) as Hdf.
    rewrite (join_single _ Hplain) in Hdf.
    apply (Permutation_in _ (Permutation_sym Hperm)) in Hdf.
    destruct (findIndexFrom_spec (fun f => file f =? file data)%string all 0 _ Hdf)
      as (k & y & Hk & Hn & Hy & Hfirst).
    { cbn [file]. rewrite Hfile. apply String.eqb_refl. }
    exists k, y. split; [|split; [exact Hn|split]].
    + cbn [tileOf]. unfold findIndex. rewrite Hk. reflexivity.
    + apply String.eqb_eq. exact Hy.
    + intros j e' Hj He'. apply String.eqb_neq. apply (Hfirst j e' Hj He').
Qed.

(** A folder that cannot be listed has no cover; its item is shown with
    the placeholder icon. *)
Lemma unreadable_folder_has_no_cover (name : string) (entries : list node)
      (full rel : string) :
  findFolderCover (Some (Dir name false entries)) full rel = None.
Proof. reflexivity. Qed.

(** A directory below the media root that cannot be listed rejects the
    walk, and the top-level route answers 500 although the media root
    itself was read. *)
Lemma unreadable_subfolder_fails_the_page :
  forall (fs : node) (name : string) (entries : list node),
    lookup fs rootPath = Found (Dir name true entries) ->
    forallb readableBelow entries = false ->
    mainRoute fs = Status 500 mainError.
Proof.
  intros fs name entries Hroot Hread.
  pose proof (collectAllMediaFiles_settles (Dir name true entries)) as Hwalk.
  unfold readableTask, rootTask in Hwalk; cbn [taskNode] in Hwalk.
  rewrite Hread in Hwalk. cbn [andb] in Hwalk.
  unfold mainRoute. fold rootPath. rewrite Hroot. cbn [found readdir].
  rewrite Hwalk. reflexivity.
Qed.

(** ** The directory scanner *)

Lemma pushesOf_pushed (t : WalkTask) (dirEntries : list node) (m : MediaEntry) :
  In m (pushesOf t dirEntries) ->
  exists e, isMediaFile e = true /\ m = pushedEntry t e.
Proof.
  unfold pushesOf. intros H. apply in_app_or in H.
  destruct H as [H|H]; apply in_map_iff in H as (e & <- & He);
    apply filter_In in He as [He _]; apply filter_In in He as [_ He];
    exists e; auto.
Qed.

(** A property of every entry the resolver makes holds for the list the
    walk fills. *)
Lemma runWalk_Forall (P : MediaEntry -> Prop) :
  (forall at_path full rel name segs,
      isMediaName name = true -> rel = Path.join (segs ++ [name]) ->
      P (processMediaFileForModal at_path full rel)) ->
  forall (fuel step : nat) (pending : list WalkTask) (acc : list MediaEntry),
    Forall P acc ->
    match runWalk fuel step pending acc with
    | Fulfilled l => Forall P l
    | _ => True
    end.
Proof.
  intros HP. induction fuel as [|fuel IH]; intros step pending acc Hacc.
  - destruct pending; cbn; auto.
  - destruct pending as [|t0 rest]; [exact Hacc|].
    cbn [runWalk].
    destruct (nth_error _ _) as [t|]; [|exact I].
    destruct (readdir (taskNode t)) as [dirEntries|]; [|exact I].
    apply IH. apply Forall_app. split; [exact Hacc|].
    apply Forall_forall. intros m Hm.
    apply pushesOf_pushed in Hm as (e & He & ->).
    unfold isMediaFile in He. apply andb_true_iff in He as [_ He].
    apply (HP _ _ _ (nodeName e) (relativePathSegments t) He). reflexivity.
Qed.

Lemma includes_In (l : list string) (s : string) :
  Js.includes l s = true <-> In s l.
Proof.
  unfold Js.includes. rewrite existsb_exists. split.
  - intros (x & Hx & E). apply String.eqb_eq in E. subst. exact Hx.
  - intros H. exists s. split; [exact H | apply String.eqb_refl].
Qed.

(** The scanner keeps the names of the listing that pass the extension
    test, in the order of the listing; it has the names only, and does not
    ask what they name. *)
Lemma scanner_filters_the_names (at_path : option node) :
  getMediaFilesFromDirectory at_path
  = filter isMediaName
           (match readdir at_path with
            | Some files => map nodeName files
            | None => []
            end).
Proof. unfold getMediaFilesFromDirectory. destruct (readdir at_path); reflexivity. Qed.

Lemma isMediaName_extensions (name : string) :
  isMediaName name = true
  <-> In (Js.toLowerCase (Path.extname name))
         [".jpg"; ".jpeg"; ".png"; ".gif"; ".mp4"; ".mov"; ".webm"; ".webp"]%string.
Proof. apply includes_In. Qed.

(** The file items of the top-level page are those of the regular files
    of the listing whose name passes the extension test, no more and no
    fewer. *)
Lemma file_items_of_the_media_files (entries : list node) (data : MediaEntry)
      (url : string) :
  In (FileItem data url) (galleryItems entries)
  <-> exists entry,
      In entry entries /\ isMediaFile entry = true
      /\ data = processMediaFileForModal
                  (Some entry)
                  (Path.join [dirname; photosDirectory; nodeName entry])
                  (nodeName entry)
      /\ url = ("/" ++ nodeName entry)%string.
Proof.
  rewrite galleryItems_In. split.
  - intros (entry & Hin & Hof). exists entry. split; [exact Hin|].
    apply galleryItemOf_file, Hof.
  - intros (entry & Hin & Hm & -> & ->). exists entry. split; [exact Hin|].
    unfold isMediaFile in Hm. apply andb_true_iff in Hm as [Hf Hm].
    unfold galleryItemOf. rewrite Hf, Hm.
    destruct entry; try discriminate. reflexivity.
Qed.

Lemma filter_split_perm {A} (p : A -> bool) (l : list A) :
  Permutation (filter (fun x => negb (p x)) l ++ filter p l) l.
Proof.
  induction l as [|x l IH]; [reflexivity|]. cbn [filter].
  destruct (p x); cbn [negb app].
  - symmetry. apply Permutation_cons_app. symmetry. exact IH.
  - apply perm_skip. exact IH.
Qed.

(** A listing of the walk pushes one entry for each of its regular files
    whose name passes the extension test, no more and no fewer. *)
Lemma pushes_of_the_media_files (t : WalkTask) (dirEntries : list node) :
  Permutation (pushesOf t dirEntries)
              (map (pushedEntry t) (filter isMediaFile dirEntries)).
Proof.
  unfold pushesOf. rewrite <- map_app. apply Permutation_map.
  apply filter_split_perm.
Qed.

(** ** The cover selector *)

Lemma filter_head_find {A} (p : A -> bool) (l : list A) :
  match filter p l with c :: _ => Some c | [] => None end = find p l.
Proof.
  induction l as [|x l IH]; cbn; [reflexivity|].
  destruct (p x); [reflexivity | exact IH].
Qed.

Lemma chosenCover_media (at_path : option node) (c : string) :
  chosenCover (getMediaFilesFromDirectory at_path) = Some c ->
  isMediaName c = true.
Proof.
  unfold chosenCover.
  destruct (find startsWithCover _) as [c'|] eqn:E.
  - intros [= <-]. apply find_some in E as [E _].
    unfold getMediaFilesFromDirectory in E. destruct (readdir at_path); [|contradiction].
    apply filter_In in E. apply E.
  - intros H. unfold getMediaFilesFromDirectory in H.
    destruct (readdir at_path) as [files|]; [|discriminate].
    destruct (filter isMediaName (map nodeName files)) as [|m l] eqn:Ef; [discriminate|].
    injection H as <-.
    assert (Hin : In m (filter isMediaName (map nodeName files)))
      by (rewrite Ef; left; reflexivity).
    apply filter_In in Hin. apply Hin.
Qed.

Lemma findFolderCover_chosen (folder : option node) (full rel : string) :
  findFolderCover folder full rel =
  match chosenCover (getMediaFilesFromDirectory folder) with
  | Some c =>
    Some (mkCover ("/" ++ Path.join [rel; c])
                  (match coverDescription folder c with
                   | Some d => Js.trim d
                   | None => Js.humanize (last (Path.splitSep rel) "")
                   end)
                  (Js.toLowerCase (Path.extname c)))
  | None => None
  end.
Proof.
  pose proof (chosenCover_media folder) as Hmedia.
  unfold findFolderCover, chosenCover in *.
  fold startsWithCover.
  rewrite <- (filter_head_find startsWithCover) in *.
  set (media := getMediaFilesFromDirectory folder) in *.
  assert (Hcase :
            match filter startsWithCover media with
            | c :: _ => Some c
            | [] => match media with m :: _ => Some m | [] => None end
            end
            = match
                match filter startsWithCover media with
                | c :: _ => Some c
                | [] => None
                end
              with
              | Some c => Some c
              | None => hd_error media
              end).
  { destruct (filter startsWithCover media); [destruct media|]; reflexivity. }
  rewrite Hcase. clear Hcase.
  destruct (match
               match filter startsWithCover media with
               | c :: _ => Some c
               | [] => None
               end
             with
             | Some c => Some c
             | None => hd_error media
             end) as [c|]; [|reflexivity].
  specialize (Hmedia c eq_refl).
  assert (Hne : Js.truthy (Some c) = true).
  { destruct c; [discriminate | reflexivity]. }
  rewrite Hne. unfold coverDescription, folderCaption.
  destruct (isJpegName c); [|reflexivity].
  destruct (getExifData _) as [[d ti o dt m]|]; [|reflexivity].
  cbn [Exif.ImageDescription]. destruct d as [d|]; [|reflexivity].
  rewrite whenTruthy_some. destruct (Js.isEmpty d); reflexivity.
Qed.

Lemma coverDescription_none (folder : option node) (file : string) :
  coverDescription folder file = None.
Proof.
  unfold coverDescription. rewrite getExifData_none.
  destruct (isJpegName file); reflexivity.
Qed.

(** The item of a directory of the media root: the cover is the first
    name of its listing that has a supported extension and, without the
    extension, starts with "cover" in any letter case; if there is none,
    the first name with a supported extension; if there is none of these
    either (or the folder cannot be listed) the tile shows the
    placeholder icon. The caption is the folder name made readable. *)
Lemma folder_item_of_a_directory (entry : node) :
  isDirectory entry = true ->
  noSlash (nodeName entry) = true ->
  galleryItemOf entry =
  Some (FolderItem
          (nodeName entry)
          (Js.humanize (nodeName entry))
          (match chosenCover (getMediaFilesFromDirectory (Some entry)) with
           | Some c => "/" ++ Path.join [nodeName entry; c]
           | None => "/folder_icon.png"
           end)
          ("/" ++ nodeName entry)).
Proof.
  intros Hd Hs. unfold galleryItemOf. rewrite Hd.
  rewrite findFolderCover_chosen. unfold folderCaption.
  rewrite (splitSep_noSlash _ Hs). cbn [last].
  destruct (chosenCover _) as [c|]; [|reflexivity].
  rewrite coverDescription_none. reflexivity.
Qed.

(** ** The order of the items *)

Lemma isFileItem_folder (x : GalleryItem) :
  isFileItem x = true <-> isFolderItem x = false.
Proof. unfold isFileItem. apply negb_true_iff. Qed.

Lemma compareItems_same_kind (a b : GalleryItem) :
  named a -> named b -> isFolderItem a = isFolderItem b ->
  compareItems a b = byName a b.
Proof.
  unfold compareItems, byName.
  destruct a as [na ca ta la|da ua], b as [nb cb tb lb|db ub];
    cbn; try discriminate; intros Ha Hb _; [|reflexivity].
  apply isEmpty_false in Ha, Hb. rewrite Ha, Hb. reflexivity.
Qed.

Lemma insert_file_after_folders (x : GalleryItem) (F G : list GalleryItem) :
  isFileItem x = true ->
  Forall (fun i => isFolderItem i = true) F ->
  Forall (fun i => isFileItem i = true) G ->
  insertSorted compareItems x (F ++ G) = F ++ insertSorted byName x G.
Proof.
  intros Hx HF HG. apply isFileItem_folder in Hx.
  induction HF as [|y F Hy HF IH]; cbn [app].
  - induction HG as [|y G Hy HG IH]; [reflexivity|].
    cbn [insertSorted]. apply isFileItem_folder in Hy.
    rewrite compareItems_same_kind;
      [| destruct x; [discriminate | exact I]
       | destruct y; [discriminate | exact I] | congruence].
    rewrite IH. reflexivity.
  - cbn [insertSorted]. unfold compareItems at 1. rewrite Hx, Hy. cbn.
    rewrite IH. reflexivity.
Qed.

Lemma insert_folder_among_folders (x : GalleryItem) (F G : list GalleryItem) :
  isFolderItem x = true -> named x ->
  Forall (fun i => isFolderItem i = true /\ named i) F ->
  Forall (fun i => isFileItem i = true) G ->
  insertSorted compareItems x (F ++ G) = insertSorted byName x F ++ G.
Proof.
  intros Hx Hn HF HG.
  induction HF as [|y F [Hy Hyn] HF IH]; cbn [app].
  - destruct G as [|y G]; [reflexivity|].
    inversion HG as [|? ? Hy _]; subst. apply isFileItem_folder in Hy.
    cbn [insertSorted]. unfold compareItems. rewrite Hx, Hy. reflexivity.
  - cbn [insertSorted].
    rewrite (compareItems_same_kind x y) by (auto; congruence).
    destruct (byName x y <=? 0)%Z; [reflexivity|]. rewrite IH. reflexivity.
Qed.

Lemma sortBy_Forall {A} (P : A -> Prop) (cmp : A -> A -> Z) (l : list A) :
  Forall P l -> Forall P (sortBy cmp l).
Proof.
  intros H. eapply Permutation_Forall; [symmetry; apply sortBy_perm | exact H].
Qed.

Lemma filter_Forall {A} (p : A -> bool) (l : list A) :
  Forall (fun x => p x = true) (filter p l).
Proof. apply Forall_forall. intros x H. apply filter_In in H. apply H. Qed.

(** The sort of the route puts the folders first and orders each kind by
    name, whatever [localeCompare] is. *)
Lemma sortBy_compareItems (l : list GalleryItem) :
  Forall named l ->
  sortBy compareItems l
  = sortBy byName (filter isFolderItem l) ++ sortBy byName (filter isFileItem l).
Proof.
  induction 1 as [|x l Hx Hl IH]; [reflexivity|].
  cbn [sortBy filter]. rewrite IH. unfold isFileItem at 2.
  assert (HF : Forall (fun i => isFolderItem i = true /\ named i)
                      (sortBy byName (filter isFolderItem l))).
  { apply sortBy_Forall. apply Forall_forall. intros i Hi.
    apply filter_In in Hi as [Hi Hf]. split; [exact Hf|].
    rewrite Forall_forall in Hl. auto. }
  assert (HG : Forall (fun i => isFileItem i = true)
                      (sortBy byName (filter isFileItem l)))
    by apply sortBy_Forall, filter_Forall.
  destruct (isFolderItem x) eqn:Ex; cbn [negb sortBy].
  - apply insert_folder_among_folders; assumption.
  - apply insert_file_after_folders; try assumption.
    + apply isFileItem_folder, Ex.
    + eapply Forall_impl; [|exact HF]. intros i Hi. apply Hi.
Qed.

Lemma insertSorted_sorted {A} (cmp : A -> A -> Z) (x : A) (l : list A) :
  (forall a b, (cmp a b <= 0)%Z \/ (cmp b a <= 0)%Z) ->
  Sorted (fun a b => (cmp a b <= 0)%Z) l ->
  Sorted (fun a b => (cmp a b <= 0)%Z) (insertSorted cmp x l).
Proof.
  intros Htotal. induction 1 as [|y l Hs IH Hhd]; cbn [insertSorted].
  - repeat constructor.
  - destruct (cmp x y <=? 0)%Z eqn:E.
    + apply Z.leb_le in E. repeat constructor; assumption.
    + apply Z.leb_gt in E. constructor; [exact IH|].
      destruct l as [|z l]; cbn [insertSorted].
      * constructor. destruct (Htotal x y); lia.
      * inversion Hhd; subst. destruct (cmp x z <=? 0)%Z.
        -- constructor. destruct (Htotal x y); lia.
        -- constructor. assumption.
Qed.

Lemma sortBy_sorted {A} (cmp : A -> A -> Z) (l : list A) :
  (forall a b, (cmp a b <= 0)%Z \/ (cmp b a <= 0)%Z) ->
  Sorted (fun a b => (cmp a b <= 0)%Z) (sortBy cmp l).
Proof.
  intros Htotal. induction l as [|x l IH]; cbn [sortBy]; [constructor|].
  apply insertSorted_sorted; assumption.
Qed.

Lemma galleryItemOf_named (entry : node) (item : GalleryItem) :
  nodeName entry <> "" -> galleryItemOf entry = Some item -> named item.
Proof.
  unfold galleryItemOf. intros Hne.
  destruct (isDirectory entry).
  - intros [= <-]. exact Hne.
  - destruct (isFile entry); [|discriminate].
    destruct (isMediaName _); [|discriminate]. intros [= <-]. exact I.
Qed.

(** C5. The items of the top-level page are displayed with all folder
    items before all file items; the folders are in the order of
    [localeCompare] on their names and the files in the order of
    [localeCompare] on their captions: no item is followed, at any
    distance, by one that compares before it. (Directory entries have
    names; [localeCompare] orders any two strings one way or the other,
    and transitively.) *)
Theorem folders_first_then_by_name :
  forall (entries : list node),
    (forall a b : string, (localeCompare a b <= 0)%Z \/ (localeCompare b a <= 0)%Z) ->
    (forall a b c : string,
        (localeCompare a b <= 0)%Z -> (localeCompare b c <= 0)%Z ->
        (localeCompare a c <= 0)%Z) ->
    Forall (fun e => nodeName e <> "") entries ->
    exists folders files : list GalleryItem,
      galleryItems entries = folders ++ files
      /\ Forall (fun i => isFolderItem i = true) folders
      /\ Forall (fun i => isFileItem i = true) files
      /\ StronglySorted nameLe folders
      /\ StronglySorted nameLe files
      /\ Permutation (folders ++ files) (filterMap galleryItemOf entries).
Proof.
  intros entries Htotal Htrans Hnames.
  set (items := filterMap galleryItemOf entries).
  exists (sortBy byName (filter isFolderItem items)),
         (sortBy byName (filter isFileItem items)).
  assert (Hnamed : Forall named items).
  { apply Forall_forall. intros item Hitem.
    apply filterMap_In in Hitem as (entry & Hin & Hof).
    rewrite Forall_forall in Hnames.
    exact (galleryItemOf_named entry item (Hnames entry Hin) Hof). }
  assert (Hsplit := sortBy_compareItems items Hnamed).
  split; [exact Hsplit|].
  split; [apply sortBy_Forall, filter_Forall|].
  split; [apply sortBy_Forall, filter_Forall|].
  assert (Ht : forall a b : GalleryItem, (byName a b <= 0)%Z \/ (byName b a <= 0)%Z)
    by (intros a b; apply Htotal).
  assert (Hr : Relations_1.Transitive nameLe)
    by (intros a b c; apply Htrans).
  split; [apply (Sorted_StronglySorted Hr), (sortBy_sorted byName _ Ht)|].
  split; [apply (Sorted_StronglySorted Hr), (sortBy_sorted byName _ Ht)|].
  rewrite <- Hsplit. apply sortBy_perm.
Qed.

(** ** The folder route *)

Lemma mapIndexed_nth {A B} (f : A -> Z -> B) (l : list A) (i0 : Z) (k : nat) :
  nth_error (mapIndexed f l i0) k
  = option_map (fun x => f x (i0 + Z.of_nat k)%Z) (nth_error l k).
Proof.
  revert i0 k. induction l as [|x l IH]; intros i0 [|k]; cbn; try reflexivity.
  - rewrite Z.add_0_r. reflexivity.
  - rewrite IH. destruct (nth_error l k); cbn; [|reflexivity].
    do 2 f_equal. lia.
Qed.

Lemma mapIndexed_length {A B} (f : A -> Z -> B) (l : list A) (i0 : Z) :
  length (mapIndexed f l i0) = length l.
Proof. revert i0. induction l as [|x l IH]; intros i0; cbn; [|rewrite IH]; reflexivity. Qed.

(** A request for a folder name that resolves to a directory is answered
    with a page made from the listing of that directory alone: one tile
    for each name of the listing that passes the extension test, in the
    order of the listing; the modal list has these names in the same
    order, and the index of every tile is the position of its name in
    that list. Nothing of the walk of the top-level page enters. *)
Lemma folder_page_of_the_listing :
  forall (fs : node) (folderName name : string) (readable : bool)
         (entries : list node),
    lookup fs (Path.join [dirname; photosDirectory; folderName])
    = Found (Dir name readable entries) ->
    let names := if readable then filter isMediaName (map nodeName entries) else [] in
    let modal :=
        folderMediaFilesForModal (Dir name readable entries)
                                 (Path.join [dirname; photosDirectory; folderName])
                                 folderName in
    exists tiles : list Tile,
      folderRoute fs folderName
      = Page (projectTitle ++ " - " ++ folderName) tiles modal "folder" folderName
      /\ map file modal = map (fun f => Path.join [folderName; f]) names
      /\ length tiles = length modal
      /\ forall (i : nat) (data : MediaEntry),
          nth_error modal i = Some data ->
          nth_error tiles i
          = Some (FileTile (Z.of_nat i)
                           (mediaElementOf data ("/" ++ file data))
                           (caption data)).
Proof.
  intros fs folderName name readable entries Hlook names modal.
  exists (mapIndexed folderTile modal 0).
  split; [|split; [|split]].
  - unfold folderRoute. rewrite Hlook. reflexivity.
  - unfold modal, names, folderMediaFilesForModal, getMediaFilesFromDirectory.
    rewrite map_map. cbn [file readdir]. destruct readable; reflexivity.
  - apply mapIndexed_length.
  - intros i data Hi. rewrite mapIndexed_nth, Hi. reflexivity.
Qed.

(** ** Where a folder name leads *)

Lemma segments_app (a b : string) :
  segments (a ++ "/" ++ b)%string = segments a ++ segments b.
Proof. unfold segments. rewrite splitSep_app. apply filter_app. Qed.

Lemma normalizeString_clean (p : string) :
  Forall (fun x => noSlash x = true /\ x <> "")
         (Path.normalizeString false (Path.splitSep p) []).
Proof.
  apply Forall_forall. intros x Hx.
  apply normalizeString_elems in Hx as [[]|[Hx Hne]].
  split; [eapply splitSep_elems, Hx | exact Hne].
Qed.

Lemma startsWith_slash_nonempty (p : string) :
  Js.startsWith p "/" = true -> p <> "".
Proof. intros H ->. discriminate. Qed.

Lemma startsWith_slash_append (p q : string) :
  Js.startsWith p "/" = true -> Js.startsWith (p ++ q) "/" = true.
Proof.
  unfold Js.startsWith. destruct p as [|c p]; [discriminate|].
  cbn [prefix append]. destruct (ascii_dec "/" c); [|discriminate].
  intros _. destruct p, q; reflexivity.
Qed.

(** [path.normalize] of an absolute path. *)
Lemma normalize_absolute (p : string) :
  Js.startsWith p "/" = true ->
  Path.normalize p =
  match Path.normalizeString false (Path.splitSep p) [] with
  | [] => "/"
  | N => ("/" ++ (if Path.endsWithSlash p
                  then String.concat "/" N ++ "/"
                  else String.concat "/" N))%string
  end.
Proof.
  intros Habs. unfold Path.normalize.
  pose proof (startsWith_slash_nonempty p Habs) as Hne.
  apply String.eqb_neq in Hne. rewrite Hne, Habs. cbn [negb].
  pose proof (normalizeString_clean p) as Hclean.
  destruct (Path.normalizeString false (Path.splitSep p) []) as [|x N] eqn:E.
  - reflexivity.
  - unfold Js.join.
    assert (Hq : String.concat "/" (x :: N) <> "").
    { apply concat_nonempty; [discriminate|].
      eapply Forall_impl; [|exact Hclean]. intros y Hy. apply Hy. }
    apply String.eqb_neq in Hq. rewrite Hq. reflexivity.
Qed.

Lemma segments_normalize_absolute (p : string) :
  Js.startsWith p "/" = true ->
  segments (Path.normalize p) = Path.normalizeString false (Path.splitSep p) [].
Proof.
  intros Habs. rewrite (normalize_absolute p Habs).
  pose proof (normalizeString_clean p) as Hclean.
  destruct (Path.normalizeString false (Path.splitSep p) []) as [|x N] eqn:E;
    [reflexivity|].
  change ("/" ++ ?q)%string with ("" ++ "/" ++ q)%string.
  destruct (Path.endsWithSlash p).
  - rewrite segments_app.
    change (String.concat "/" (x :: N) ++ "/")%string
      with (String.concat "/" (x :: N) ++ "/" ++ "")%string.
    rewrite segments_app, (segments_concat _ Hclean).
    change (segments "") with (@nil string). cbn [app]. f_equal. apply app_nil_r.
  - rewrite segments_app, (segments_concat _ Hclean). reflexivity.
Qed.

Lemma hasNul_append (a b : string) :
  hasNul (a ++ b)%string = hasNul a || hasNul b.
Proof. unfold hasNul. rewrite chars_append. apply existsb_app. Qed.

(** The path of a plain name below the media root: the segments of the
    root, then the name. *)
Lemma length_append (a b : string) :
  String.length (a ++ b)%string = (String.length a + String.length b)%nat.
Proof. induction a as [|c a IH]; cbn; [reflexivity | now rewrite IH]. Qed.

Lemma join_root_child (s : string) :
  Js.startsWith dirname "/" = true -> plainName s ->
  segments (Path.join [dirname; photosDirectory; s]) = segments rootPath ++ [s]
  /\ Path.endsWithSlash (Path.join [dirname; photosDirectory; s]) = false
  /\ (hasNul (Path.join [dirname; photosDirectory; s]) = false ->
      hasNul rootPath = false)
  /\ (String.length rootPath
      <= String.length (Path.join [dirname; photosDirectory; s]))%nat.
Proof.
  intros Habs Hplain. pose proof Hplain as (Hs & Hs0 & _).
  pose proof (startsWith_slash_nonempty _ Habs) as Hd.
  apply String.eqb_neq in Hd. pose proof Hs0 as Es0. apply String.eqb_neq in Es0.
  set (A := filter (fun a => negb (a =? "")%string) [dirname; photosDirectory]).
  assert (HA : exists rest, A = dirname :: rest).
  { unfold A. cbn [filter]. rewrite Hd. cbn [negb].
    destruct (negb (photosDirectory =? "")%string); eauto. }
  destruct HA as (rest & HA).
  assert (Hfull : Path.join [dirname; photosDirectory; s]
                  = Path.normalize (String.concat "/" A ++ "/" ++ s)%string).
  { unfold Path.join.
    change [dirname; photosDirectory; s] with ([dirname; photosDirectory] ++ [s]).
    rewrite filter_app. fold A. cbn [filter]. rewrite Es0. cbn [negb].
    rewrite HA. cbn [app]. rewrite <- HA.
    unfold Js.join. rewrite <- concat_snoc by (rewrite HA; discriminate).
    rewrite HA. reflexivity. }
  assert (Hroot : rootPath = Path.normalize (String.concat "/" A)).
  { unfold rootPath, Path.join. fold A. rewrite HA. reflexivity. }
  set (J := String.concat "/" A) in *.
  assert (HJ : Js.startsWith J "/" = true).
  { unfold J. rewrite HA. destruct rest as [|r rest].
    - exact Habs.
    - rewrite concat_cons. apply startsWith_slash_append, Habs. }
  assert (HJ' : Js.startsWith (J ++ "/" ++ s) "/" = true)
    by apply startsWith_slash_append, HJ.
  set (N := Path.normalizeString false (Path.splitSep J) []).
  assert (HN' : Path.normalizeString false (Path.splitSep (J ++ "/" ++ s)) []
                = N ++ [s]).
  { rewrite splitSep_app, (splitSep_noSlash s Hs).
    apply normalizeString_plain, Hplain. }
  assert (Hends : Path.endsWithSlash (J ++ "/" ++ s) = false).
  { rewrite <- append_assoc. apply endsWithSlash_app; assumption. }
  assert (HN : Path.normalizeString false (Path.splitSep J) [] = N) by reflexivity.
  clearbody N.
  rewrite Hfull, Hroot.
  split; [|split; [|split]].
  - rewrite !segments_normalize_absolute by assumption. rewrite HN', HN. reflexivity.
  - rewrite (normalize_absolute _ HJ'), HN', Hends.
    remember (N ++ [s]) as M eqn:EM.
    destruct M as [|x l]; [destruct N; discriminate|]. rewrite EM. cbv zeta.
    destruct N as [|y N].
    + cbn [app String.concat]. apply endsWithSlash_app; assumption.
    + rewrite concat_snoc by discriminate.
      rewrite <- !append_assoc. apply endsWithSlash_app; assumption.
  - rewrite (normalize_absolute _ HJ'), HN', Hends, (normalize_absolute _ HJ).
    rewrite HN.
    remember (N ++ [s]) as M eqn:EM.
    destruct M as [|x l]; [destruct N; discriminate|]. rewrite EM. cbv zeta.
    destruct N as [|y N]; [reflexivity|].
    rewrite concat_snoc by discriminate.
    rewrite !hasNul_append. intros H.
    apply orb_false_iff in H as [_ H]. apply orb_false_iff in H as [H _].
    destruct (Path.endsWithSlash J); rewrite ?hasNul_append, H; reflexivity.
  - rewrite (normalize_absolute _ HJ'), HN', Hends, (normalize_absolute _ HJ).
    rewrite HN.
    remember (N ++ [s]) as M eqn:EM.
    destruct M as [|x l]; [destruct N; discriminate|]. rewrite EM. cbv zeta.
    destruct N as [|y N]; [cbn; lia|].
    rewrite concat_snoc by discriminate.
    destruct (Path.endsWithSlash J); rewrite !length_append; cbn; lia.
Qed.

Lemma pathWalk_snoc (s : string) (segs : list string) :
  forall (n : node),
    pathWalk n (segs ++ [s]) =
    match pathWalk n segs with
    | Found (Dir _ readable entries) =>
      if negb readable then EACCES
      else if (255 <? String.length s)%nat then ENAMETOOLONG
      else
        match findEntry s entries with
        | Some c => Found c
        | None => ENOENT
        end
    | Found _ => ENOTDIR
    | e => e
    end.
Proof.
  induction segs as [|x segs IH]; intros n; cbn [app pathWalk].
  - destruct n as [|nm rd es|]; reflexivity.
  - destruct n as [|nm rd es|]; try reflexivity.
    destruct (negb rd); [reflexivity|].
    destruct (255 <? String.length x)%nat; [reflexivity|].
    destruct (findEntry x es); [apply IH | reflexivity].
Qed.

Lemma walk_snoc (s : string) (segs : list string) :
  forall (n : node),
    walk n (segs ++ [s]) =
    match walk n segs with
    | Found (Dir _ _ entries) =>
      match findEntry s entries with
      | Some c => Found c
      | None => ENOENT
      end
    | Found _ => ENOTDIR
    | e => e
    end.
Proof.
  induction segs as [|x segs IH]; intros n; cbn [app walk].
  - destruct n as [|nm rd es|]; reflexivity.
  - destruct n as [|nm rd es|]; try reflexivity.
    destruct (findEntry x es); [apply IH | reflexivity].
Qed.

(** A plain folder name leads to an entry of the media root. *)
Lemma plain_folder_is_root_entry (fs : node) (s : string) (n : node) :
  Js.startsWith dirname "/" = true -> plainName s ->
  lookup fs (Path.join [dirname; photosDirectory; s]) = Found n ->
  exists name readable entries,
    lookup fs rootPath = Found (Dir name readable entries)
    /\ findEntry s entries = Some n.
Proof.
  intros Habs Hplain.
  destruct (join_root_child s Habs Hplain) as (Hseg & Hends & Hnul & Hlen).
  unfold lookup. rewrite Hseg, Hends, pathWalk_snoc.
  destruct (hasNul (Path.join [dirname; photosDirectory; s])); [discriminate|].
  rewrite (Hnul eq_refl).
  destruct (4096 <=? String.length (Path.join [dirname; photosDirectory; s]))%nat
    eqn:Elong; [discriminate|].
  apply Nat.leb_gt in Elong.
  replace (4096 <=? String.length rootPath)%nat with false
    by (symmetry; apply Nat.leb_gt; lia).
  destruct (pathWalk fs (segments rootPath)) as [[|nm rd es|]| | | | |];
    try discriminate.
  destruct (negb rd); [discriminate|].
  destruct (255 <? String.length s)%nat; [discriminate|].
  destruct (findEntry s es) as [c|] eqn:Ef; [|discriminate].
  cbn [andb]. intros [= <-]. exists nm, rd, es.
  rewrite andb_false_r. auto.
Qed.

Lemma matchSegment_two_segments (a b : string) :
  b <> "" -> Express.matchSegment ("/" ++ a ++ "/" ++ b) = None.
Proof.
  intros Hb. unfold Express.matchSegment.
  cbn [append Js.chars list_ascii_of_string]. fold (Js.chars (a ++ "/" ++ b)).
  change (Path.isSlash "/") with true. cbv iota.
  rewrite chars_append. cbn [append Js.chars list_ascii_of_string].
  fold (Js.chars b).
  assert (Hslash : forall l, In "/"%char l -> existsb Path.isSlash l = true).
  { intros l Hl. apply existsb_exists. exists "/"%char. auto. }
  assert (Hr : In "/"%char (Js.chars a ++ "/"%char :: Js.chars b))
    by (apply in_or_app; right; left; reflexivity).
  destruct (rev (Js.chars a ++ "/"%char :: Js.chars b)) as [|d r'] eqn:Er.
  - apply in_rev in Hr. rewrite Er in Hr. contradiction.
  - assert (Hseg : existsb Path.isSlash
                     (if Path.isSlash d then rev r'
                      else Js.chars a ++ "/"%char :: Js.chars b) = true).
    { destruct (Path.isSlash d); [|apply Hslash, Hr].
      apply Hslash. apply -> in_rev.
      rewrite rev_app_distr in Er. cbn [rev] in Er.
      destruct (rev (Js.chars b)) as [|d' rb] eqn:Eb.
      - apply (f_equal (@rev ascii)) in Eb. rewrite rev_involutive in Eb.
        destruct b; [congruence | discriminate].
      - rewrite <- !app_assoc in Er. cbn [app] in Er. injection Er as _ <-.
        apply in_or_app. right. left. reflexivity. }
    destruct (if Path.isSlash d then rev r'
              else Js.chars a ++ "/"%char :: Js.chars b); [reflexivity|].
    rewrite Hseg. reflexivity.
Qed.

Lemma galleryItemOf_folder (entry : node) (name cap thumb link : string) :
  galleryItemOf entry = Some (FolderItem name cap thumb link) ->
  isDirectory entry = true /\ name = nodeName entry
  /\ link = ("/" ++ nodeName entry)%string.
Proof.
  unfold galleryItemOf. destruct (isDirectory entry).
  - intros [= <- _ _ <-]. auto.
  - destruct (isFile entry); [|discriminate].
    destruct (isMediaName _); discriminate.
Qed.

(** C10 (as amended). The top-level page links only to the directories
    that are entries of the media root, each by "/" and its name; a
    request path of two or more segments reaches no gallery route; and
    when the one segment of a request decodes to a plain name, a page is
    rendered only for the entry of the media root with that name. The
    segment is percent-decoded before it is joined to the media root,
    though, and nothing is promised for a segment that decodes to a path
    of several names. *)
Theorem gallery_pages_of_single_names :
  forall (fs : node),
    Js.startsWith dirname "/" = true ->
    (forall entries : list node,
        Forall (fun item =>
                  match item with
                  | FolderItem name _ _ link =>
                    link = ("/" ++ name)%string
                    /\ exists entry, In entry entries
                                     /\ isDirectory entry = true
                                     /\ nodeName entry = name
                  | FileItem _ _ => True
                  end)
               (galleryItems entries))
    /\ (forall a b : string, b <> "" -> route fs ("/" ++ a ++ "/" ++ b) = Next)
    /\ (forall (s : string) (n : node),
           plainName s ->
           lookup fs (Path.join [dirname; photosDirectory; s]) = Found n ->
           exists name readable entries,
             lookup fs rootPath = Found (Dir name readable entries)
             /\ findEntry s entries = Some n).
Proof.
  intros fs Habs. split; [|split].
  - intros entries. apply Forall_forall.
    intros [name cap thumb link|data url] Hitem; [|exact I].
    apply galleryItems_In in Hitem as (entry & Hin & Hof).
    apply galleryItemOf_folder in Hof as (Hd & -> & ->).
    split; [reflexivity|]. exists entry. auto.
  - intros a b Hb. unfold route.
    rewrite (matchSegment_two_segments a b Hb).
    destruct (_ =? "/")%string eqn:E; [|reflexivity].
    apply String.eqb_eq in E. exfalso.
    apply (f_equal Js.chars) in E. rewrite !chars_append in E. cbn in E.
    destruct (Js.chars a); cbn in E; [|discriminate].
    destruct b; [congruence | discriminate].
  - intros s n Hplain Hlook.
    exact (plain_folder_is_root_entry fs s n Habs Hplain Hlook).
Qed.

(** ** Captions that are empty *)

(** *** Names that give no caption *)

Lemma splitRuns_nonempty (b : bool) (l : list ascii) : Js.splitRuns b l <> [].
Proof.
  revert b. induction l as [|c r IH]; intros b; cbn; [discriminate|].
  destruct (Js.isHyphenUnderscore c).
  - destruct b; [apply IH | discriminate].
  - destruct (Js.splitRuns false r); discriminate.
Qed.

(** The characters of the joined pieces, character by character. *)
Lemma joined_cons (b : bool) (c : ascii) (r : list ascii) :
  Js.chars (Js.join " " (map Js.str (Js.splitRuns b (c :: r))))
  = if Js.isHyphenUnderscore c
    then (if b then [] else [" "%char])
           ++ Js.chars (Js.join " " (map Js.str (Js.splitRuns true r)))
    else c :: Js.chars (Js.join " " (map Js.str (Js.splitRuns false r))).
Proof.
  unfold Js.join. cbn [Js.splitRuns].
  destruct (Js.isHyphenUnderscore c).
  - destruct b; [reflexivity|].
    pose proof (splitRuns_nonempty true r) as Hne.
    destruct (Js.splitRuns true r) as [|p ps]; [congruence|]. reflexivity.
  - pose proof (splitRuns_nonempty false r) as Hne.
    destruct (Js.splitRuns false r) as [|p ps]; [congruence|].
    cbn [map String.concat]. destruct (map Js.str ps); reflexivity.
Qed.

Lemma separator_code (c : ascii) :
  Js.isHyphenUnderscore c = true -> (Js.code c = 45 \/ Js.code c = 95)%nat.
Proof. unfold Js.isHyphenUnderscore. intros H. boolnat; auto. Qed.

Lemma ws2_second (a b : ascii) : Js.ws2 a b = true -> Js.isHyphenUnderscore b = false.
Proof.
  intros H. apply ws2_bounds in H as [_ H].
  destruct (Js.isHyphenUnderscore b) eqn:E; [|reflexivity].
  apply separator_code in E. lia.
Qed.

Lemma ws3_second (a b c : ascii) :
  Js.ws3 a b c = true ->
  Js.isHyphenUnderscore b = false /\ Js.isHyphenUnderscore c = false.
Proof.
  intros H. apply ws3_bounds in H as (_ & Hb & Hc).
  split.
  - destruct (Js.isHyphenUnderscore b) eqn:E; [|reflexivity].
    apply separator_code in E. lia.
  - destruct (Js.isHyphenUnderscore c) eqn:E; [|reflexivity].
    apply separator_code in E. lia.
Qed.

Lemma ws2_space (a : ascii) : Js.ws2 a " " = false.
Proof. unfold Js.ws2. cbn. apply andb_false_r. Qed.

Lemma ws3_space_second (a c : ascii) : Js.ws3 a " " c = false.
Proof.
  destruct (Js.ws3 a " " c) eqn:E; [|reflexivity].
  apply ws3_bounds in E as (_ & H & _). cbn in H. lia.
Qed.

Lemma ws3_space_third (a b : ascii) : Js.ws3 a b " " = false.
Proof.
  destruct (Js.ws3 a b " ") eqn:E; [|reflexivity].
  apply ws3_bounds in E as (_ & _ & H). cbn in H. lia.
Qed.

Lemma ws2_separator (a b : ascii) :
  Js.isHyphenUnderscore b = true -> Js.ws2 a b = false.
Proof.
  intros H. destruct (Js.ws2 a b) eqn:E; [|reflexivity].
  apply ws2_second in E. congruence.
Qed.

Lemma ws3_separator (a b c : ascii) :
  Js.isHyphenUnderscore b = true \/ Js.isHyphenUnderscore c = true ->
  Js.ws3 a b c = false.
Proof.
  intros H. destruct (Js.ws3 a b c) eqn:E; [|reflexivity].
  apply ws3_second in E as [? ?]. destruct H; congruence.
Qed.

(** What [trim] leaves of the joined pieces is nothing exactly for a
    name of separators and white space. *)
Lemma dropWs_joined (n : nat) :
  forall (l : list ascii) (b : bool),
    (length l <= n)%nat ->
    Js.dropWs false (Js.chars (Js.join " " (map Js.str (Js.splitRuns b l)))) = []
    <-> isBlank l = true.
Proof.
  induction n as [|n IH]; intros l b Hlen.
  { destruct l; [|cbn in Hlen; lia]. cbn. split; reflexivity. }
  destruct l as [|a r1]; [cbn; split; reflexivity|].
  assert (H1 : (length r1 <= n)%nat) by (cbn in Hlen; lia).
  rewrite joined_cons. cbn [isBlank].
  destruct (Js.isHyphenUnderscore a) eqn:Sa.
  { rewrite orb_true_r. destruct b; cbn [app Js.dropWs]; [apply IH, H1|].
    change (Js.ws1 " ") with true. cbv iota. apply IH, H1. }
  rewrite orb_false_r. cbn [Js.dropWs].
  destruct (Js.ws1 a) eqn:W1; [apply IH, H1|].
  destruct r1 as [|b1 r2]; [cbn; split; discriminate|].
  assert (H2 : (length r2 <= n)%nat) by (cbn in H1; lia).
  rewrite joined_cons.
  destruct (Js.isHyphenUnderscore b1) eqn:Sb.
  { cbn [app]. rewrite ws2_space, (ws2_separator _ _ Sb).
    assert (Hr : match r2 with
                 | [] => false
                 | c :: r3 => if Js.ws3 a b1 c then isBlank r3 else false
                 end = false).
    { destruct r2 as [|c r3]; [reflexivity|].
      rewrite (ws3_separator a b1 c) by (left; exact Sb). reflexivity. }
    rewrite Hr.
    destruct (Js.chars _) as [|c0 r0]; [split; discriminate|].
    rewrite ws3_space_second. split; discriminate. }
  destruct (Js.ws2 a b1) eqn:W2; [apply IH; lia|].
  destruct r2 as [|c1 r3]; [cbn; split; discriminate|].
  assert (H3 : (length r3 <= n)%nat) by (cbn in H2; lia).
  rewrite joined_cons.
  destruct (Js.isHyphenUnderscore c1) eqn:Sc.
  { cbn [app]. rewrite ws3_space_third.
    rewrite (ws3_separator a b1 c1) by (right; exact Sc).
    split; discriminate. }
  destruct (Js.ws3 a b1 c1) eqn:W3; [apply IH; lia|].
  split; discriminate.
Qed.

(** White space that can be dropped from the front entirely stays
    droppable when more follows. *)
Lemma dropWs_app (n : nat) :
  forall (l m : list ascii),
    (length l <= n)%nat ->
    Js.dropWs false l = [] -> Js.dropWs false (l ++ m) = Js.dropWs false m.
Proof.
  induction n as [|n IH]; intros l m Hlen H.
  { destruct l; [reflexivity | cbn in Hlen; lia]. }
  destruct l as [|a r1]; [reflexivity|].
  cbn [Js.dropWs app] in *.
  destruct (Js.ws1 a); [apply IH; [cbn in Hlen; lia | exact H]|].
  destruct r1 as [|b r2]; [discriminate|]. cbn [app].
  destruct (Js.ws2 a b); [apply IH; [cbn in Hlen; lia | exact H]|].
  destruct r2 as [|c r3]; [discriminate|]. cbn [app].
  destruct (Js.ws3 a b c); [apply IH; [cbn in Hlen; lia | exact H]|].
  discriminate.
Qed.

Lemma ws2_first (a b : ascii) : Js.ws2 a b = true -> Js.ws1 a = false.
Proof.
  intros H. apply ws2_bounds in H as [H _].
  destruct (Js.ws1 a) eqn:E; [|reflexivity]. apply ws1_bounds in E. lia.
Qed.

Lemma ws3_first (a b c : ascii) :
  Js.ws3 a b c = true -> Js.ws1 a = false /\ Js.ws2 a b = false.
Proof.
  intros H. split.
  - apply ws3_bounds in H as (H & _ & _).
    destruct (Js.ws1 a) eqn:E; [|reflexivity]. apply ws1_bounds in E. lia.
  - destruct (Js.ws2 a b) eqn:E; [|reflexivity].
    unfold Js.ws2 in E. unfold Js.ws3 in H. cbv zeta in H. boolnat; lia.
Qed.

(** White space dropped from the back entirely can be dropped from the
    front as well. *)
Lemma dropWs_back_front (n : nat) :
  forall l : list ascii,
    (length l <= n)%nat ->
    Js.dropWs true (rev l) = [] -> Js.dropWs false l = [].
Proof.
  induction n as [|n IH]; intros l Hlen H.
  { destruct l; [reflexivity | cbn in Hlen; lia]. }
  rewrite <- (rev_involutive l). rewrite <- (length_rev l) in Hlen.
  destruct (rev l) as [|a r1]; [reflexivity|].
  cbn [Js.dropWs] in H. cbn [rev].
  destruct (Js.ws1 a) eqn:W1.
  { rewrite (dropWs_app (length (rev r1)) _ _ (le_n _)).
    - cbn. rewrite W1. reflexivity.
    - apply IH; [rewrite length_rev; cbn in Hlen; lia|].
      rewrite rev_involutive. exact H. }
  destruct r1 as [|b r2]; [discriminate|].
  destruct (Js.ws2 b a) eqn:W2.
  { cbn [rev]. rewrite <- app_assoc.
    rewrite (dropWs_app (length (rev r2)) _ _ (le_n _)).
    - cbn. rewrite (ws2_first _ _ W2), W2. reflexivity.
    - apply IH; [rewrite length_rev; cbn in Hlen; lia|].
      rewrite rev_involutive. exact H. }
  destruct r2 as [|c r3]; [discriminate|].
  destruct (Js.ws3 c b a) eqn:W3; [|discriminate].
  cbn [rev]. rewrite <- !app_assoc.
  rewrite (dropWs_app (length (rev r3)) _ _ (le_n _)).
  - destruct (ws3_first _ _ _ W3) as [Wc Wcb].
    cbn. rewrite Wc, Wcb, W3. reflexivity.
  - apply IH; [rewrite length_rev; cbn in Hlen; lia|].
    rewrite rev_involutive. exact H.
Qed.

Lemma dropWs_idempotent (n : nat) :
  forall l : list ascii,
    (length l <= n)%nat ->
    Js.dropWs false (Js.dropWs false l) = Js.dropWs false l.
Proof.
  induction n as [|n IH]; intros l Hlen.
  { destruct l; [reflexivity | cbn in Hlen; lia]. }
  destruct l as [|a r1]; [reflexivity|].
  cbn [Js.dropWs].
  destruct (Js.ws1 a) eqn:W1; [apply IH; cbn in Hlen; lia|].
  destruct r1 as [|b r2]; [cbn; rewrite W1; reflexivity|].
  destruct (Js.ws2 a b) eqn:W2; [apply IH; cbn in Hlen; lia|].
  destruct r2 as [|c r3]; [cbn; rewrite W1, W2; reflexivity|].
  destruct (Js.ws3 a b c) eqn:W3; [apply IH; cbn in Hlen; lia|].
  cbn. rewrite W1, W2, W3. reflexivity.
Qed.

Lemma str_nil (l : list ascii) : Js.str l = "" -> l = [].
Proof. destruct l; [reflexivity | discriminate]. Qed.

Lemma trim_empty (s : string) :
  Js.trim s = "" <-> Js.dropWs false (Js.chars s) = [].
Proof.
  unfold Js.trim. split.
  - intros H. apply str_nil in H.
    assert (H' : Js.dropWs true (rev (Js.dropWs false (Js.chars s))) = []).
    { rewrite <- (rev_involutive (Js.dropWs true _)), H. reflexivity. }
    apply (dropWs_back_front _ _ (le_n _)) in H'.
    rewrite (dropWs_idempotent _ _ (le_n _)) in H'. exact H'.
  - intros ->. reflexivity.
Qed.

(** A name gives the empty caption exactly when it is made of hyphens,
    underscores and white space only. *)
Lemma humanize_empty (s : string) :
  Js.humanize s = "" <-> blankName s = true.
Proof.
  unfold Js.humanize, blankName. rewrite trim_empty.
  apply (dropWs_joined _ _ false (le_n _)).
Qed.

Lemma resolver_captionRule (at_path : option node) (full rel : string) :
  captionRule (processMediaFileForModal at_path full rel).
Proof.
  rewrite entry_from_the_name. unfold captionRule, defaultCaption, blankName.
  cbn [caption ext file].
  destruct (Js.includes videoExtensions _).
  - split; [discriminate | intros [H _]; discriminate H].
  - rewrite humanize_empty. split; [intros H; split; [reflexivity | exact H]|].
    intros [_ H]. exact H.
Qed.

(** C7 (as amended). The caption the resolver makes for a media file is
    empty exactly when the file is not a video (.mp4, .mov, .webm) and
    its name without the extension consists of hyphens, underscores and
    white space only, as "_.png"; for every other file it is a string
    that is not empty. So it is for every file item of the top-level
    page and for every entry of a modal list, of the top-level page and
    of a folder page. The caption of a folder item is empty exactly when
    the name of the folder consists of such characters only, as "__". *)
Theorem caption_is_empty_only_for_blank_names :
  forall entries : list node,
    Forall (fun e => noSlash (nodeName e) = true) entries ->
    (forall (at_path : option node) (fullPath relativePath : string),
        captionRule (processMediaFileForModal at_path fullPath relativePath))
    /\ Forall itemRule (galleryItems entries)
    /\ (forall (at_path : option node) (dir : string),
           match collectAllMediaFiles at_path dir with
           | Fulfilled l => Forall captionRule l
           | _ => True
           end)
    /\ (forall (folder : node) (full rel : string),
           Forall captionRule (folderMediaFilesForModal folder full rel)).
Proof.
  intros entries Hnames. split; [|split; [|split]].
  - exact resolver_captionRule.
  - apply Forall_forall.
    intros [nm cap thumb link|data url] Hitem; cbn [itemRule].
    + apply galleryItems_In in Hitem as (entry & Hin & Hof).
      pose proof Hof as Hfolder.
      apply galleryItemOf_folder in Hfolder as (Hd & _ & _).
      rewrite Forall_forall in Hnames.
      rewrite (folder_item_of_a_directory entry Hd (Hnames entry Hin)) in Hof.
      injection Hof as <- <- _ _. apply humanize_empty.
    + apply galleryItems_In in Hitem as (entry & _ & Hof).
      apply galleryItemOf_file in Hof as (_ & -> & _).
      apply resolver_captionRule.
  - intros at_path dir. apply runWalk_Forall; [|constructor].
    intros ap full rel name segs _ _. apply resolver_captionRule.
  - intros folder full rel. unfold folderMediaFilesForModal.
    apply Forall_forall. intros m Hm. apply in_map_iff in Hm as (f & <- & _).
    apply resolver_captionRule.
Qed.

(** ** The last name of a joined path *)

Lemma takeWhile_app_stop {A} (p : A -> bool) (l r : list A) :
  forallb p l = true ->
  match r with [] => True | x :: _ => p x = false end ->
  Path.takeWhile p (l ++ r) = l.
Proof.
  intros Hl Hr. induction l as [|x l IH]; cbn [app Path.takeWhile].
  - destruct r as [|y r]; [reflexivity|]. cbn. now rewrite Hr.
  - cbn in Hl. apply andb_true_iff in Hl as [Hx Hl]. rewrite Hx, (IH Hl). reflexivity.
Qed.

Lemma plainName_rev_chars (name : string) :
  plainName name ->
  exists d r, rev (Js.chars name) = d :: r
              /\ forallb (fun c => negb (Path.isSlash c)) (d :: r) = true.
Proof.
  intros (Hs & H0 & _). apply noSlash_chars in Hs.
  assert (Hall : forallb (fun c => negb (Path.isSlash c)) (rev (Js.chars name)) = true).
  { apply forallb_forall. intros c Hc. apply in_rev in Hc.
    now rewrite (existsb_false_In _ _ c Hs Hc). }
  destruct (rev (Js.chars name)) as [|d r] eqn:E.
  - apply (f_equal (@rev ascii)) in E. rewrite rev_involutive in E. cbn in E.
    destruct name; [congruence | discriminate].
  - exists d, r. split; [reflexivity | exact Hall].
Qed.

(** The base name of a path that ends in a separator and a plain name, or
    is the plain name, is the name. *)
Lemma baseRev_last (X name : string) :
  plainName name ->
  X = "" \/ (exists Y, X = (Y ++ "/")%string) ->
  Path.baseRev (X ++ name) = rev (Js.chars name).
Proof.
  intros Hp HX. destruct (plainName_rev_chars name Hp) as (d & r & E & Hall).
  unfold Path.baseRev. rewrite chars_append, rev_app_distr, E.
  pose proof Hall as Hall'. cbn [forallb] in Hall'.
  apply andb_true_iff in Hall' as [Hd _]. apply negb_true_iff in Hd.
  cbn [app Path.dropWhile]. rewrite Hd.
  change (d :: r ++ rev (Js.chars X)) with ((d :: r) ++ rev (Js.chars X)).
  apply takeWhile_app_stop; [exact Hall|].
  destruct HX as [->|[Y ->]]; [exact I|].
  rewrite chars_append, rev_app_distr. reflexivity.
Qed.

Lemma join_last (args : list string) (name : string) :
  plainName name ->
  exists X, Path.join (args ++ [name]) = (X ++ name)%string
            /\ (X = "" \/ exists Y, X = (Y ++ "/")%string).
Proof.
  intros Hp. pose proof Hp as (Hs & H0 & H1 & H2).
  pose proof H0 as E0. apply String.eqb_neq in E0.
  unfold Path.join. rewrite filter_app. cbn [filter]. rewrite E0. cbn [negb].
  destruct (filter (fun a => negb (a =? "")%string) args) as [|a F] eqn:EF.
  - exists "". split; [|left; reflexivity].
    pose proof (join_single name Hp) as J. unfold Path.join in J.
    cbn [filter] in J. rewrite E0 in J. exact J.
  - assert (HL : exists y L, (a :: F) ++ [name] = y :: L) by (cbn; eauto).
    destruct HL as (y & L & HL). rewrite HL. rewrite <- HL. clear y L HL.
    unfold Js.join at 1. rewrite concat_snoc by discriminate.
    set (C := String.concat "/" (a :: F)).
    unfold Path.normalize.
    assert (Hne : (C ++ "/" ++ name)%string <> "").
    { apply append_nonempty. discriminate. }
    apply String.eqb_neq in Hne. rewrite Hne.
    assert (Ht : Path.endsWithSlash (C ++ "/" ++ name) = false).
    { rewrite <- append_assoc. apply endsWithSlash_app; assumption. }
    rewrite Ht, splitSep_app, (splitSep_noSlash _ Hs).
    rewrite (normalizeString_plain _ name Hp).
    set (N := Path.normalizeString _ (Path.splitSep C) []).
    set (b := Js.startsWith (C ++ "/" ++ name) "/").
    assert (Hq : Js.join "/" (N ++ [name])
                 = (match N with [] => "" | _ => String.concat "/" N ++ "/" end
                    ++ name)%string).
    { unfold Js.join. destruct N as [|x N'] eqn:EN; [reflexivity|].
      rewrite concat_snoc by discriminate. now rewrite append_assoc. }
    rewrite Hq.
    set (P := match N with [] => "" | _ => (String.concat "/" N ++ "/")%string end).
    assert (Hq0 : ((P ++ name)%string =? "")%string = false).
    { apply String.eqb_neq, append_nonempty, H0. }
    rewrite Hq0. destruct b.
    + exists ("/" ++ P)%string. split; [now rewrite append_assoc|].
      right. subst P. destruct N as [|x N'].
      * exists "". reflexivity.
      * exists ("/" ++ String.concat "/" (x :: N'))%string.
        now rewrite append_assoc.
    + exists P. split; [reflexivity|]. subst P. destruct N as [|x N'].
      * left; reflexivity.
      * right. eexists. reflexivity.
Qed.

Lemma baseRev_plain (name : string) :
  plainName name -> Path.baseRev name = rev (Js.chars name).
Proof. intros Hp. apply (baseRev_last "" name Hp). left; reflexivity. Qed.

Lemma baseRev_join_last (args : list string) (name : string) :
  plainName name -> Path.baseRev (Path.join (args ++ [name])) = Path.baseRev name.
Proof.
  intros Hp. destruct (join_last args name Hp) as (X & -> & HX).
  rewrite (baseRev_last X name Hp HX). symmetry. apply baseRev_plain, Hp.
Qed.

(** The caption and the extension of a file depend on its own name only,
    not on the directories its two paths go through. *)
Lemma process_last (at_path : option node) (a b : list string) (name : string) :
  plainName name ->
  processMediaFileForModal at_path (Path.join (a ++ [name])) (Path.join (b ++ [name]))
  = mkEntry (Path.join (b ++ [name]))
            (caption (processMediaFileForModal at_path name name))
            (Js.toLowerCase (Path.extname name)).
Proof.
  intros Hp. unfold processMediaFileForModal, Path.extname, Path.parseName.
  rewrite !(baseRev_join_last _ name Hp). reflexivity.
Qed.

(** [path.join] of plain names puts the separator between them. *)
Lemma splitSep_concat (l : list string) :
  l <> [] -> Forall plainName l -> Path.splitSep (String.concat "/" l) = l.
Proof.
  induction l as [|x l IH]; [congruence|]. intros _ H.
  inversion H as [|? ? (Hx & _) Hl]; subst.
  destruct l as [|y l].
  - cbn [String.concat]. apply splitSep_noSlash, Hx.
  - rewrite concat_cons, splitSep_app, (splitSep_noSlash x Hx).
    cbn [app]. f_equal. apply IH; [discriminate | exact Hl].
Qed.

Lemma normalizeString_plain_list (b : bool) (l : list string) :
  Forall plainName l -> Path.normalizeString b l [] = l.
Proof.
  induction l as [|x l IH] using rev_ind; intros H; [reflexivity|].
  apply Forall_app in H as [Hl Hx]. inversion Hx as [|? ? Hp _]; subst.
  rewrite (normalizeString_plain b x Hp), (IH Hl). reflexivity.
Qed.

Lemma startsWith_slash_concat (l : list string) :
  Forall plainName l -> Js.startsWith (String.concat "/" l) "/" = false.
Proof.
  destruct l as [|x l]; [reflexivity|]. intros H.
  inversion H as [|? ? (Hx & H0 & _) _]; subst.
  apply noSlash_chars in Hx. destruct x as [|c x]; [congruence|].
  cbn in Hx. apply orb_false_iff in Hx as [Hc _].
  unfold Js.startsWith. destruct l as [|y l]; cbn [String.concat append prefix];
    destruct (ascii_dec "/" c) as [<-|]; try discriminate; reflexivity.
Qed.

Lemma plainName_clean (l : list string) :
  Forall plainName l -> Forall (fun x => noSlash x = true /\ x <> "") l.
Proof. apply Forall_impl. intros x (H & H0 & _). split; assumption. Qed.

Lemma join_plain (l : list string) :
  l <> [] -> Forall plainName l -> Path.join l = String.concat "/" l.
Proof.
  intros Hne H. unfold Path.join.
  assert (Hf : filter (fun a => negb (a =? "")%string) l = l).
  { apply forallb_filter_id. apply forallb_forall. intros x Hx.
    rewrite Forall_forall in H. destruct (H x Hx) as (_ & H0 & _).
    apply String.eqb_neq in H0. now rewrite H0. }
  rewrite Hf. destruct l as [|x l]; [congruence|].
  unfold Js.join at 1. set (L := x :: l) in *.
  unfold Path.normalize.
  assert (Hc : String.concat "/" L <> "").
  { apply concat_nonempty; [exact Hne|]. revert H. apply Forall_impl.
    intros y (_ & H0 & _). exact H0. }
  apply String.eqb_neq in Hc.
  rewrite Hc, (startsWith_slash_concat L H), (splitSep_concat L Hne H).
  cbn [negb]. rewrite (normalizeString_plain_list true L H).
  unfold Js.join. rewrite Hc.
  assert (Ht : Path.endsWithSlash (String.concat "/" L) = false).
  { destruct (exists_last Hne) as (l' & s & ->).
    apply Forall_app in H as [_ Hs]. inversion Hs as [|? ? (Hs1 & Hs2 & _) _]; subst.
    destruct l' as [|z l'].
    - cbn [app String.concat]. apply endsWithSlash_noSlash, Hs1.
    - rewrite concat_snoc by discriminate. rewrite <- append_assoc.
      apply endsWithSlash_app; assumption. }
  rewrite Ht. reflexivity.
Qed.

(** ** The files of the modal list *)

Lemma node_forall_ind (P : node -> Prop) :
  (forall name exif, P (File name exif)) ->
  (forall name, P (Other name)) ->
  (forall name readable entries,
      Forall P entries -> P (Dir name readable entries)) ->
  forall n, P n.
Proof.
  intros HF HO HD. fix IH 1. intros [name exif|name readable entries|name].
  - apply HF.
  - apply HD. induction entries as [|e r IHr]; constructor; [apply IH | exact IHr].
  - apply HO.
Qed.

Lemma isPlainName_spec (s : string) : isPlainName s = true <-> plainName s.
Proof.
  unfold isPlainName, plainName. rewrite !andb_true_iff, !negb_true_iff.
  rewrite !String.eqb_neq. split; intros H; repeat split; apply H.
Qed.

Lemma wellFormed_dir (name : string) (readable : bool) (entries : list node) :
  wellFormed (Dir name readable entries) = true ->
  Forall (fun e => plainName (nodeName e)) entries
  /\ distinct (map nodeName entries) = true
  /\ Forall (fun e => wellFormed e = true) entries.
Proof.
  cbn [wellFormed]. rewrite !andb_true_iff. intros [[H1 H2] H3].
  split; [|split; [exact H2|]].
  - apply Forall_forall. intros e He. apply isPlainName_spec.
    rewrite forallb_forall in H1. apply H1, He.
  - apply Forall_forall. intros e He. rewrite forallb_forall in H3. apply H3, He.
Qed.

Lemma entryOf_cons (segs : list string) (nm : string) (pf : list string * node) :
  entryOf segs (nm :: fst pf, snd pf) = entryOf (segs ++ [nm]) pf.
Proof. unfold entryOf. cbn [fst snd]. now rewrite <- app_assoc. Qed.

(** The entries of the depth-first list, by the names that lead to their
    files. *)
Lemma depthFirst_relFiles (n : node) :
  wellFormed n = true ->
  forall (dir : string) (segs : list string),
    Forall plainName segs ->
    depthFirst n dir segs = map (entryOf segs) (relFiles n).
Proof.
  induction n as [name exif|name|name readable entries IH] using node_forall_ind;
    intros Hwf dir segs Hsegs; try reflexivity.
  destruct (wellFormed_dir _ _ _ Hwf) as (Hplain & _ & Hsub).
  destruct readable; [|reflexivity].
  cbn [depthFirst relFiles]. clear Hwf.
  induction entries as [|e r IHr]; [reflexivity|].
  inversion IH as [|? ? IHe IHrest]; subst.
  inversion Hplain as [|? ? Hpe Hpr]; subst.
  inversion Hsub as [|? ? Hwe Hwr]; subst.
  cbn [flat_map]. rewrite map_app, (IHr IHrest Hpr Hwr). f_equal.
  destruct (isDirectory e) eqn:Ed.
  - rewrite (IHe Hwe) by (apply Forall_app; split; [exact Hsegs | constructor; auto]).
    rewrite map_map. apply map_ext. intros pf. symmetry. apply entryOf_cons.
  - destruct (isMediaFile e) eqn:Em; [|reflexivity].
    cbn [map]. f_equal.
    change [dir; nodeName e] with ([dir] ++ [nodeName e]).
    rewrite (process_last _ [dir] segs (nodeName e) Hpe).
    unfold entryOf. cbn [fst snd]. f_equal.
    apply join_plain.
    + destruct segs; discriminate.
    + apply Forall_app; split; [exact Hsegs | constructor; auto].
Qed.

Lemma distinct_cons (x : string) (r : list string) :
  distinct (x :: r) = true -> ~ In x r /\ distinct r = true.
Proof.
  cbn [distinct]. rewrite andb_true_iff, negb_true_iff. intros [H1 H2].
  split; [|exact H2]. intros Hin. apply includes_In in Hin. congruence.
Qed.

Lemma distinct_NoDup (l : list string) : distinct l = true -> NoDup l.
Proof.
  induction l as [|x r IH]; intros H; [constructor|].
  apply distinct_cons in H as [H1 H2]. constructor; auto.
Qed.

(** In a listing of distinct names, the entry called as an entry is that
    entry. *)
Lemma findEntry_In (entries : list node) (e : node) :
  distinct (map nodeName entries) = true -> In e entries ->
  findEntry (nodeName e) entries = Some e.
Proof.
  induction entries as [|x r IH]; intros Hd Hin; [destruct Hin|].
  cbn [map] in Hd. apply distinct_cons in Hd as [Hx Hr].
  cbn [findEntry]. destruct Hin as [->|Hin].
  - now rewrite String.eqb_refl.
  - destruct (nodeName x =? nodeName e)%string eqn:E.
    + apply String.eqb_eq in E. exfalso. apply Hx. rewrite E.
      apply in_map, Hin.
    + apply IH; assumption.
Qed.

Lemma relFiles_of_entry (e : node) (p : list string) (f : node) :
  In (p, f)
     (if isDirectory e then
        map (fun pf => (nodeName e :: fst pf, snd pf)) (relFiles e)
      else if isMediaFile e then [([nodeName e], e)] else []) ->
  exists q, p = nodeName e :: q
            /\ ((isDirectory e = true /\ In (q, f) (relFiles e))
                \/ (isDirectory e = false /\ isMediaFile e = true
                    /\ q = [] /\ f = e)).
Proof.
  destruct (isDirectory e).
  - intros H. apply in_map_iff in H as ([q f'] & Heq & Hin). cbn [fst snd] in Heq.
    inversion Heq; subst. exists q. split; [reflexivity|]. left; auto.
  - destruct (isMediaFile e); [|intros []].
    intros [Heq|[]]. inversion Heq; subst. exists []. split; [reflexivity|].
    right; auto.
Qed.

(** The names that lead to a file of the list are plain, and from the
    directory they lead to that file, which the extension test accepts. *)
Lemma relFiles_walk (n : node) :
  wellFormed n = true ->
  forall (p : list string) (f : node),
    In (p, f) (relFiles n) ->
    walk n p = Found f /\ isMediaFile f = true /\ p <> [] /\ Forall plainName p.
Proof.
  induction n as [name exif|name|name readable entries IH] using node_forall_ind;
    intros Hwf p f Hin; try (destruct Hin; fail).
  destruct (wellFormed_dir _ _ _ Hwf) as (Hplain & Hdist & Hsub).
  destruct readable; [|destruct Hin].
  cbn [relFiles] in Hin. apply in_flat_map in Hin as (e & He & Hin).
  apply relFiles_of_entry in Hin as (q & -> & Hcase).
  rewrite Forall_forall in IH, Hplain, Hsub.
  cbn [walk]. rewrite (findEntry_In _ _ Hdist He).
  destruct Hcase as [(Hd & Hq)|(Hd & Hm & -> & ->)].
  - destruct (IH e He (Hsub e He) q f Hq) as (Hw & Hm & _ & Hpq).
    repeat split; [exact Hw | exact Hm | discriminate |].
    constructor; [apply Hplain, He | exact Hpq].
  - repeat split; [exact Hm | discriminate |].
    constructor; [apply Hplain, He | constructor].
Qed.

Lemma NoDup_map_injective {A B} (f : A -> B) (l : list A) :
  (forall x y, f x = f y -> x = y) -> NoDup l -> NoDup (map f l).
Proof.
  intros Hinj H. induction H as [|x l Hx Hl IH]; cbn; constructor; [|exact IH].
  intros Hin. apply in_map_iff in Hin as (y & Hy & Hin).
  apply Hinj in Hy. subst. contradiction.
Qed.

(** No two files of the list are led to by the same names. *)
Lemma relFiles_NoDup (n : node) :
  wellFormed n = true -> NoDup (map fst (relFiles n)).
Proof.
  induction n as [name exif|name|name readable entries IH] using node_forall_ind;
    intros Hwf; try constructor.
  destruct (wellFormed_dir _ _ _ Hwf) as (_ & Hdist & Hsub).
  destruct readable; [|constructor].
  cbn [relFiles]. clear Hwf.
  induction entries as [|e r IHr]; [constructor|].
  inversion IH as [|? ? IHe IHrest]; subst.
  inversion Hsub as [|? ? Hwe Hwr]; subst.
  cbn [map] in Hdist. apply distinct_cons in Hdist as [Hx Hd].
  cbn [flat_map]. rewrite map_app. apply NoDup_app.
  - destruct (isDirectory e).
    + rewrite map_map. cbn [fst].
      rewrite <- (map_map fst (cons (nodeName e))).
      apply NoDup_map_injective; [|apply IHe, Hwe].
      intros x y H. now inversion H.
    + destruct (isMediaFile e); cbn; repeat constructor. intros [].
  - apply IHr; assumption.
  - intros p Hp Hp'. apply Hx.
    apply in_map_iff in Hp as ([p1 f1] & <- & Hin1).
    apply in_map_iff in Hp' as ([p2 f2] & Heq & Hin2). cbn [fst] in *.
    apply relFiles_of_entry in Hin1 as (q1 & -> & _).
    apply in_flat_map in Hin2 as (e2 & He2 & Hin2).
    apply relFiles_of_entry in Hin2 as (q2 & -> & _).
    injection Heq as Hn _. rewrite <- Hn. apply in_map, He2.
Qed.

(** The paths of the depth-first list are pairwise distinct. *)
Lemma depthFirst_NoDup (n : node) (dir : string) :
  wellFormed n = true -> NoDup (map file (depthFirst n dir [])).
Proof.
  intros Hwf. rewrite (depthFirst_relFiles n Hwf dir []) by constructor.
  rewrite map_map. unfold entryOf. cbn [file app].
  assert (H : forall l : list (list string * node),
             (forall pf, In pf l -> In pf (relFiles n)) ->
             NoDup (map fst l) ->
             NoDup (map (fun pf => String.concat "/" (fst pf)) l)).
  { induction l as [|pf l IHl]; intros Hsub Hnd; [constructor|].
    cbn [map] in *. inversion Hnd as [|? ? Hnot Hrest]; subst.
    constructor; [|apply IHl; auto using in_cons].
    intros Hin. apply Hnot. apply in_map_iff in Hin as (pf' & Heq & Hin').
    apply in_map_iff. exists pf'. split; [|exact Hin'].
    destruct pf as [p f], pf' as [p' f']. cbn [fst] in *.
    destruct (relFiles_walk n Hwf p f (Hsub _ (in_eq _ _))) as (_ & _ & _ & Hp).
    destruct (relFiles_walk n Hwf p' f' (Hsub _ (in_cons _ _ _ Hin')))
      as (_ & _ & _ & Hp').
    rewrite <- (segments_concat p' (plainName_clean _ Hp')), Heq.
    apply segments_concat, plainName_clean, Hp. }
  apply H; [auto | apply relFiles_NoDup, Hwf].
Qed.

(** ** The answers of the routes *)

Lemma mainRoute_page (fs : node) (name : string) (entries : list node) :
  lookup fs rootPath = Found (Dir name true entries) ->
  forallb readableBelow entries = true ->
  exists all,
    mainRoute fs
    = Page projectTitle (map (tileOf all) (galleryItems entries)) all "main" ""
    /\ collectAllMediaFiles (Some (Dir name true entries)) rootPath = Fulfilled all
    /\ Permutation all (depthFirst (Dir name true entries) rootPath []).
Proof.
  intros Hroot Hread.
  pose proof (collectAllMediaFiles_settles (Dir name true entries)) as Hwalk.
  unfold readableTask, rootTask in Hwalk; cbn [taskNode] in Hwalk.
  rewrite Hread in Hwalk. cbn [andb] in Hwalk.
  destruct Hwalk as (all & Hall & Hperm).
  exists all. split; [|split; assumption].
  unfold mainRoute. fold rootPath. rewrite Hroot. cbn [found readdir].
  rewrite Hall. reflexivity.
Qed.








(** ** The modal list of the top-level page *)

Lemma runWalk_extends (fuel : nat) :
  forall (step : nat) (pending : list WalkTask) (acc l : list MediaEntry),
    runWalk fuel step pending acc = Fulfilled l -> exists rest, l = acc ++ rest.
Proof.
  induction fuel as [|fuel IH]; intros step pending acc l H.
  - destruct pending; [|discriminate]. cbn in H. injection H as <-.
    exists []. now rewrite app_nil_r.
  - destruct pending as [|t0 pending'].
    { cbn in H. injection H as <-. exists []. now rewrite app_nil_r. }
    cbn [runWalk] in H.
    destruct (nth_error (t0 :: pending') (sched step mod length (t0 :: pending')))
      as [t|]; [|discriminate].
    destruct (readdir (taskNode t)) as [dirEntries|]; [|discriminate].
    apply IH in H as (rest & ->). rewrite <- app_assoc. eauto.
Qed.

(** The files of the root come first, whatever the order in which the
    listings of the subdirectories arrive. *)
Lemma collect_root_first (name : string) (entries : list node) (dir : string)
      (l : list MediaEntry) :
  collectAllMediaFiles (Some (Dir name true entries)) dir = Fulfilled l ->
  exists rest,
    l = pushesOf (mkTask (Some (Dir name true entries)) dir []) entries ++ rest.
Proof.
  unfold collectAllMediaFiles. cbn [runWalk length].
  rewrite Nat.mod_1_r. cbn [nth_error taskNode readdir removeNth app].
  apply runWalk_extends.
Qed.

Lemma findIndexFrom_app_found {A} (p : A -> bool) (l r : list A) (x : A) :
  In x l -> p x = true ->
  forall i, findIndexFrom p (l ++ r) i = findIndexFrom p l i.
Proof.
  intros Hin Hx. induction l as [|y l IH]; [destruct Hin|]. intros i.
  cbn [app findIndexFrom]. destruct (p y) eqn:Ey; [reflexivity|].
  destruct Hin as [->|Hin]; [congruence|]. apply IH, Hin.
Qed.

Lemma pushesOf_In (t : WalkTask) (entries : list node) (e : node) :
  In e entries -> isMediaFile e = true -> In (pushedEntry t e) (pushesOf t entries).
Proof.
  intros Hin Hm. unfold pushesOf. apply in_or_app.
  destruct (awaitsExif (entryFullPath t e)) eqn:Ea; [right | left];
    apply in_map, filter_In; (split; [apply filter_In; auto|]); now rewrite Ea.
Qed.

Lemma findIndexFrom_bound {A} (p : A -> bool) (l : list A) (x : A) :
  In x l -> p x = true ->
  forall i, (i <= findIndexFrom p l i < i + Z.of_nat (length l))%Z.
Proof.
  intros Hin Hx. induction l as [|y l IH]; [destruct Hin|]. intros i.
  cbn [findIndexFrom length]. destruct (p y) eqn:Ey; [lia|].
  destruct Hin as [->|Hin]; [congruence|]. specialize (IH Hin (i + 1)%Z). lia.
Qed.

(** X3. On the top-level page the files of the media root itself lead the
    modal list, in an order the program fixes (those that are no JPEGs
    first, each group in the order of the listing), and the files of the
    subdirectories follow in an order that depends on the arrival of the
    listings. The tiles do not depend on that arrival: the index of every
    file tile is found among the files of the root, so it is at least 0
    and below their number. *)
Theorem root_files_lead_the_modal_list :
  forall (fs : node) (name : string) (entries : list node),
    lookup fs rootPath = Found (Dir name true entries) ->
    forallb readableBelow entries = true ->
    Forall (fun e => noSlash (nodeName e) = true) entries ->
    let root := rootTask (Dir name true entries) in
    let rootFiles := pushesOf root entries in
    exists rest : list MediaEntry,
      mainRoute fs
      = Page projectTitle (map (tileOf rootFiles) (galleryItems entries))
             (rootFiles ++ rest) "main" ""
      /\ Permutation rest (flat_map depthFirstTask (subTasks root entries))
      /\ Forall (fun t =>
                   match t with
                   | FileTile dataIndex _ _ =>
                     (0 <= dataIndex < Z.of_nat (length rootFiles))%Z
                   | FolderTile _ _ _ => True
                   end)
                (map (tileOf rootFiles) (galleryItems entries)).
Proof.
  intros fs name entries Hroot Hread Hnames root rootFiles.
  destruct (mainRoute_page fs name entries Hroot Hread) as (all & Hpage & Hall & Hperm).
  destruct (collect_root_first _ _ _ _ Hall) as (rest & Hrest).
  fold (rootTask (Dir name true entries)) in Hrest. fold root in Hrest.
  fold rootFiles in Hrest. subst all.
  assert (Hitem : forall data url,
             In (FileItem data url) (galleryItems entries) ->
             exists m, In m rootFiles /\ (file m =? file data)%string = true).
  { intros data url Hin.
    apply galleryItems_In in Hin as (entry & Hin & Hof).
    apply galleryItemOf_file in Hof as (Hm & Hdata & _).
    exists (pushedEntry root entry). split; [apply pushesOf_In; assumption|].
    assert (Hplain : plainName (nodeName entry)).
    { apply isMediaName_plain.
      - rewrite Forall_forall in Hnames. apply Hnames, Hin.
      - unfold isMediaFile in Hm. apply andb_true_iff in Hm. apply Hm. }
    subst data. unfold pushedEntry, entryRelativePath, root, rootTask.
    cbn [file relativePathSegments app processMediaFileForModal].
    rewrite (join_single _ Hplain). apply String.eqb_refl. }
  exists rest. split; [|split].
  - rewrite Hpage. f_equal. apply map_ext_in.
    intros [nm cap thumb link|data url] Hin; [reflexivity|].
    destruct (Hitem data url Hin) as (m & Hm & Hfile).
    cbn [tileOf]. unfold findIndex.
    now rewrite (findIndexFrom_app_found (fun f => file f =? file data)%string
                                         rootFiles rest m Hm Hfile).
  - apply (Permutation_app_inv_l rootFiles).
    eapply Permutation_trans; [exact Hperm|].
    change (depthFirst (Dir name true entries) rootPath [])
      with (depthFirstTask root).
    rewrite (depthFirstTask_readdir root entries eq_refl).
    unfold rootFiles. apply pushes_and_subtasks.
  - apply Forall_forall. intros t Ht.
    apply in_map_iff in Ht as ([nm cap thumb link|data url] & <- & Hin); [exact I|].
    destruct (Hitem data url Hin) as (m & Hm & Hfile).
    cbn [tileOf]. unfold findIndex.
    pose proof (findIndexFrom_bound (fun f => file f =? file data)%string
                                    rootFiles m Hm Hfile 0%Z) as Hb.
    lia.
Qed.

Lemma In_relFiles_root (name : string) (entries : list node) (e : node) :
  In e entries -> isMediaFile e = true ->
  In ([nodeName e], e) (relFiles (Dir name true entries)).
Proof.
  intros Hin Hm. cbn [relFiles]. apply in_flat_map. exists e. split; [exact Hin|].
  destruct (isDirectory e) eqn:Ed.
  - rewrite (isMediaFile_not_directory e Ed) in Hm. discriminate.
  - rewrite Hm. left; reflexivity.
Qed.

(** X4. On the top-level page of a tree as a file system has it (plain
    names, no two the same in a listing), every entry of the modal list
    stands for one media file: its path, taken apart at the separators and
    followed from the media root, ends at a regular file with a supported
    extension; its extension is the lower-cased extension of that file's
    name and one of the eight; its caption is the caption the resolver
    gives that file under its bare name, whatever the folder. *)
Theorem modal_entries_lead_to_their_files :
  forall (fs : node) (name : string) (entries : list node),
    lookup fs rootPath = Found (Dir name true entries) ->
    forallb readableBelow entries = true ->
    wellFormed (Dir name true entries) = true ->
    exists (tiles : list Tile) (all : list MediaEntry),
      mainRoute fs = Page projectTitle tiles all "main" ""
      /\ Forall
           (fun m =>
              exists f : node,
                walk (Dir name true entries) (segments (file m)) = Found f
                /\ isMediaFile f = true
                /\ ext m = Js.toLowerCase (Path.extname (nodeName f))
                /\ In (ext m) mediaExtensions
                /\ caption m
                   = caption (processMediaFileForModal (Some f) (nodeName f)
                                                       (nodeName f)))
           all.
Proof.
  intros fs name entries Hroot Hread Hwf.
  destruct (mainRoute_page fs name entries Hroot Hread) as (all & Hpage & _ & Hperm).
  exists (map (tileOf all) (galleryItems entries)), all. split; [exact Hpage|].
  apply Forall_forall. intros m Hm.
  apply (Permutation_in _ Hperm) in Hm.
  rewrite (depthFirst_relFiles _ Hwf rootPath []) in Hm by constructor.
  apply in_map_iff in Hm as ([p f] & <- & Hin).
  destruct (relFiles_walk _ Hwf p f Hin) as (Hw & Hmedia & _ & Hp).
  exists f. unfold entryOf. cbn [fst snd file ext caption app].
  rewrite (segments_concat p (plainName_clean p Hp)).
  repeat split; try assumption; try reflexivity.
  apply includes_In. unfold isMediaFile in Hmedia.
  apply andb_true_iff in Hmedia. apply Hmedia.
Qed.

(** The entry of the modal list at the index of a file tile is the entry
    of the tile, and no other position has its path. *)
Lemma root_tiles_index_their_entries (fs : node) (name : string)
      (entries : list node) :
  lookup fs rootPath = Found (Dir name true entries) ->
  forallb readableBelow entries = true ->
  wellFormed (Dir name true entries) = true ->
  exists all : list MediaEntry,
    mainRoute fs
    = Page projectTitle (map (tileOf all) (galleryItems entries)) all "main" ""
    /\ NoDup (map file all)
    /\ Forall
         (fun item =>
            match item with
            | FolderItem _ _ _ _ => True
            | FileItem data url =>
              url = ("/" ++ file data)%string
              /\ In (ext data) mediaExtensions
              /\ exists i : nat,
                  tileOf all item
                  = FileTile (Z.of_nat i) (mediaElementOf data url) (caption data)
                  /\ nth_error all i = Some data
                  /\ forall (j : nat) (e : MediaEntry),
                      nth_error all j = Some e -> file e = file data -> j = i
            end)
         (galleryItems entries).
Proof.
  intros Hroot Hread Hwf.
  destruct (mainRoute_page fs name entries Hroot Hread) as (all & Hpage & _ & Hperm).
  assert (Hnd : NoDup (map file all)).
  { apply (Permutation_NoDup (Permutation_sym (Permutation_map file Hperm))).
    apply depthFirst_NoDup, Hwf. }
  exists all. split; [exact Hpage|]. split; [exact Hnd|].
  destruct (wellFormed_dir _ _ _ Hwf) as (Hplain & _ & _).
  apply Forall_forall. intros [nm cap thumb link|data url] Hitem; [exact I|].
  apply galleryItems_In in Hitem as (entry & Hin & Hof).
  apply galleryItemOf_file in Hof as (Hm & Hdata & Hurl).
  rewrite Forall_forall in Hplain. pose proof (Hplain entry Hin) as Hp.
  assert (Hd : data = entryOf [] ([nodeName entry], entry)).
  { subst data.
    pose proof (process_last (Some entry) [dirname; photosDirectory] []
                             (nodeName entry) Hp) as H.
    cbn [app] in H. rewrite (join_single _ Hp) in H.
    unfold entryOf. cbn [fst snd app String.concat]. exact H. }
  assert (Hall : In data all).
  { apply (Permutation_in _ (Permutation_sym Hperm)).
    rewrite (depthFirst_relFiles _ Hwf rootPath []) by constructor.
    rewrite Hd. apply in_map, In_relFiles_root; assumption. }
  destruct (findIndexFrom_spec (fun f => file f =? file data)%string all 0 _ Hall)
    as (k & y & Hk & Hn & Hy & Hfirst); [apply String.eqb_refl|].
  assert (Huniq : forall (i j : nat) (a b : MediaEntry),
             nth_error all i = Some a -> nth_error all j = Some b ->
             file a = file b -> i = j).
  { intros i j a b Ha Hb Hab.
    apply (proj1 (NoDup_nth_error (map file all)) Hnd).
    - rewrite length_map. apply nth_error_Some. congruence.
    - rewrite !nth_error_map, Ha, Hb. cbn. now rewrite Hab. }
  apply String.eqb_eq in Hy.
  apply In_nth_error in Hall as (i & Hi).
  assert (i = k) by (apply (Huniq i k data y Hi Hn); now rewrite Hy). subst i.
  split; [|split].
  - rewrite Hurl, Hd. reflexivity.
  - rewrite Hd. unfold entryOf. cbn [ext snd]. apply includes_In.
    unfold isMediaFile in Hm. apply andb_true_iff in Hm. apply Hm.
  - exists k. split; [|split; [exact Hi|]].
    + cbn [tileOf]. unfold findIndex. rewrite Hk. reflexivity.
    + intros j e He Hfile. apply (Huniq j k e data He Hi Hfile).
Qed.

(** X5. On the top-level page of such a tree no two entries of the modal
    list have the same path, so the path of a file of the root matches
    exactly one entry: the index of its tile is the only position at which
    the list has that path, and the entry there is the very entry of the
    tile. *)
Theorem modal_paths_are_distinct :
  forall (fs : node) (name : string) (entries : list node),
    lookup fs rootPath = Found (Dir name true entries) ->
    forallb readableBelow entries = true ->
    wellFormed (Dir name true entries) = true ->
    exists all : list MediaEntry,
      mainRoute fs
      = Page projectTitle (map (tileOf all) (galleryItems entries)) all "main" ""
      /\ NoDup (map file all)
      /\ Forall
           (fun item =>
              match item with
              | FolderItem _ _ _ _ => True
              | FileItem data url =>
                exists i : nat,
                  tileOf all item
                  = FileTile (Z.of_nat i) (mediaElementOf data url) (caption data)
                  /\ nth_error all i = Some data
                  /\ forall (j : nat) (e : MediaEntry),
                      nth_error all j = Some e -> file e = file data -> j = i
              end)
           (galleryItems entries).
Proof.
  intros fs name entries Hroot Hread Hwf.
  destruct (root_tiles_index_their_entries fs name entries Hroot Hread Hwf)
    as (all & Hpage & Hnd & Hitems).
  exists all. split; [exact Hpage|]. split; [exact Hnd|].
  revert Hitems. apply Forall_impl.
  intros [nm cap thumb link|data url]; [auto|]. intros (_ & _ & H). exact H.
Qed.

(** ** The modal of the page *)

Lemma showModal_on_the_list (mediaFiles : list MediaEntry) (j : nat)
      (f : MediaEntry) (s : Client.Modal) :
  nth_error mediaFiles j = Some f ->
  Client.showModal mediaFiles (Client.Int (Z.of_nat j)) s
  = Client.Normal (Client.mkModal (Client.Int (Z.of_nat j)) "block"
                                  [Client.elementFor f] (caption f)).
Proof.
  intros Hf. assert (Hj : (j < length mediaFiles)%nat).
  { apply nth_error_Some. congruence. }
  unfold Client.showModal, Client.lt, Client.ge, Client.at_index.
  replace (Z.of_nat j <? 0)%Z with false by (symmetry; apply Z.ltb_ge; lia).
  replace (Z.of_nat (length mediaFiles) <=? Z.of_nat j)%Z with false
    by (symmetry; apply Z.leb_gt; lia).
  cbn [orb]. rewrite Nat2Z.id, Hf. reflexivity.
Qed.

Lemma showNext_on_the_list (mediaFiles : list MediaEntry) (i : nat)
      (s : Client.Modal) :
  Client.currentIndex s = Client.Int (Z.of_nat i) ->
  (i < length mediaFiles)%nat ->
  Client.showNext mediaFiles s
  = Client.showModal mediaFiles
                     (Client.Int (Z.of_nat ((i + 1) mod length mediaFiles))) s.
Proof.
  intros Hi Hlt. unfold Client.showNext. rewrite Hi. cbn [Client.add Client.rem].
  replace (Z.of_nat (length mediaFiles) =? 0)%Z with false
    by (symmetry; apply Z.eqb_neq; lia).
  rewrite Z.rem_mod_nonneg by lia.
  rewrite Nat2Z.inj_mod, Nat2Z.inj_add. reflexivity.
Qed.

Lemma showPrev_on_the_list (mediaFiles : list MediaEntry) (i : nat)
      (s : Client.Modal) :
  Client.currentIndex s = Client.Int (Z.of_nat i) ->
  (i < length mediaFiles)%nat ->
  Client.showPrev mediaFiles s
  = Client.showModal
      mediaFiles
      (Client.Int (Z.of_nat ((i + length mediaFiles - 1) mod length mediaFiles))) s.
Proof.
  intros Hi Hlt. unfold Client.showPrev. rewrite Hi. cbn [Client.add Client.rem].
  replace (Z.of_nat (length mediaFiles) =? 0)%Z with false
    by (symmetry; apply Z.eqb_neq; lia).
  rewrite Z.rem_mod_nonneg by lia.
  rewrite Nat2Z.inj_mod, Nat2Z.inj_sub, Nat2Z.inj_add by lia.
  do 3 f_equal. lia.
Qed.

Lemma opens_on_the_list (mediaFiles : list MediaEntry) (j : nat) (s : Client.Modal) :
  (j < length mediaFiles)%nat ->
  opensOn mediaFiles j
          (Client.state (Client.showModal mediaFiles (Client.Int (Z.of_nat j)) s)).
Proof.
  intros Hj. destruct (nth_error mediaFiles j) as [f|] eqn:Hf.
  - rewrite (showModal_on_the_list _ _ _ _ Hf). exists f. split; [exact Hf | reflexivity].
  - apply nth_error_None in Hf. lia.
Qed.

Lemma opensOn_consistent (mediaFiles : list MediaEntry) (i : nat) (s : Client.Modal) :
  opensOn mediaFiles i s -> consistent mediaFiles s.
Proof.
  intros Ho. pose proof Ho as (f & Hf & ->).
  assert (Hi : (i < length mediaFiles)%nat) by (apply nth_error_Some; congruence).
  split; intros _; exists i; cbn [Client.currentIndex]; auto.
Qed.

Lemma mod_below (a n : nat) : (0 < n)%nat -> (a mod n < n)%nat.
Proof. intros H. apply Nat.mod_upper_bound. lia. Qed.

Lemma consistent_handle (mediaFiles : list MediaEntry) (e : Client.Event)
      (s : Client.Modal) :
  onTheList mediaFiles e = true ->
  consistent mediaFiles s -> consistent mediaFiles (Client.handle mediaFiles e s).
Proof.
  intros He Hs.
  assert (Hclosed : forall s', Client.currentIndex s' = Client.currentIndex s ->
                               Client.display s' <> "block" ->
                               consistent mediaFiles s').
  { intros s' Hidx Hd. split; [rewrite Hidx; apply Hs | contradiction]. }
  destruct mediaFiles as [|m0 rest] eqn:Em.
  - (* an empty list: the modal is never displayed *)
    assert (Hd : Client.display s <> "block").
    { intros Hd. destruct Hs as [_ Hs]. destruct (Hs Hd) as (i & _ & f & Hf & _).
      destruct i; discriminate. }
    assert (Hempty : forall s', Client.display s' <> "block" -> consistent [] s').
    { intros s' Hd'. split; [congruence | contradiction]. }
    apply Hempty.
    destruct e as [dataIndex| | | |key]; cbn [Client.handle].
    + cbn in He. lia.
    + cbn. discriminate.
    + unfold Client.showNext. cbn [length Z.of_nat].
      destruct (Client.currentIndex s); cbn; exact Hd.
    + unfold Client.showPrev. cbn [length Z.of_nat].
      destruct (Client.currentIndex s); cbn; exact Hd.
    + unfold Client.keydown. destruct (_ && _); [cbn; discriminate | exact Hd].
  - rewrite <- Em in *.
    assert (Hne : mediaFiles <> []) by (rewrite Em; discriminate).
    assert (Hpos : (0 < length mediaFiles)%nat) by (rewrite Em; cbn; lia).
    destruct Hs as [Hin Hopen]. destruct (Hin Hne) as (i & Hi & Hlt).
    destruct e as [dataIndex| | | |key]; cbn [Client.handle].
    + cbn [onTheList] in He. apply andb_true_iff in He as [H0 H1].
      apply Z.leb_le in H0. apply Z.ltb_lt in H1.
      rewrite <- (Z2Nat.id dataIndex H0).
      apply (opensOn_consistent _ (Z.to_nat dataIndex)), opens_on_the_list. lia.
    + apply Hclosed; [reflexivity | cbn; discriminate].
    + rewrite (showNext_on_the_list _ i s Hi Hlt).
      eapply opensOn_consistent, opens_on_the_list, mod_below, Hpos.
    + rewrite (showPrev_on_the_list _ i s Hi Hlt).
      eapply opensOn_consistent, opens_on_the_list, mod_below, Hpos.
    + unfold Client.keydown. destruct (_ && _).
      * apply Hclosed; [reflexivity | cbn; discriminate].
      * split; assumption.
Qed.

Lemma run_consistent (mediaFiles : list MediaEntry) (events : list Client.Event) :
  forallb (onTheList mediaFiles) events = true ->
  forall s : Client.Modal,
    consistent mediaFiles s -> consistent mediaFiles (Client.run mediaFiles events s).
Proof.
  unfold Client.run.
  induction events as [|e events IH]; intros He s Hs; [exact Hs|].
  cbn [forallb] in He. apply andb_true_iff in He as [He Hrest].
  cbn [fold_left]. apply (IH Hrest). apply consistent_handle; assumption.
Qed.

Lemma initial_consistent (mediaFiles : list MediaEntry) :
  consistent mediaFiles Client.initial.
Proof.
  split; [|discriminate]. intros Hne. exists O. split; [reflexivity|].
  destruct mediaFiles; [congruence | cbn; lia].
Qed.

(** X6. Whatever a visitor does on a page whose file tiles carry indices
    of the modal list (clicks on tiles, on close, next and previous, any
    keys, in any order), the current index stays an index of the list as
    long as the list is not empty, and whenever the modal is displayed it
    shows the file at the current index, with that file's caption. With
    an empty list the modal never opens. *)
Theorem modal_shows_the_current_file :
  forall (mediaFiles : list MediaEntry) (events : list Client.Event),
    forallb (onTheList mediaFiles) events = true ->
    consistent mediaFiles (Client.run mediaFiles events Client.initial).
Proof.
  intros mediaFiles events Hevents.
  apply (run_consistent mediaFiles events Hevents).
  apply initial_consistent.
Qed.

(** X7. With the modal on a file of the list, next followed by previous
    opens it on that file again, and so does previous followed by next:
    the two buttons undo each other, also across the two ends of the
    list. *)
Theorem next_and_previous_undo_each_other :
  forall (mediaFiles : list MediaEntry) (i : nat) (s : Client.Modal),
    Client.currentIndex s = Client.Int (Z.of_nat i) ->
    (i < length mediaFiles)%nat ->
    opensOn mediaFiles i
            (Client.run mediaFiles [Client.ClickNext; Client.ClickPrev] s)
    /\ opensOn mediaFiles i
               (Client.run mediaFiles [Client.ClickPrev; Client.ClickNext] s).
Proof.
  intros mediaFiles i s Hi Hlt.
  assert (Hpos : (0 < length mediaFiles)%nat) by lia.
  set (n := length mediaFiles) in *.
  assert (Hstep : forall j, (j < n)%nat ->
                            exists s', Client.state
                                         (Client.showModal mediaFiles
                                                           (Client.Int (Z.of_nat j)) s)
                                       = s'
                                       /\ Client.currentIndex s'
                                          = Client.Int (Z.of_nat j)).
  { intros j Hj. destruct (opens_on_the_list mediaFiles j s Hj) as (f & _ & Hs').
    eexists. split; [reflexivity|]. rewrite Hs'. reflexivity. }
  split; unfold Client.run; cbn [fold_left Client.handle].
  - rewrite (showNext_on_the_list _ i s Hi Hlt). fold n.
    destruct (Hstep ((i + 1) mod n)%nat (mod_below _ _ Hpos)) as (s' & -> & Hs').
    rewrite (showPrev_on_the_list _ _ s' Hs' (mod_below _ _ Hpos)). fold n.
    replace (((i + 1) mod n + n - 1) mod n)%nat with i.
    + apply opens_on_the_list, Hlt.
    + destruct (Nat.eq_dec (i + 1) n) as [E|E].
      * rewrite E, Nat.Div0.mod_same. cbn [Nat.add].
        rewrite Nat.mod_small by lia. lia.
      * rewrite (Nat.mod_small (i + 1)) by lia.
        replace (i + 1 + n - 1)%nat with (i + 1 * n)%nat by lia.
        rewrite Nat.Div0.mod_add. rewrite Nat.mod_small by lia. reflexivity.
  - rewrite (showPrev_on_the_list _ i s Hi Hlt). fold n.
    destruct (Hstep ((i + n - 1) mod n)%nat (mod_below _ _ Hpos)) as (s' & -> & Hs').
    rewrite (showNext_on_the_list _ _ s' Hs' (mod_below _ _ Hpos)). fold n.
    replace (((i + n - 1) mod n + 1) mod n)%nat with i.
    + apply opens_on_the_list, Hlt.
    + destruct i as [|i'].
      * cbn [Nat.add]. rewrite (Nat.mod_small (n - 1)) by lia.
        replace (n - 1 + 1)%nat with n by lia. now rewrite Nat.Div0.mod_same.
      * replace (S i' + n - 1)%nat with (i' + 1 * n)%nat by lia.
        rewrite Nat.Div0.mod_add. rewrite (Nat.mod_small i') by lia.
        rewrite Nat.mod_small by lia. lia.
Qed.

Lemma run_app (mediaFiles : list MediaEntry) (a b : list Client.Event)
      (s : Client.Modal) :
  Client.run mediaFiles (a ++ b) s
  = Client.run mediaFiles b (Client.run mediaFiles a s).
Proof. unfold Client.run. apply fold_left_app. Qed.

(** X8. Paging forward goes round the list: with the modal on the file at
    index i of a list of n files, k clicks on next (k at least 1) open it
    on the file at index (i + k) mod n. So the step after the last file
    is the first file, n clicks come back to where they began, and every
    file of the list is reached within n clicks. *)
Theorem next_goes_round_the_list :
  forall (mediaFiles : list MediaEntry) (i k : nat) (s : Client.Modal),
    Client.currentIndex s = Client.Int (Z.of_nat i) ->
    (i < length mediaFiles)%nat ->
    opensOn mediaFiles ((i + S k) mod length mediaFiles)
            (Client.run mediaFiles (repeat Client.ClickNext (S k)) s).
Proof.
  intros mediaFiles i k s Hi Hlt.
  assert (Hpos : (0 < length mediaFiles)%nat) by lia.
  induction k as [|k IH].
  - unfold Client.run. cbn [repeat fold_left Client.handle].
    rewrite (showNext_on_the_list _ i s Hi Hlt).
    apply opens_on_the_list, mod_below, Hpos.
  - change (repeat Client.ClickNext (S (S k)))
      with (Client.ClickNext :: repeat Client.ClickNext (S k)).
    rewrite (repeat_cons (S k) Client.ClickNext), run_app.
    destruct IH as (f & Hf & Hs'). rewrite Hs'.
    unfold Client.run. cbn [fold_left Client.handle].
    rewrite (showNext_on_the_list _ ((i + S k) mod length mediaFiles))
      by (try reflexivity; apply mod_below, Hpos).
    replace ((i + S (S k)) mod length mediaFiles)%nat
      with (((i + S k) mod length mediaFiles + 1) mod length mediaFiles)%nat.
    + apply opens_on_the_list, mod_below, Hpos.
    + rewrite Nat.Div0.add_mod_idemp_l. f_equal. lia.
Qed.

(** ** A click on a tile *)








(** ** The theme *)

(** X11. The theme a visitor picks survives a reload: after the change
    handler has run for one of the three options, loading the page again
    with the storage as the handler left it gives the same dark mode, the
    same stored item and the same value of the select. *)
Theorem picked_theme_survives_a_reload :
  forall (prefersDark : bool) (picked : string) (t : Client.Theme),
    In picked Client.themeOptions ->
    Client.loaded prefersDark
                  (Client.storedTheme (Client.change prefersDark picked t))
    = Client.change prefersDark picked t.
Proof.
  intros prefersDark picked t. unfold Client.themeOptions. cbn [In].
  intros [<-|[<-|[<-|[]]]]; reflexivity.
Qed.



(** ** Names made readable *)

Lemma dropWs_subset (back : bool) (c : ascii) :
  forall (n : nat) (l : list ascii),
    (length l <= n)%nat -> In c (Js.dropWs back l) -> In c l.
Proof.
  induction n as [|n IH]; intros l Hlen Hin.
  - destruct l; [exact Hin | cbn in Hlen; lia].
  - destruct l as [|a r1]; [exact Hin|]. cbn [Js.dropWs] in Hin.
    destruct (Js.ws1 a).
    { right. apply IH; [cbn in Hlen; lia | exact Hin]. }
    destruct r1 as [|b r2]; [exact Hin|].
    match type of Hin with context [if ?t then _ else _] => destruct t end.
    { right; right. apply IH; [cbn in Hlen; lia | exact Hin]. }
    destruct r2 as [|d r3]; [exact Hin|].
    match type of Hin with context [if ?t then _ else _] => destruct t end;
      [|exact Hin].
    right; right; right. apply IH; [cbn in Hlen; lia | exact Hin].
Qed.

Lemma trim_subset (c : ascii) (s : string) :
  In c (Js.chars (Js.trim s)) -> In c (Js.chars s).
Proof.
  unfold Js.trim. rewrite chars_str. intros Hin.
  apply in_rev in Hin. apply (dropWs_subset true c _ _ (le_n _)) in Hin.
  apply in_rev in Hin. apply (dropWs_subset false c _ _ (le_n _)) in Hin.
  exact Hin.
Qed.

Lemma splitRuns_pieces (c : ascii) :
  forall (l : list ascii) (inRun : bool) (p : list ascii),
    In p (Js.splitRuns inRun l) -> In c p ->
    Js.isHyphenUnderscore c = false /\ In c l.
Proof.
  induction l as [|x r IH]; intros inRun p Hp Hc.
  - destruct Hp as [<-|[]]. destruct Hc.
  - cbn [Js.splitRuns] in Hp. destruct (Js.isHyphenUnderscore x) eqn:Ex.
    + assert (Hp' : In p (Js.splitRuns true r) \/ p = []).
      { destruct inRun; [left; exact Hp|]. destruct Hp as [<-|Hp]; auto. }
      destruct Hp' as [Hp'| ->]; [|destruct Hc].
      destruct (IH true p Hp' Hc) as [H1 H2]. split; [exact H1 | right; exact H2].
    + destruct (Js.splitRuns false r) as [|p0 ps] eqn:Es.
      * destruct Hp as [<-|[]]. destruct Hc as [<-|[]].
        split; [exact Ex | left; reflexivity].
      * destruct Hp as [<-|Hp].
        -- destruct Hc as [<-|Hc]; [split; [exact Ex | left; reflexivity]|].
           destruct (IH false p0) as [H1 H2];
             [rewrite Es; left; reflexivity | exact Hc |].
           split; [exact H1 | right; exact H2].
        -- destruct (IH false p) as [H1 H2];
             [rewrite Es; right; exact Hp | exact Hc |].
           split; [exact H1 | right; exact H2].
Qed.

Lemma concat_chars (sep : string) (c : ascii) (l : list string) :
  In c (Js.chars (String.concat sep l)) ->
  In c (Js.chars sep) \/ exists p, In p l /\ In c (Js.chars p).
Proof.
  induction l as [|x xs IH]; intros Hc; [destruct Hc|].
  cbn [String.concat] in Hc. destruct xs as [|y ys].
  - right. exists x. split; [left; reflexivity | exact Hc].
  - rewrite !chars_append in Hc. apply in_app_or in Hc as [Hc|Hc].
    + right. exists x. split; [left; reflexivity | exact Hc].
    + apply in_app_or in Hc as [Hc|Hc]; [left; exact Hc|].
      destruct (IH Hc) as [H|(p & Hp & Hcp)]; [left; exact H|].
      right. exists p. split; [right; exact Hp | exact Hcp].
Qed.

(** X13. A caption made from a name, of a file or of a folder, has no
    hyphen and no underscore in it, and every character of it is a
    character of the name or a space. *)
Theorem readable_names_have_no_separators :
  forall (s : string) (c : ascii),
    In c (Js.chars (Js.humanize s)) ->
    Js.isHyphenUnderscore c = false /\ (In c (Js.chars s) \/ c = " "%char).
Proof.
  intros s c Hin. unfold Js.humanize in Hin. apply trim_subset in Hin.
  unfold Js.join in Hin. apply concat_chars in Hin as [Hsp|(p & Hp & Hc)].
  - cbn in Hsp. destruct Hsp as [<-|[]]. split; [reflexivity | right; reflexivity].
  - unfold Js.splitHyphenUnderscore in Hp.
    apply in_map_iff in Hp as (q & <- & Hq). rewrite chars_str in Hc.
    destruct (splitRuns_pieces c _ _ _ Hq Hc) as [H1 H2]. split; [exact H1 | left; exact H2].
Qed.

(** ** The same file on every page *)

(** X14. The caption and the extension of a file do not depend on the
    paths the three places of the program hand to the resolver (the
    top-level route, the walk, the folder route): for a plain file name
    they are what the resolver gives for the bare name, and the extension
    is one of the supported ones exactly when the scanner accepts the
    name. *)
Theorem the_resolver_reads_the_name_only :
  forall (at_path : option node) (name dir folderFullPath folderName : string)
         (segs : list string),
    plainName name ->
    let own := processMediaFileForModal at_path name name in
    processMediaFileForModal
      at_path (Path.join [dirname; photosDirectory; name]) name
    = mkEntry name (caption own) (ext own)
    /\ processMediaFileForModal
         at_path (Path.join [dir; name]) (Path.join (segs ++ [name]))
       = mkEntry (Path.join (segs ++ [name])) (caption own) (ext own)
    /\ processMediaFileForModal
         at_path (Path.join [folderFullPath; name]) (Path.join [folderName; name])
       = mkEntry (Path.join [folderName; name]) (caption own) (ext own)
    /\ (In (ext own) mediaExtensions <-> isMediaName name = true).
Proof.
  intros at_path name dir full folder segs Hp own.
  assert (Hext : ext own = Js.toLowerCase (Path.extname name)) by reflexivity.
  rewrite Hext. split; [|split; [|split]].
  - pose proof (process_last at_path [dirname; photosDirectory] [] name Hp) as H.
    cbn [app] in H. rewrite (join_single _ Hp) in H. exact H.
  - apply (process_last at_path [dir] segs name Hp).
  - apply (process_last at_path [full] [folder] name Hp).
  - symmetry. apply includes_In.
Qed.

(** ** The order of the items and the order of the listing *)







(** ** From a folder tile to the page of the folder *)

Lemma append_empty_r (s : string) : (s ++ "")%string = s.
Proof. induction s as [|c s IH]; cbn; [reflexivity | now rewrite IH]. Qed.









(** ** The pages of the server under the script *)





(** ** A folder on the top-level page and on its own page *)

Lemma findEntry_Some (name : string) (entries : list node) (e : node) :
  findEntry name entries = Some e -> In e entries /\ nodeName e = name.
Proof.
  induction entries as [|x r IH]; [discriminate|]. cbn [findEntry].
  destruct (nodeName x =? name)%string eqn:E.
  - intros H. injection H as <-. apply String.eqb_eq in E. split; [left; reflexivity | exact E].
  - intros H. destruct (IH H) as [Hin Hn]. split; [right; exact Hin | exact Hn].
Qed.

Lemma chosenCover_In (l : list string) :
  match chosenCover l with
  | Some c => In c l
  | None => l = []
  end.
Proof.
  unfold chosenCover. destruct (find startsWithCover l) as [c|] eqn:E.
  - apply find_some in E. apply E.
  - destruct l; [reflexivity | left; reflexivity].
Qed.

(** X18. The thumbnail of a folder tile is a file of that folder's own
    page: when the folder has a media file at all, the thumbnail is "/"
    followed by the path of one of the entries the folder page is made of
    (which is the source of that entry's tile there); only a folder
    without media files shows the folder icon. *)
Theorem the_cover_is_on_the_folder_page :
  forall (entry : node) (name cap thumb link folderFullPath : string),
    galleryItemOf entry = Some (FolderItem name cap thumb link) ->
    match getMediaFilesFromDirectory (Some entry) with
    | [] => thumb = "/folder_icon.png"
    | _ :: _ =>
      exists m : MediaEntry,
        In m (folderMediaFilesForModal entry folderFullPath (nodeName entry))
        /\ thumb = ("/" ++ file m)%string
    end.
Proof.
  intros entry name cap thumb link full Hitem.
  unfold galleryItemOf in Hitem.
  destruct (isDirectory entry).
  2:{ destruct (isFile entry); [|discriminate].
      destruct (isMediaName (nodeName entry)); discriminate. }
  rewrite findFolderCover_chosen in Hitem.
  pose proof (chosenCover_In (getMediaFilesFromDirectory (Some entry))) as Hc.
  destruct (chosenCover (getMediaFilesFromDirectory (Some entry))) as [c|].
  - injection Hitem as _ _ <- _. cbn [coverUrl].
    destruct (getMediaFilesFromDirectory (Some entry)) as [|x l] eqn:El;
      [destruct Hc|]. rewrite <- El in *.
    eexists. split.
    + unfold folderMediaFilesForModal.
      apply (in_map (fun file =>
                       processMediaFileForModal
                         (entryAt (Some entry) file) (Path.join [full; file])
                         (Path.join [nodeName entry; file]))), Hc.
    + reflexivity.
  - rewrite Hc. injection Hitem as _ _ <- _. reflexivity.
Qed.

(** X19. What a folder page shows is also on the list of the top-level
    page: in a tree with plain, distinct names and readable directories,
    for every directory of the media root and every name of its listing
    that the folder page shows and that names a regular file, the entry
    the folder page makes for it (path, caption and extension) is an
    entry of the top-level modal list. *)
Theorem folder_files_are_on_the_top_level_list :
  forall (fs : node) (name : string) (entries : list node) (folder : node),
    lookup fs rootPath = Found (Dir name true entries) ->
    forallb readableBelow entries = true ->
    wellFormed (Dir name true entries) = true ->
    In folder entries -> isDirectory folder = true ->
    exists (tiles : list Tile) (all : list MediaEntry),
      mainRoute fs = Page projectTitle tiles all "main" ""
      /\ forall (f : string) (e : node),
          In f (getMediaFilesFromDirectory (Some folder)) ->
          entryAt (Some folder) f = Some e -> isFile e = true ->
          In (processMediaFileForModal
                (entryAt (Some folder) f)
                (Path.join [Path.join [dirname; photosDirectory; nodeName folder]; f])
                (Path.join [nodeName folder; f]))
             all.
Proof.
  intros fs name entries folder Hroot Hread Hwf Hin Hdir.
  destruct (mainRoute_page fs name entries Hroot Hread) as (all & Hpage & _ & Hperm).
  exists (map (tileOf all) (galleryItems entries)), all. split; [exact Hpage|].
  intros f e Hf Hat Hfile.
  destruct (wellFormed_dir _ _ _ Hwf) as (Hplain & _ & Hsub).
  rewrite Forall_forall in Hplain, Hsub.
  pose proof (Hplain folder Hin) as HpF. pose proof (Hsub folder Hin) as HwF.
  destruct folder as [nm ex|nm readable es|nm]; try discriminate.
  cbn [nodeName] in *.
  destruct (wellFormed_dir _ _ _ HwF) as (HplainF & _ & _).
  rewrite Forall_forall in HplainF.
  assert (Hm : isMediaName f = true /\ readable = true).
  { unfold getMediaFilesFromDirectory in Hf. destruct readable; cbn [readdir] in Hf;
      [|destruct Hf]. apply filter_In in Hf. split; [apply Hf | reflexivity]. }
  destruct Hm as [Hm ->].
  cbn [entryAt] in Hat. pose proof (findEntry_Some _ _ _ Hat) as [Hine Hname].
  pose proof (HplainF e Hine) as Hpf. rewrite Hname in Hpf.
  cbn [entryAt]. rewrite Hat.
  apply (Permutation_in _ (Permutation_sym Hperm)).
  rewrite (depthFirst_relFiles _ Hwf rootPath []) by constructor.
  change [Path.join [dirname; photosDirectory; nm]; f]
    with ([Path.join [dirname; photosDirectory; nm]] ++ [f]).
  change [nm; f] with ([nm] ++ [f]).
  rewrite (process_last _ _ _ _ Hpf).
  rewrite (join_plain ([nm] ++ [f]));
    [| discriminate
     | constructor; [exact HpF | constructor; [exact Hpf | constructor]]].
  apply in_map_iff. exists ([nm; f], e). split.
  - unfold entryOf. cbn [fst snd app]. now rewrite Hname.
  - cbn [relFiles]. apply in_flat_map. exists (Dir nm true es). split; [exact Hin|].
    cbn [isDirectory nodeName]. apply in_map_iff. exists ([f], e). split; [reflexivity|].
    rewrite <- Hname. apply In_relFiles_root; [exact Hine|].
    unfold isMediaFile. now rewrite Hfile, Hname, Hm.
Qed.

End Server.

(* ================================================================== *)
(** * Part III: the properties on a gallery *)
(* ================================================================== *)

Local Abbreviation resolve := (processMediaFileForModal utc).
Local Abbreviation mainPage photos :=
  (mainRoute "/srv/gallery" "photos" utc byteCompare inOrder (diskWith photos)).
Local Abbreviation request photos pathname :=
  (route "/srv/gallery" "photos" utc byteCompare inOrder (diskWith photos) pathname).
Local Abbreviation itemOf := (galleryItemOf "/srv/gallery" "photos" utc).

Lemma byteCompare_le (a b : string) :
  (byteCompare a b <= 0)%Z <-> String.compare a b <> Gt.
Proof.
  unfold byteCompare. destruct (String.compare a b); split; intros H;
    try lia; try discriminate. congruence.
Qed.

Lemma byteCompare_total (a b : string) :
  (byteCompare a b <= 0)%Z \/ (byteCompare b a <= 0)%Z.
Proof.
  unfold byteCompare. rewrite (String.compare_antisym a b).
  destruct (String.compare b a); cbn; lia.
Qed.

Lemma byteCompare_trans (a b c : string) :
  (byteCompare a b <= 0)%Z -> (byteCompare b c <= 0)%Z -> (byteCompare a c <= 0)%Z.
Proof.
  rewrite !byteCompare_le. intros Hab Hbc.
  destruct (String.compare a b) eqn:Eab; [| |congruence].
  - apply String_as_OT.cmp_eq in Eab. subst. exact Hbc.
  - destruct (String.compare b c) eqn:Ebc; [| |congruence].
    + apply String_as_OT.cmp_eq in Ebc. subst. rewrite Eab. discriminate.
    + apply String_as_OT.cmp_lt in Eab, Ebc.
      pose proof (String_as_OT.lt_trans _ _ _ Eab Ebc) as Hac.
      apply String_as_OT.cmp_lt in Hac. unfold String_as_OT.cmp in Hac.
      rewrite Hac. discriminate.
Qed.

(** ** C1 *)

(** C1, the program against the claim: a.jpg holds the description
    " Harbour at dawn " and a date. The first of its description tags
    that is not empty, trimmed, is "Harbour at dawn", and [parse] would
    hand the tags over; but the server reads the property [tags] of the
    parser it has created, which is not there, and captions the file by
    its name: "a", on the page as well, whatever the order in which the
    listings arrive. *)
Theorem description_tags_are_not_read :
  Exif.parse (Exif.create (Some described)) = Some described
  /\ firstNonEmptyTrimmed described = Some "Harbour at dawn"
  /\ getExifData (Some (File "a.jpg" (Some described))) = None
  /\ resolve (Some (File "a.jpg" (Some described)))
             "/srv/gallery/photos/a.jpg" "a.jpg"
     = mkEntry "a.jpg" "a" ".jpg"
  /\ (forall sched : nat -> nat,
         mainRoute "/srv/gallery" "photos" utc byteCompare sched
                   (diskWith [File "a.jpg" (Some described)])
         = Page "VCC Gallery" [FileTile 0 (Img "/a.jpg" "a") "a"]
                [mkEntry "a.jpg" "a" ".jpg"] "main" "").
Proof.
  split; [reflexivity|]. split; [vm_compute; reflexivity|].
  split; [reflexivity|]. split; [vm_compute; reflexivity|].
  intros sched. vm_compute. reflexivity.
Qed.

(** ** C2 *)

(** C2, the program against the claim: d.jpg holds nothing but the date
    2024-03-15, m.jpeg nothing but the camera model. The chain of the
    claim gives "March 15, 2024" and "Canon EOS 5D"; the server, which
    gets no tags (see C1), captions them "d" and "m". The last two steps
    are as claimed: a video is captioned "Video", any other file by its
    name without the extension, made readable; and these two steps make
    the caption of every file. *)
Theorem date_and_model_are_not_read :
  fallbackAsStated utc (Some dated) "/srv/gallery/photos/d.jpg" "d.jpg"
  = "March 15, 2024"
  /\ resolve (Some (File "d.jpg" (Some dated))) "/srv/gallery/photos/d.jpg" "d.jpg"
     = mkEntry "d.jpg" "d" ".jpg"
  /\ fallbackAsStated utc (Some cameraOnly) "/srv/gallery/photos/m.jpeg" "m.jpeg"
     = "Canon EOS 5D"
  /\ resolve (Some (File "m.jpeg" (Some cameraOnly)))
             "/srv/gallery/photos/m.jpeg" "m.jpeg"
     = mkEntry "m.jpeg" "m" ".jpeg"
  /\ caption (resolve (Some (File "beach_sunset.mp4" None))
                      "/srv/gallery/photos/beach_sunset.mp4" "beach_sunset.mp4")
     = "Video"
  /\ caption (resolve (Some (File "my-trip__2024.png" None))
                      "/srv/gallery/photos/my-trip__2024.png" "my-trip__2024.png")
     = "my trip 2024"
  /\ (forall (localOffset : Z -> Z) (at_path : option node)
             (fullPath relativePath : string),
         caption (processMediaFileForModal localOffset at_path fullPath relativePath)
         = defaultCaption fullPath relativePath).
Proof.
  repeat (split; [vm_compute; reflexivity|]).
  intros localOffset at_path fullPath relativePath.
  rewrite entry_from_the_name. reflexivity.
Qed.

(** ** C3 *)

(** C3, the claim as stated fails: the depth-first list has the file of
    the subfolder first; the list of the page has the root-level file
    first, whatever the order in which listings arrive, because the
    listing of the subfolder is asked for when the files of the root are
    pushed and arrives after. The navigation index of z.png is 0, its
    position in the list of the page, not its position 1 in the
    depth-first list. *)
Lemma depth_first_order_counterexample :
  depthFirst utc (Dir "photos" true nestedFirst) "/srv/gallery/photos" []
  = [mkEntry "sub/x.png" "x" ".png"; mkEntry "z.png" "z" ".png"]
  /\ (forall sched : nat -> nat,
         mainRoute "/srv/gallery" "photos" utc byteCompare sched
                   (diskWith nestedFirst)
         = Page "VCC Gallery"
                [FolderTile "/sub" "/sub/x.png" "sub";
                 FileTile 0 (Img "/z.png" "z") "z"]
                [mkEntry "z.png" "z" ".png"; mkEntry "sub/x.png" "x" ".png"]
                "main" "").
Proof. split; [|intros sched]; vm_compute; reflexivity. Qed.

(** The same root, every directory readable: the page is sent and its list
    is a rearrangement of the depth-first list. *)
Lemma flattened_list_and_navigation_index_witness :
  lookup (diskWith nestedFirst) (rootPath "/srv/gallery" "photos")
  = Found (Dir "photos" true nestedFirst)
  /\ forallb readableBelow nestedFirst = true
  /\ Forall (fun e => noSlash (nodeName e) = true) nestedFirst
  /\ exists all : list MediaEntry,
      mainPage nestedFirst
      = Page projectTitle
             (map (tileOf all)
                  (galleryItems "/srv/gallery" "photos" utc byteCompare nestedFirst))
             all "main" ""
      /\ Permutation all
                     (depthFirst utc (Dir "photos" true nestedFirst)
                                 (rootPath "/srv/gallery" "photos") []).
Proof.
  assert (Hnames : Forall (fun e => noSlash (nodeName e) = true) nestedFirst)
    by (repeat constructor).
  split; [reflexivity|]. split; [reflexivity|]. split; [exact Hnames|].
  destruct (flattened_list_and_navigation_index
              "/srv/gallery" "photos" utc byteCompare inOrder
              (diskWith nestedFirst) "photos" nestedFirst
              eq_refl eq_refl Hnames) as (all & Hpage & Hperm & _).
  exists all. split; [exact Hpage | exact Hperm].
Defined.

(** ** C4 *)

(** C4, the program against the claim, twice. The cover of the folder
    trip is cover.jpg, a JPEG whose ImageDescription is
    " Harbour at dawn "; the server gets no tags (see C1) and the caption
    stays the folder name. And in the folder album the name cover.jpg is
    that of a subdirectory: the scanner keeps names without asking what
    they name, so that the cover is no media file. For the rest the
    selection is as claimed, over the names with a supported extension:
    the first that starts with "cover", else the first, else the
    placeholder icon, under the folder name made readable. *)
Theorem cover_is_chosen_by_name_alone :
  entryAt (Some trip) "cover.jpg" = Some (File "cover.jpg" (Some described))
  /\ Exif.ImageDescription described = Some " Harbour at dawn "
  /\ itemOf trip = Some (FolderItem "trip" "trip" "/trip/cover.jpg" "/trip")
  /\ entryAt (Some album) "cover.jpg" = Some (Dir "cover.jpg" true [])
  /\ itemOf album = Some (FolderItem "album" "album" "/album/cover.jpg" "/album")
  /\ (forall (dirname photosDirectory : string) (localOffset : Z -> Z)
             (entry : node),
         isDirectory entry = true ->
         noSlash (nodeName entry) = true ->
         galleryItemOf dirname photosDirectory localOffset entry =
         Some (FolderItem
                 (nodeName entry)
                 (Js.humanize (nodeName entry))
                 (match chosenCover (getMediaFilesFromDirectory (Some entry)) with
                  | Some c => "/" ++ Path.join [nodeName entry; c]
                  | None => "/folder_icon.png"
                  end)
                 ("/" ++ nodeName entry))).
Proof.
  repeat (split; [vm_compute; reflexivity|]).
  intros dirname photosDirectory localOffset entry.
  apply folder_item_of_a_directory.
Qed.

(** The folder summer shows Cover-2.PNG, the first of its media files
    whose name starts with "cover"; a folder without media shows the
    icon. *)
Lemma summer_cover :
  itemOf summer
  = Some (FolderItem "summer" "summer" "/summer/Cover-2.PNG" "/summer")
  /\ itemOf (Dir "empty_folder" true [File "notes.txt" None])
     = Some (FolderItem "empty_folder" "empty folder" "/folder_icon.png"
                        "/empty_folder").
Proof. split; vm_compute; reflexivity. Qed.

(** A folder with "cover.png" and three other images shows "cover.png",
    wherever the others stand. *)
Lemma cover_png_is_chosen :
  itemOf (Dir "walks" true [File "b.jpg" None; File "a.png" None;
                            File "cover.png" None; File "c.gif" None])
  = Some (FolderItem "walks" "walks" "/walks/cover.png" "/walks").
Proof. vm_compute. reflexivity. Qed.

(** ** C5 *)

(** Comparison byte by byte is total and transitive, and orders the items
    of a root with two files and a folder. *)
Lemma folders_first_then_by_name_witness :
  (forall a b : string, (byteCompare a b <= 0)%Z \/ (byteCompare b a <= 0)%Z)
  /\ (forall a b c : string,
         (byteCompare a b <= 0)%Z -> (byteCompare b c <= 0)%Z ->
         (byteCompare a c <= 0)%Z)
  /\ Forall (fun e => nodeName e <> "") mixed
  /\ exists folders files : list GalleryItem,
      galleryItems "/srv/gallery" "photos" utc byteCompare mixed = folders ++ files
      /\ Forall (fun i => isFolderItem i = true) folders
      /\ Forall (fun i => isFileItem i = true) files
      /\ StronglySorted (nameLe byteCompare) folders
      /\ StronglySorted (nameLe byteCompare) files
      /\ Permutation (folders ++ files)
                     (filterMap (galleryItemOf "/srv/gallery" "photos" utc) mixed).
Proof.
  assert (Hnames : Forall (fun e => nodeName e <> "") mixed)
    by (repeat constructor; discriminate).
  split; [exact byteCompare_total|]. split; [exact byteCompare_trans|].
  split; [exact Hnames|].
  exact (folders_first_then_by_name "/srv/gallery" "photos" utc byteCompare mixed
                                    byteCompare_total byteCompare_trans Hnames).
Defined.

(** The items b.jpg, folder a, a.jpg are displayed as folder a, a.jpg,
    b.jpg. *)
Lemma mixed_items_in_display_order :
  galleryItems "/srv/gallery" "photos" utc byteCompare mixed
  = [FolderItem "a" "a" "/folder_icon.png" "/a";
     FileItem (mkEntry "a.jpg" "a" ".jpg") "/a.jpg";
     FileItem (mkEntry "b.jpg" "b" ".jpg") "/b.jpg"].
Proof. vm_compute. reflexivity. Qed.

(** ** C6 *)

(** C6, the program against the claim: the media root is read, one of its
    folders cannot be listed. The folder gets its tile with the
    placeholder (the cover lookup treats the folder as empty), but the
    walk for the modal list is rejected and the route answers 500,
    whatever the order in which the listings arrive. *)
Theorem unreadable_subfolder_example :
  itemOf (Dir "private" false [File "x.png" None])
  = Some (FolderItem "private" "private" "/folder_icon.png" "/private")
  /\ (forall sched : nat -> nat,
         mainRoute "/srv/gallery" "photos" utc byteCompare sched
                   (diskWith lockedFolder)
         = Status 500 "An error occurred while building the gallery.").
Proof.
  split; [vm_compute; reflexivity|].
  intros sched.
  apply (unreadable_subfolder_fails_the_page
           "/srv/gallery" "photos" utc byteCompare sched
           (diskWith lockedFolder) "photos" lockedFolder); reflexivity.
Qed.

(** The handler of the folder route, for its part, shows the folder that
    cannot be listed as an empty page. *)
Lemma unreadable_folder_page :
  folderRoute "/srv/gallery" "photos" utc (diskWith lockedFolder) "private"
  = Page "VCC Gallery - private" [] [] "folder" "private".
Proof. vm_compute. reflexivity. Qed.

(** ** C7 *)

(** C7, the claim as stated fails: "_.png" passes the extension filter and
    its caption is empty, on the page as well; and the folder "__" is
    shown without a caption. *)
Lemma empty_caption_counterexample :
  isMediaName "_.png" = true
  /\ caption (resolve (Some (File "_.png" None)) "/srv/gallery/photos/_.png" "_.png")
     = ""
  /\ mainPage [File "_.png" None]
     = Page "VCC Gallery" [FileTile 0 (Img "/_.png" "") ""]
            [mkEntry "_.png" "" ".png"] "main" ""
  /\ itemOf (Dir "__" true [])
     = Some (FolderItem "__" "" "/folder_icon.png" "/__").
Proof. repeat split; vm_compute; reflexivity. Qed.

(** A root with four names: the picture "_.png" and the folder "__" are
    blank and have no caption; the video "-_ .mp4", blank as well, is
    captioned "Video"; a.png is captioned "a". *)
Lemma caption_is_empty_only_for_blank_names_witness :
  Forall (fun e => noSlash (nodeName e) = true) blankNames
  /\ galleryItems "/srv/gallery" "photos" utc byteCompare blankNames
     = [FolderItem "__" "" "/folder_icon.png" "/__";
        FileItem (mkEntry "_.png" "" ".png") "/_.png";
        FileItem (mkEntry "-_ .mp4" "Video" ".mp4") "/-_ .mp4";
        FileItem (mkEntry "a.png" "a" ".png") "/a.png"]
  /\ Forall itemRule
            (galleryItems "/srv/gallery" "photos" utc byteCompare blankNames)
  /\ captionRule (resolve (Some (File "IMG_0042.jpg" None))
                          "/srv/gallery/photos/IMG_0042.jpg" "IMG_0042.jpg").
Proof.
  assert (Hnames : Forall (fun e => noSlash (nodeName e) = true) blankNames)
    by (repeat constructor).
  split; [exact Hnames|]. split; [vm_compute; reflexivity|].
  destruct (caption_is_empty_only_for_blank_names
              "/srv/gallery" "photos" utc byteCompare inOrder blankNames Hnames)
    as (Hfile & Hitems & _).
  split; [exact Hitems | apply Hfile].
Defined.

(** ** C8 *)

(** C8, the program against the claim: the folder attic has a
    subdirectory raw.jpg and a socket sock.png. The scanner keeps names
    without asking what they name (the top-level route and the walk ask,
    see C9), so that the page of the folder shows both as pictures, with
    a tile and an entry of the modal list each, next to the two media
    files b.jpg and A.JPG. The top-level page of the same tree has the
    two files only, and the file of the subdirectory. *)
Theorem folder_page_lists_a_directory :
  lookup (diskWith [attic; File "root.png" None])
         (Path.join ["/srv/gallery"; "photos"; "attic"])
  = Found attic
  /\ map isFile atticListing = [true; false; false; true; true]
  /\ folderRoute "/srv/gallery" "photos" utc
                 (diskWith [attic; File "root.png" None]) "attic"
     = Page "VCC Gallery - attic"
            [FileTile 0 (Img "/attic/b.jpg" "b") "b";
             FileTile 1 (Img "/attic/raw.jpg" "raw") "raw";
             FileTile 2 (Img "/attic/sock.png" "sock") "sock";
             FileTile 3 (Img "/attic/A.JPG" "A") "A"]
            [mkEntry "attic/b.jpg" "b" ".jpg";
             mkEntry "attic/raw.jpg" "raw" ".jpg";
             mkEntry "attic/sock.png" "sock" ".png";
             mkEntry "attic/A.JPG" "A" ".jpg"]
            "folder" "attic"
  /\ (forall sched : nat -> nat,
         mainRoute "/srv/gallery" "photos" utc byteCompare sched
                   (diskWith [attic; File "root.png" None])
         = Page "VCC Gallery"
                [FolderTile "/attic" "/attic/b.jpg" "attic";
                 FileTile 0 (Img "/root.png" "root") "root"]
                [mkEntry "root.png" "root" ".png";
                 mkEntry "attic/b.jpg" "b" ".jpg";
                 mkEntry "attic/A.JPG" "A" ".jpg";
                 mkEntry "attic/raw.jpg/r.jpg" "r" ".jpg"]
                "main" "").
Proof.
  split; [reflexivity|]. split; [reflexivity|]. split; [vm_compute; reflexivity|].
  intros sched. vm_compute. reflexivity.
Qed.

(** The page of the folder summer, whose names with a supported extension
    are all regular files: its four media files in the order of the
    listing, indexed 0 to 3; not notes.txt, not raw/r.jpg, not the file
    of the root. *)
Lemma summer_folder_page :
  folderRoute "/srv/gallery" "photos" utc
              (diskWith [summer; File "root.png" None]) "summer"
  = Page "VCC Gallery - summer"
         [FileTile 0 (Img "/summer/b.jpg" "b") "b";
          FileTile 1 (Img "/summer/Cover-2.PNG" "Cover 2") "Cover 2";
          FileTile 2 (Img "/summer/cover.png" "cover") "cover";
          FileTile 3 (Img "/summer/c.gif" "c") "c"]
         [mkEntry "summer/b.jpg" "b" ".jpg";
          mkEntry "summer/Cover-2.PNG" "Cover 2" ".png";
          mkEntry "summer/cover.png" "cover" ".png";
          mkEntry "summer/c.gif" "c" ".gif"]
         "folder" "summer".
Proof. vm_compute. reflexivity. Qed.

(** ** C9 *)

(** C9, the program against the claim: of the listing of attic the
    scanner keeps b.jpg and A.JPG and drops notes-from-trip.txt, as
    claimed, but it keeps raw.jpg, a directory, and sock.png, a socket,
    as well: it filters the names of the listing by their extension, in
    the order of the listing, and does not ask what they name. The
    top-level route and the walk do ask: the file items of the top-level
    page and the entries a listing adds to the modal list are those of
    the regular files with a supported extension, no more and no fewer,
    so that the same listing as the media root gives two file items and
    the folder raw.jpg. *)
Theorem scanner_keeps_a_directory :
  getMediaFilesFromDirectory (Some attic)
  = ["b.jpg"; "raw.jpg"; "sock.png"; "A.JPG"]
  /\ entryAt (Some attic) "raw.jpg" = Some (Dir "raw.jpg" true [File "r.jpg" None])
  /\ entryAt (Some attic) "sock.png" = Some (Other "sock.png")
  /\ galleryItems "/srv/gallery" "photos" utc byteCompare atticListing
     = [FolderItem "raw.jpg" "raw.jpg" "/raw.jpg/r.jpg" "/raw.jpg";
        FileItem (mkEntry "A.JPG" "A" ".jpg") "/A.JPG";
        FileItem (mkEntry "b.jpg" "b" ".jpg") "/b.jpg"]
  /\ (forall at_path : option node,
         getMediaFilesFromDirectory at_path
         = filter isMediaName
                  (match readdir at_path with
                   | Some files => map nodeName files
                   | None => []
                   end))
  /\ (forall name : string,
         isMediaName name = true
         <-> In (Js.toLowerCase (Path.extname name))
                [".jpg"; ".jpeg"; ".png"; ".gif"; ".mp4"; ".mov"; ".webm"; ".webp"])
  /\ (forall (dirname photosDirectory : string) (localOffset : Z -> Z)
             (localeCompare : string -> string -> Z) (entries : list node)
             (data : MediaEntry) (url : string),
         In (FileItem data url)
            (galleryItems dirname photosDirectory localOffset localeCompare entries)
         <-> exists entry,
             In entry entries /\ isFile entry = true
             /\ isMediaName (nodeName entry) = true
             /\ data = processMediaFileForModal
                         localOffset (Some entry)
                         (Path.join [dirname; photosDirectory; nodeName entry])
                         (nodeName entry)
             /\ url = ("/" ++ nodeName entry)%string)
  /\ (forall (localOffset : Z -> Z) (t : WalkTask) (dirEntries : list node),
         Permutation
           (pushesOf localOffset t dirEntries)
           (map (pushedEntry localOffset t)
                (filter (fun e => isFile e && isMediaName (nodeName e)) dirEntries))).
Proof.
  repeat (split; [vm_compute; reflexivity|]).
  split; [exact scanner_filters_the_names|].
  split; [exact isMediaName_extensions|]. split.
  - intros dirname photosDirectory localOffset localeCompare entries data url.
    rewrite file_items_of_the_media_files. unfold isMediaFile.
    split; intros (entry & Hin & H & Hrest); exists entry.
    + apply andb_true_iff in H as [Hf Hm]. auto.
    + destruct Hrest as (Hm & Hrest). rewrite H, Hm. auto.
  - intros localOffset t dirEntries.
    apply pushes_of_the_media_files.
Qed.

(** ** C10 *)

(** C10, the claim as stated fails: b lies two levels below the media
    root, and the request for /a%2Fb/ is answered with its gallery page. *)
Lemma nested_folder_page_counterexample :
  Express.matchSegment "/a%2Fb/" = Some "a%2Fb"
  /\ Express.decodeURIComponent "a%2Fb" = Some "a/b"
  /\ lookup (diskWith twoLevels) "/srv/gallery/photos/a/b"
     = Found (Dir "b" true [File "x.png" None])
  /\ request twoLevels "/a%2Fb/"
     = Page "VCC Gallery - a/b"
            [FileTile 0 (Img "/a/b/x.png" "x") "x"]
            [mkEntry "a/b/x.png" "x" ".png"]
            "folder" "a/b".
Proof. repeat split; vm_compute; reflexivity. Qed.

(** The path /a/b reaches no route; the name a leads to the entry a of the
    media root. *)
Lemma gallery_pages_of_single_names_witness :
  Js.startsWith "/srv/gallery" "/" = true
  /\ request twoLevels "/a/b" = Next
  /\ exists name readable entries,
      lookup (diskWith twoLevels) (rootPath "/srv/gallery" "photos")
      = Found (Dir name readable entries)
      /\ findEntry "a" entries
         = Some (Dir "a" true [Dir "b" true [File "x.png" None]; File "top.gif" None]).
Proof.
  split; [reflexivity|].
  destruct (gallery_pages_of_single_names
              "/srv/gallery" "photos" utc byteCompare inOrder
              (diskWith twoLevels) eq_refl) as (_ & Hnext & Hplain).
  split.
  - apply (Hnext "a" "b"). discriminate.
  - apply (Hplain "a"); [|reflexivity].
    repeat split; discriminate.
Defined.

(** ** The routes, the modal list and the script on the gallery *)



Lemma root_files_lead_the_modal_list_witness :
  lookup (diskWith holiday) (rootPath "/srv/gallery" "photos")
  = Found (Dir "photos" true holiday)
  /\ forallb readableBelow holiday = true
  /\ Forall (fun e => noSlash (nodeName e) = true) holiday
  /\ pushesOf utc (rootTask "/srv/gallery" "photos" (Dir "photos" true holiday))
              holiday
     = [mkEntry "a.png" "a" ".png"; mkEntry "b.jpg" "b" ".jpg"]
  /\ exists rest : list MediaEntry,
      mainPage holiday
      = Page projectTitle
             (map (tileOf [mkEntry "a.png" "a" ".png";
                           mkEntry "b.jpg" "b" ".jpg"])
                  (galleryItems "/srv/gallery" "photos" utc byteCompare holiday))
             ([mkEntry "a.png" "a" ".png"; mkEntry "b.jpg" "b" ".jpg"]
                ++ rest)
             "main" "".
Proof.
  assert (Hnames : Forall (fun e => noSlash (nodeName e) = true) holiday)
    by (repeat constructor).
  split; [reflexivity|]. split; [reflexivity|]. split; [exact Hnames|].
  split; [reflexivity|].
  destruct (root_files_lead_the_modal_list
              "/srv/gallery" "photos" utc byteCompare inOrder
              (diskWith holiday) "photos" holiday eq_refl eq_refl Hnames)
    as (rest & Hpage & _).
  exists rest. exact Hpage.
Defined.

Lemma modal_entries_lead_to_their_files_witness :
  lookup (diskWith holiday) (rootPath "/srv/gallery" "photos")
  = Found (Dir "photos" true holiday)
  /\ forallb readableBelow holiday = true
  /\ wellFormed (Dir "photos" true holiday) = true
  /\ walk (Dir "photos" true holiday) (segments "trip/clip.mp4")
     = Found (File "clip.mp4" None)
  /\ exists (tiles : list Tile) (all : list MediaEntry),
      mainPage holiday = Page projectTitle tiles all "main" ""
      /\ Forall (fun m => In (ext m) mediaExtensions) all.
Proof.
  split; [reflexivity|]. split; [reflexivity|]. split; [reflexivity|].
  split; [reflexivity|].
  destruct (modal_entries_lead_to_their_files
              "/srv/gallery" "photos" utc byteCompare inOrder
              (diskWith holiday) "photos" holiday eq_refl eq_refl eq_refl)
    as (tiles & all & Hpage & Hall).
  exists tiles, all. split; [exact Hpage|].
  revert Hall. apply Forall_impl. intros m (f & _ & _ & _ & Hext & _). exact Hext.
Defined.

Lemma modal_paths_are_distinct_witness :
  lookup (diskWith holiday) (rootPath "/srv/gallery" "photos")
  = Found (Dir "photos" true holiday)
  /\ forallb readableBelow holiday = true
  /\ wellFormed (Dir "photos" true holiday) = true
  /\ exists all : list MediaEntry,
      mainPage holiday
      = Page projectTitle
             (map (tileOf all)
                  (galleryItems "/srv/gallery" "photos" utc byteCompare holiday))
             all "main" ""
      /\ NoDup (map file all).
Proof.
  split; [reflexivity|]. split; [reflexivity|]. split; [reflexivity|].
  destruct (modal_paths_are_distinct
              "/srv/gallery" "photos" utc byteCompare inOrder
              (diskWith holiday) "photos" holiday eq_refl eq_refl eq_refl)
    as (all & Hpage & Hnd & _).
  exists all. split; [exact Hpage | exact Hnd].
Defined.

Lemma modal_shows_the_current_file_witness :
  forallb (onTheList threeFiles)
          [Client.ClickTile 1; Client.ClickNext; Client.KeyDown "Escape";
           Client.ClickPrev]
  = true
  /\ Client.run threeFiles
                [Client.ClickTile 1; Client.ClickNext; Client.KeyDown "Escape";
                 Client.ClickPrev]
                Client.initial
     = Client.mkModal (Client.Int 1) "block"
                      [Client.mkElement Client.VIDEO "/clip.mp4" "Video" true
                                        "metadata" true true ["modal-content"]]
                      "Video"
  /\ consistent threeFiles
                (Client.run threeFiles
                            [Client.ClickTile 1; Client.ClickNext;
                             Client.KeyDown "Escape"; Client.ClickPrev]
                            Client.initial).
Proof.
  split; [reflexivity|]. split; [reflexivity|].
  exact (modal_shows_the_current_file
           threeFiles
           [Client.ClickTile 1; Client.ClickNext; Client.KeyDown "Escape";
            Client.ClickPrev]
           eq_refl).
Defined.

Lemma next_and_previous_undo_each_other_witness :
  Client.currentIndex Client.initial = Client.Int (Z.of_nat 0)
  /\ (0 < length threeFiles)%nat
  /\ opensOn threeFiles 0
             (Client.run threeFiles [Client.ClickNext; Client.ClickPrev]
                         Client.initial)
  /\ opensOn threeFiles 0
             (Client.run threeFiles [Client.ClickPrev; Client.ClickNext]
                         Client.initial).
Proof.
  assert (Hlt : (0 < length threeFiles)%nat) by (cbn; lia).
  split; [reflexivity|]. split; [exact Hlt|].
  exact (next_and_previous_undo_each_other threeFiles 0 Client.initial eq_refl Hlt).
Defined.

Lemma next_goes_round_the_list_witness :
  Client.currentIndex Client.initial = Client.Int (Z.of_nat 0)
  /\ (0 < length threeFiles)%nat
  /\ opensOn threeFiles ((0 + 3) mod length threeFiles)
             (Client.run threeFiles (repeat Client.ClickNext 3) Client.initial).
Proof.
  assert (Hlt : (0 < length threeFiles)%nat) by (cbn; lia).
  split; [reflexivity|]. split; [exact Hlt|].
  exact (next_goes_round_the_list threeFiles 0 2 Client.initial eq_refl Hlt).
Defined.



Lemma picked_theme_survives_a_reload_witness :
  In "dark" Client.themeOptions
  /\ Client.change false "dark" firstVisit = Client.mkTheme true (Some "dark") "dark"
  /\ Client.loaded false (Client.storedTheme (Client.change false "dark" firstVisit))
     = Client.change false "dark" firstVisit.
Proof.
  assert (Hin : In "dark" Client.themeOptions) by (right; right; left; reflexivity).
  split; [exact Hin|]. split; [reflexivity|].
  exact (picked_theme_survives_a_reload false "dark" firstVisit Hin).
Defined.

Lemma readable_names_have_no_separators_witness :
  Js.humanize "my-trip__2024" = "my trip 2024"
  /\ In "t"%char (Js.chars (Js.humanize "my-trip__2024"))
  /\ Js.isHyphenUnderscore "t" = false
  /\ (In "t"%char (Js.chars "my-trip__2024") \/ "t"%char = " "%char).
Proof.
  assert (Hin : In "t"%char (Js.chars (Js.humanize "my-trip__2024"))).
  { right; right; right; left; reflexivity. }
  split; [reflexivity|]. split; [exact Hin|].
  exact (readable_names_have_no_separators "my-trip__2024" "t" Hin).
Defined.

Lemma the_resolver_reads_the_name_only_witness :
  plainName "d.jpg"
  /\ resolve (Some (File "d.jpg" (Some dated))) "d.jpg" "d.jpg"
     = mkEntry "d.jpg" "d" ".jpg"
  /\ resolve (Some (File "d.jpg" (Some dated)))
             (Path.join ["/srv/gallery/photos/trip"; "d.jpg"])
             (Path.join (["trip"] ++ ["d.jpg"]))
     = mkEntry (Path.join (["trip"] ++ ["d.jpg"]))
               (caption (resolve (Some (File "d.jpg" (Some dated))) "d.jpg" "d.jpg"))
               (ext (resolve (Some (File "d.jpg" (Some dated))) "d.jpg" "d.jpg")).
Proof.
  assert (Hp : plainName "d.jpg") by (repeat split; discriminate).
  split; [exact Hp|]. split; [reflexivity|].
  exact (proj1 (proj2 (the_resolver_reads_the_name_only
                         "/srv/gallery" "photos" utc
                         (Some (File "d.jpg" (Some dated))) "d.jpg"
                         "/srv/gallery/photos/trip" "/srv/gallery/photos/trip"
                         "trip" ["trip"] Hp))).
Defined.




Lemma the_cover_is_on_the_folder_page_witness :
  itemOf summer
  = Some (FolderItem "summer" "summer" "/summer/Cover-2.PNG" "/summer")
  /\ exists m : MediaEntry,
      In m (folderMediaFilesForModal utc summer "/srv/gallery/photos/summer"
                                     "summer")
      /\ "/summer/Cover-2.PNG" = ("/" ++ file m)%string.
Proof.
  split; [reflexivity|].
  exact (the_cover_is_on_the_folder_page
           "/srv/gallery" "photos" utc summer
           "summer" "summer" "/summer/Cover-2.PNG" "/summer"
           "/srv/gallery/photos/summer" eq_refl).
Defined.

Lemma folder_files_are_on_the_top_level_list_witness :
  lookup (diskWith holiday) (rootPath "/srv/gallery" "photos")
  = Found (Dir "photos" true holiday)
  /\ forallb readableBelow holiday = true
  /\ wellFormed (Dir "photos" true holiday) = true
  /\ In (Dir "trip" true [File "x.png" None; File "clip.mp4" None]) holiday
  /\ exists (tiles : list Tile) (all : list MediaEntry),
      mainPage holiday = Page projectTitle tiles all "main" ""
      /\ In (mkEntry "trip/clip.mp4" "Video" ".mp4") all.
Proof.
  assert (Hin : In (Dir "trip" true [File "x.png" None; File "clip.mp4" None])
                   holiday) by (right; left; reflexivity).
  split; [reflexivity|]. split; [reflexivity|]. split; [reflexivity|].
  split; [exact Hin|].
  destruct (folder_files_are_on_the_top_level_list
              "/srv/gallery" "photos" utc byteCompare inOrder
              (diskWith holiday) "photos" holiday
              (Dir "trip" true [File "x.png" None; File "clip.mp4" None])
              eq_refl eq_refl eq_refl Hin eq_refl)
    as (tiles & all & Hpage & Hfiles).
  exists tiles, all. split; [exact Hpage|].
  exact (Hfiles "clip.mp4" (File "clip.mp4" None)
                (or_intror (or_introl eq_refl)) eq_refl eq_refl).
Defined.
